(** * Surface normals of a halfedge mesh

    A shallow embedding of [src/pmp/algorithms/SurfaceNormals.cpp]:
    [compute_vertex_normal], [compute_face_normal], [compute_corner_normal]
    and the two batch drivers, over exact real arithmetic.

    - A [Scalar] is a real number.  Division, square root and arccosine are
      checked: applied outside their domain they yield [NotANumber], so that
      the guards of the source have something to protect.
    - The [do ... while (h != hend)] loops take fuel; a loop that runs out of
      fuel yields [NoReturn].
    - The mesh container is consumed through its query operations only, which
      are the fields of [SurfaceMesh]. *)

From Stdlib Require Import Reals Lra Lia ZArith List Psatz RNsatz Wf_nat.
From stdpp Require Import gmap strings.

Open Scope R_scope.

(** ** Outcomes of a computation *)

Inductive Result (A : Type) : Type :=
| Ret (a : A)      (* the call returns [a] *)
| NotANumber       (* an arithmetic operation was applied outside its domain *)
| NoReturn.        (* the fuel ran out before a loop came back to its start *)

Arguments Ret {A} a.
Arguments NotANumber {A}.
Arguments NoReturn {A}.

Definition bind {A B : Type} (r : Result A) (k : A -> Result B) : Result B :=
  match r with
  | Ret a => k a
  | NotANumber => NotANumber
  | NoReturn => NoReturn
  end.

Notation "x <~ e ;; k" := (bind e (fun x => k))
  (at level 100, e at next level, right associativity).

(** ** Checked scalar operations *)

Abbreviation Scalar := R (only parsing).

(** [a / b] of the source: undefined for a zero divisor. *)
Definition fdiv (a b : Scalar) : Result Scalar :=
  if Req_dec_T b 0 then NotANumber else Ret (a / b).

(** [sqrt(a)] of the source: undefined for a negative argument. *)
Definition fsqrt (a : Scalar) : Result Scalar :=
  if Rlt_dec a 0 then NotANumber else Ret (sqrt a).

(** [acos(a)] of the source: undefined outside [-1, 1]. *)
Definition facos (a : Scalar) : Result Scalar :=
  if Rlt_dec a (-1) then NotANumber
  else if Rgt_dec a 1 then NotANumber
  else Ret (acos a).

(** ** Points and normals *)

Record Point : Type := mkPoint { px : Scalar; py : Scalar; pz : Scalar }.

Definition Normal : Type := Point.

Definition vzero : Point := mkPoint 0 0 0.

Definition vadd (a b : Point) : Point :=
  mkPoint (px a + px b) (py a + py b) (pz a + pz b).

Definition vsub (a b : Point) : Point :=
  mkPoint (px a - px b) (py a - py b) (pz a - pz b).

Definition vopp (a : Point) : Point :=
  mkPoint (- px a) (- py a) (- pz a).

Definition vscale (a : Point) (s : Scalar) : Point :=
  mkPoint (px a * s) (py a * s) (pz a * s).

Definition dot (a b : Point) : Scalar :=
  px a * px b + py a * py b + pz a * pz b.

Definition cross (a b : Point) : Point :=
  mkPoint (py a * pz b - pz a * py b)
          (pz a * px b - px a * pz b)
          (px a * py b - py a * px b).

Definition norm (a : Point) : Scalar := sqrt (dot a a).

(** [n /= s] of the source: every component is divided by [s]. *)
Definition vdiv (a : Point) (s : Scalar) : Result Point :=
  x <~ fdiv (px a) s ;;
  y <~ fdiv (py a) s ;;
  z <~ fdiv (pz a) s ;;
  Ret (mkPoint x y z).

Declare Scope vec_scope.
Delimit Scope vec_scope with vec.
Infix "+v" := vadd (at level 50, left associativity) : vec_scope.
Infix "-v" := vsub (at level 50, left associativity) : vec_scope.
Infix "*v" := vscale (at level 40, left associativity) : vec_scope.
Open Scope vec_scope.

(** ** Handles *)

(** A handle is an index into the mesh, or the invalid handle that a
    default-constructed one is. *)
Inductive Vertex : Type := NoVertex | V (i : nat).
Inductive Halfedge : Type := NoHalfedge | H (i : nat).
Inductive Face : Type := NoFace | F (i : nat).

#[global] Instance Vertex_eq_dec : EqDecision Vertex.
Proof. solve_decision. Defined.
#[global] Instance Halfedge_eq_dec : EqDecision Halfedge.
Proof. solve_decision. Defined.
#[global] Instance Face_eq_dec : EqDecision Face.
Proof. solve_decision. Defined.

#[global] Instance Vertex_countable : Countable Vertex.
Proof.
  refine (inj_countable' (fun v => match v with NoVertex => None | V i => Some i end)
            (fun o => match o with None => NoVertex | Some i => V i end) _).
  intros []; reflexivity.
Defined.

#[global] Instance Face_countable : Countable Face.
Proof.
  refine (inj_countable' (fun f => match f with NoFace => None | F i => Some i end)
            (fun o => match o with None => NoFace | Some i => F i end) _).
  intros []; reflexivity.
Defined.

(** [h.is_valid()] *)
Definition is_valid (h : Halfedge) : bool :=
  match h with NoHalfedge => false | H _ => true end.

Definition face_is_valid (f : Face) : bool :=
  match f with NoFace => false | F _ => true end.

(** ** The mesh, as this file consumes it *)

(** A per-element attribute: one slot for each element that has one. *)
Definition VertexProperty : Type := gmap Vertex Point.
Definition FaceProperty : Type := gmap Face Point.

Record SurfaceMesh : Type := mkMesh {
  vertices : list Vertex;                     (* mesh.vertices(), in iteration order *)
  faces : list Face;                          (* mesh.faces(), in iteration order *)
  halfedge : Vertex -> Halfedge;              (* mesh.halfedge(v), an outgoing halfedge *)
  face_halfedge : Face -> Halfedge;           (* mesh.halfedge(f) *)
  to_vertex : Halfedge -> Vertex;
  from_vertex : Halfedge -> Vertex;
  next_halfedge : Halfedge -> Halfedge;
  prev_halfedge : Halfedge -> Halfedge;
  opposite_halfedge : Halfedge -> Halfedge;
  cw_rotated_halfedge : Halfedge -> Halfedge;
  face : Halfedge -> Face;
  is_boundary : Halfedge -> bool;
  vprops : gmap string VertexProperty;        (* the named per-vertex attributes *)
  fprops : gmap string FaceProperty           (* the named per-face attributes *)
}.

(** [mesh.get_vertex_property<Point>(name)]: the attribute of that name. *)
Definition get_vertex_property (m : SurfaceMesh) (name : string) : VertexProperty :=
  default ∅ (vprops m !! name).

Definition get_face_property (m : SurfaceMesh) (name : string) : FaceProperty :=
  default ∅ (fprops m !! name).

(** [prop[v]] read.  A slot that was never written reads as the zero vector. *)
Definition vread (p : VertexProperty) (v : Vertex) : Point := default vzero (p !! v).
Definition fread (p : FaceProperty) (f : Face) : Point := default vzero (p !! f).

Definition with_vprops (m : SurfaceMesh) (vp : gmap string VertexProperty) : SurfaceMesh :=
  mkMesh (vertices m) (faces m) (halfedge m) (face_halfedge m) (to_vertex m)
         (from_vertex m) (next_halfedge m) (prev_halfedge m) (opposite_halfedge m)
         (cw_rotated_halfedge m) (face m) (is_boundary m) vp (fprops m).

Definition with_fprops (m : SurfaceMesh) (fp : gmap string FaceProperty) : SurfaceMesh :=
  mkMesh (vertices m) (faces m) (halfedge m) (face_halfedge m) (to_vertex m)
         (from_vertex m) (next_halfedge m) (prev_halfedge m) (opposite_halfedge m)
         (cw_rotated_halfedge m) (face m) (is_boundary m) (vprops m) fp.

(** [mesh.vertex_property<Normal>(name)]: the attribute of that name, which is
    attached, empty, when the mesh has none. *)
Definition vertex_property (m : SurfaceMesh) (name : string) : SurfaceMesh :=
  match vprops m !! name with
  | Some _ => m
  | None => with_vprops m (<[name := ∅]> (vprops m))
  end.

Definition face_property (m : SurfaceMesh) (name : string) : SurfaceMesh :=
  match fprops m !! name with
  | Some _ => m
  | None => with_fprops m (<[name := ∅]> (fprops m))
  end.

(** [prop[v] = n] write, through the attribute of that name. *)
Definition vwrite (m : SurfaceMesh) (name : string) (v : Vertex) (n : Normal) : SurfaceMesh :=
  with_vprops m (<[name := <[v := n]> (get_vertex_property m name)]> (vprops m)).

Definition fwrite (m : SurfaceMesh) (name : string) (f : Face) (n : Normal) : SurfaceMesh :=
  with_fprops m (<[name := <[f := n]> (get_face_property m name)]> (fprops m)).

(** ** The operations *)

Section SurfaceNormals.

(** [std::numeric_limits<Scalar>::min()], the smallest positive normalized
    value of the scalar type the library is built with. *)
Variable scalar_min : Scalar.

(** Modelled from the spec: [normalize] belongs to the vector primitives, which
    are not part of this file.  It scales a vector to unit length, and
    normalizing the zero vector yields the zero vector; the norm is compared
    with the same near-zero threshold that guards every other division. *)
Definition normalize (v : Point) : Point :=
  let n := norm v in
  let n := if Rgt_dec n scalar_min then 1 / n else 0 in
  v *v n.

(** The clamp of the cosine to [-1, 1]. *)
Definition clamp_cosine (cosine : Scalar) : Scalar :=
  if Rlt_dec cosine (-1) then -1
  else if Rgt_dec cosine 1 then 1
  else cosine.

(** *** compute_vertex_normal *)

(** The body of the loop from the cosine on (lines 48 to 62): what it does
    with the value [cosine] that the division has delivered. *)
Definition vertex_normal_weigh (p1 p2 : Point) (nn : Point) (cosine : Scalar)
    : Result Point :=
  let cosine := clamp_cosine cosine in
  angle <~ facos cosine ;;
  let n := cross p1 p2 in
  let denom := norm n in
  if Rgt_dec denom scalar_min then
    w <~ fdiv angle denom ;;
    let n := n *v w in
    Ret (nn +v n)
  else Ret nn.

(** One pass through the body of the loop, up to the rotation. *)
Definition vertex_normal_step (m : SurfaceMesh) (vpoint : VertexProperty)
    (p0 : Point) (h : Halfedge) (nn : Point) : Result Point :=
  if negb (is_boundary m h) then
    let p1 := vread vpoint (to_vertex m h) -v p0 in
    let p2 := vread vpoint (from_vertex m (prev_halfedge m h)) -v p0 in
    denom <~ fsqrt (dot p1 p1 * dot p2 p2) ;;
    if Rgt_dec denom scalar_min then
      cosine <~ fdiv (dot p1 p2) denom ;;
      vertex_normal_weigh p1 p2 nn cosine
    else Ret nn
  else Ret nn.

(** [do { ... h = mesh.cw_rotated_halfedge(h); } while (h != hend);] *)
Fixpoint vertex_normal_loop (fuel : nat) (m : SurfaceMesh) (vpoint : VertexProperty)
    (p0 : Point) (hend h : Halfedge) (nn : Point) : Result Point :=
  match fuel with
  | O => NoReturn
  | S fuel' =>
      nn <~ vertex_normal_step m vpoint p0 h nn ;;
      let h := cw_rotated_halfedge m h in
      if decide (h = hend) then Ret nn
      else vertex_normal_loop fuel' m vpoint p0 hend h nn
  end.

Definition compute_vertex_normal (fuel : nat) (m : SurfaceMesh) (v : Vertex)
    : Result Normal :=
  let nn := vzero in
  let h := halfedge m v in
  if is_valid h then
    let vpoint := get_vertex_property m "v:point" in
    let hend := h in
    let p0 := vread vpoint v in
    nn <~ vertex_normal_loop fuel m vpoint p0 hend h nn ;;
    Ret (normalize nn)
  else Ret nn.

(** *** compute_face_normal *)

(** The sliding window of the general-polygon branch. *)
Fixpoint face_normal_loop (fuel : nat) (m : SurfaceMesh) (vpoint : VertexProperty)
    (hend h : Halfedge) (p0 p1 p2 : Point) (n : Normal) : Result Normal :=
  match fuel with
  | O => NoReturn
  | S fuel' =>
      let n := n +v cross (p2 -v p1) (p0 -v p1) in
      let h := next_halfedge m h in
      let p0 := p1 in
      let p1 := p2 in
      let p2 := vread vpoint (to_vertex m h) in
      if decide (h = hend) then Ret n
      else face_normal_loop fuel' m vpoint hend h p0 p1 p2 n
  end.

Definition compute_face_normal (fuel : nat) (m : SurfaceMesh) (f : Face)
    : Result Normal :=
  let h := face_halfedge m f in
  let hend := h in
  let vpoint := get_vertex_property m "v:point" in
  let p0 := vread vpoint (to_vertex m h) in
  let h := next_halfedge m h in
  let p1 := vread vpoint (to_vertex m h) in
  let h := next_halfedge m h in
  let p2 := vread vpoint (to_vertex m h) in
  if decide (next_halfedge m h = hend) then
    Ret (normalize (cross (p2 -v p1) (p0 -v p1)))
  else
    let n := vzero in
    let hend := h in
    n <~ face_normal_loop fuel m vpoint hend h p0 p1 p2 n ;;
    Ret (normalize n).

(** *** compute_corner_normal *)

(** The body of the loop from the cosine on (lines 174 to 181): what it does
    with the value [cosine] that the division has delivered, for the unit
    normal [n] of an accepted corner. *)
Definition corner_normal_weigh (n nn : Point) (cosine : Scalar) : Result Point :=
  let cosine := clamp_cosine cosine in
  angle <~ facos cosine ;;
  let n := n *v angle in
  Ret (nn +v n).

(** One pass through the body of the loop, up to the rotation. *)
Definition corner_normal_step (m : SurfaceMesh) (vpoint : VertexProperty)
    (cos_crease_angle : Scalar) (p0 nf : Point) (h : Halfedge) (nn : Point)
    : Result Point :=
  if negb (is_boundary m h) then
    let p1 := vread vpoint (to_vertex m (next_halfedge m h)) -v p0 in
    let p2 := vread vpoint (from_vertex m h) -v p0 in
    let n := cross p1 p2 in
    let denom := norm n in
    if Rgt_dec denom scalar_min then
      n <~ vdiv n denom ;;
      if Rge_dec (dot n nf) cos_crease_angle then
        denom <~ fsqrt (dot p1 p1 * dot p2 p2) ;;
        if Rgt_dec denom scalar_min then
          cosine <~ fdiv (dot p1 p2) denom ;;
          corner_normal_weigh n nn cosine
        else Ret nn
      else Ret nn
    else Ret nn
  else Ret nn.

(** [do { ... h = mesh.opposite_halfedge(mesh.next_halfedge(h)); } while (h != hend);] *)
Fixpoint corner_normal_loop (fuel : nat) (m : SurfaceMesh) (vpoint : VertexProperty)
    (cos_crease_angle : Scalar) (p0 nf : Point) (hend h : Halfedge) (nn : Point)
    : Result Point :=
  match fuel with
  | O => NoReturn
  | S fuel' =>
      nn <~ corner_normal_step m vpoint cos_crease_angle p0 nf h nn ;;
      let h := opposite_halfedge m (next_halfedge m h) in
      if decide (h = hend) then Ret nn
      else corner_normal_loop fuel' m vpoint cos_crease_angle p0 nf hend h nn
  end.

Definition compute_corner_normal (fuel : nat) (m : SurfaceMesh) (h : Halfedge)
    (crease_angle : Scalar) : Result Normal :=
  if Rlt_dec crease_angle 0.01 then
    compute_face_normal fuel m (face m h)
  else if Rgt_dec crease_angle 179 then
    compute_vertex_normal fuel m (from_vertex m h)
  else
    let crease_angle := if Rlt_dec crease_angle 0.001 then 0.001 else crease_angle in
    let cos_crease_angle := cos crease_angle in
    let nn := vzero in
    if negb (is_boundary m h) then
      let vpoint := get_vertex_property m "v:point" in
      let hend := h in
      let v0 := to_vertex m h in
      let p0 := vread vpoint v0 in
      let p1 := vread vpoint (to_vertex m (next_halfedge m h)) -v p0 in
      let p2 := vread vpoint (from_vertex m h) -v p0 in
      let nf := normalize (cross p1 p2) in
      nn <~ corner_normal_loop fuel m vpoint cos_crease_angle p0 nf hend h nn ;;
      Ret (normalize nn)
    else Ret nn.

(** *** The batch drivers *)

(** [for (auto v : mesh.vertices()) vnormal[v] = compute_vertex_normal(mesh, v);]
    The attribute handle aliases the mesh's storage: every write is a write to
    the mesh that the next call reads. *)
Fixpoint vertex_normals_loop (fuel : nat) (m : SurfaceMesh) (vs : list Vertex)
    : Result SurfaceMesh :=
  match vs with
  | [] => Ret m
  | v :: vs' =>
      n <~ compute_vertex_normal fuel m v ;;
      vertex_normals_loop fuel (vwrite m "v:normal" v n) vs'
  end.

Definition compute_vertex_normals (fuel : nat) (m : SurfaceMesh) : Result SurfaceMesh :=
  let m := vertex_property m "v:normal" in
  vertex_normals_loop fuel m (vertices m).

Fixpoint face_normals_loop (fuel : nat) (m : SurfaceMesh) (fs : list Face)
    : Result SurfaceMesh :=
  match fs with
  | [] => Ret m
  | f :: fs' =>
      n <~ compute_face_normal fuel m f ;;
      face_normals_loop fuel (fwrite m "f:normal" f n) fs'
  end.

Definition compute_face_normals (fuel : nat) (m : SurfaceMesh) : Result SurfaceMesh :=
  let m := face_property m "f:normal" in
  face_normals_loop fuel m (faces m).

End SurfaceNormals.


(** ** Rings of halfedges *)

(** The rotation of the corner loop: the opposite of the next halfedge. *)
Definition corner_rotation (m : SurfaceMesh) (h : Halfedge) : Halfedge :=
  opposite_halfedge m (next_halfedge m h).

(** The halfedges that a [do ... while (h != hend)] loop rotating by [rot]
    visits from [h], in the order of the visits; [None] when the fuel runs
    out before the loop is back at [hend]. *)
Fixpoint ring_walk (fuel : nat) (rot : Halfedge -> Halfedge) (hend h : Halfedge)
    : option (list Halfedge) :=
  match fuel with
  | O => None
  | S fuel' =>
      let h' := rot h in
      if decide (h' = hend) then Some [h]
      else match ring_walk fuel' rot hend h' with
           | Some l => Some (h :: l)
           | None => None
           end
  end.

(** The first [k] halfedges of the orbit of [h]: [h], [rot h], [rot (rot h)], ... *)
Definition orbit (rot : Halfedge -> Halfedge) (h : Halfedge) (k : nat) : list Halfedge :=
  map (fun j => Nat.iter j rot h) (seq 0 k).

(** [k] rotations are one full turn: they lead back to [h], and fewer do not. *)
Definition full_turn (rot : Halfedge -> Halfedge) (h : Halfedge) (k : nat) : Prop :=
  (0 < k)%nat /\ Nat.iter k rot h = h /\
  forall j, (0 < j < k)%nat -> Nat.iter j rot h <> h.

Definition vsum (l : list Point) : Point := fold_right vadd vzero l.

(** The loop around [h] is back at [h] before the fuel runs out. *)
Definition closes (fuel : nat) (rot : Halfedge -> Halfedge) (h : Halfedge) : Prop :=
  is_Some (ring_walk fuel rot h h).

(** The loops of the three operations close within the fuel, where they are
    entered at all. *)
Definition vertex_ring_closes (fuel : nat) (m : SurfaceMesh) (v : Vertex) : Prop :=
  is_valid (halfedge m v) = true ->
  closes fuel (cw_rotated_halfedge m) (halfedge m v).

Definition face_ring_closes (fuel : nat) (m : SurfaceMesh) (f : Face) : Prop :=
  let h2 := next_halfedge m (next_halfedge m (face_halfedge m f)) in
  next_halfedge m h2 <> face_halfedge m f ->
  closes fuel (next_halfedge m) h2.

Definition corner_ring_closes (fuel : nat) (m : SurfaceMesh) (h : Halfedge) : Prop :=
  is_boundary m h = false ->
  closes fuel (corner_rotation m) h.

(** A face is a triangle when the third halfedge leads back to the first. *)
Definition is_triangle (m : SurfaceMesh) (f : Face) : Prop :=
  next_halfedge m (next_halfedge m (next_halfedge m (face_halfedge m f)))
  = face_halfedge m f.

(** A result is a well-defined normal: no operation left its domain, and what
    is returned is the zero vector or a vector of length one. *)
Definition zero_or_unit (r : Result Normal) : Prop :=
  match r with
  | Ret n => n = vzero \/ norm n = 1
  | NotANumber => False
  | NoReturn => True
  end.

(** ** The algorithms in the words of the specification *)

Section Specification.

Variable scalar_min : Scalar.

(** "clamp the cosine to [-1, 1]" *)
Definition spec_clamp (c : Scalar) : Scalar := Rmax (-1) (Rmin c 1).

(** "the angle between p1 and p2 via the clamped arccosine of their normalized
    dot product" *)
Definition spec_angle (p1 p2 : Point) : Scalar :=
  acos (spec_clamp (dot p1 p2 / sqrt (dot p1 p1 * dot p2 p2))).

(** The contribution of one corner with edge vectors [p1] and [p2]: nothing
    when the product of the edge lengths or the norm of the cross product is
    at or below the threshold, otherwise the cross product scaled by
    [angle / |n|]. *)
Definition spec_corner_contribution (p1 p2 : Point) : Point :=
  if Rle_dec (sqrt (dot p1 p1 * dot p2 p2)) scalar_min then vzero
  else if Rle_dec (norm (cross p1 p2)) scalar_min then vzero
  else cross p1 p2 *v (spec_angle p1 p2 / norm (cross p1 p2)).

(** The two edge vectors of the corner of an outgoing halfedge [h] of the
    vertex at [p0]. *)
Definition vertex_p1 (m : SurfaceMesh) (p0 : Point) (h : Halfedge) : Point :=
  vread (get_vertex_property m "v:point") (to_vertex m h) -v p0.

Definition vertex_p2 (m : SurfaceMesh) (p0 : Point) (h : Halfedge) : Point :=
  vread (get_vertex_property m "v:point") (from_vertex m (prev_halfedge m h)) -v p0.

(** What one halfedge of the ring adds to the vertex normal. *)
Definition spec_vertex_term (m : SurfaceMesh) (p0 : Point) (h : Halfedge) : Point :=
  if is_boundary m h then vzero
  else spec_corner_contribution (vertex_p1 m p0 h) (vertex_p2 m p0 h).


(** The two edge vectors of the corner of an incoming halfedge [h] of the
    vertex at [p0]. *)
Definition corner_p1 (m : SurfaceMesh) (p0 : Point) (h : Halfedge) : Point :=
  vread (get_vertex_property m "v:point") (to_vertex m (next_halfedge m h)) -v p0.

Definition corner_p2 (m : SurfaceMesh) (p0 : Point) (h : Halfedge) : Point :=
  vread (get_vertex_property m "v:point") (from_vertex m h) -v p0.

(** The anchor: the unit normal of the face of [h] at its corner. *)
Definition anchor_normal (m : SurfaceMesh) (h : Halfedge) : Normal :=
  let p0 := vread (get_vertex_property m "v:point") (to_vertex m h) in
  normalize scalar_min (cross (corner_p1 m p0 h) (corner_p2 m p0 h)).

(** A candidate corner is accepted when its unit normal is within the
    threshold of the anchor [nf]. *)
Definition spec_accepts (threshold : Scalar) (nf p1 p2 : Point) : Prop :=
  norm (cross p1 p2) > scalar_min /\
  dot (cross p1 p2 *v (/ norm (cross p1 p2))) nf >= threshold.

(** What one halfedge [g] of the ring adds to the corner normal: the
    contribution of its corner, as for the vertex normal, when it is not a
    boundary halfedge and its corner is accepted. *)
Definition spec_corner_term (m : SurfaceMesh) (threshold : Scalar) (p0 nf : Point)
    (g : Halfedge) : Point :=
  if is_boundary m g then vzero
  else if Rgt_dec (norm (cross (corner_p1 m p0 g) (corner_p2 m p0 g))) scalar_min then
    if Rge_dec (dot (cross (corner_p1 m p0 g) (corner_p2 m p0 g)
                       *v (/ norm (cross (corner_p1 m p0 g) (corner_p2 m p0 g)))) nf)
               threshold
    then spec_corner_contribution (corner_p1 m p0 g) (corner_p2 m p0 g)
    else vzero
  else vzero.


(** "the normalized cross product (C-B)x(A-B)" *)
Definition spec_triangle_normal (A B C : Point) : Normal :=
  normalize scalar_min (cross (C -v B) (A -v B)).

End Specification.

(** The position of the [j]-th vertex of the face of [h0], counted from the
    vertex that [h0] points to. *)
Definition face_point (m : SurfaceMesh) (h0 : Halfedge) (j : nat) : Point :=
  vread (get_vertex_property m "v:point")
        (to_vertex m (Nat.iter j (next_halfedge m) h0)).

(** "accumulate the sum of (p2 - p1) x (p0 - p1) while sliding a 3-vertex
    window around the entire face boundary" *)
Definition window_term (q : nat -> Point) (t : nat) : Point :=
  cross (q (t + 2)%nat -v q (t + 1)%nat) (q t -v q (t + 1)%nat).

Definition spec_newell_sum (q : nat -> Point) (N : nat) : Point :=
  vsum (map (window_term q) (seq 0 N)).


(** A polygon [q 0, ..., q (N-1)] (with [q N = q 0]) that lies in a plane with
    unit normal [nu] and is convex: seen from the side that [nu] points to, no
    vertex other than the two ends of an edge is to the right of that edge. *)
Definition planar_convex (q : nat -> Point) (N : nat) (nu : Point) : Prop :=
  dot nu nu = 1 /\
  (forall i, (i < N)%nat -> dot (q i -v q 0%nat) nu = 0) /\
  (forall i j, (i < N)%nat -> (j < N)%nat -> j <> i ->
     (S i < N -> j <> S i)%nat -> (S i = N -> j <> 0)%nat ->
     0 <= dot (cross (q (S i) -v q i) (q j -v q i)) nu).

(** The polygon is strictly convex: every vertex other than the two ends of
    an edge is strictly to the left of that edge, so that no three vertices
    are on a line and no two coincide. *)
Definition strictly_convex (q : nat -> Point) (N : nat) (nu : Point) : Prop :=
  forall i j, (i < N)%nat -> (j < N)%nat -> j <> i ->
    (S i < N -> j <> S i)%nat -> (S i = N -> j <> 0)%nat ->
    0 < dot (cross (q (S i) -v q i) (q j -v q i)) nu.


(** ** Example meshes *)

(** A mesh from connectivity tables, in the layout of the mesh container: the
    two halfedges of an edge are numbered [2e] and [2e+1]. *)
Section Tables.

Variables (vconn : list Halfedge) (fconn : list Halfedge).
Variables (hvertex : list Vertex) (hnext hprev : list Halfedge) (hface : list Face).
Variable points : list Point.

Definition tbl_halfedge (v : Vertex) : Halfedge :=
  match v with V i => nth i vconn NoHalfedge | NoVertex => NoHalfedge end.

Definition tbl_face_halfedge (f : Face) : Halfedge :=
  match f with F i => nth i fconn NoHalfedge | NoFace => NoHalfedge end.

Definition tbl_to_vertex (h : Halfedge) : Vertex :=
  match h with H i => nth i hvertex NoVertex | NoHalfedge => NoVertex end.

Definition tbl_next (h : Halfedge) : Halfedge :=
  match h with H i => nth i hnext NoHalfedge | NoHalfedge => NoHalfedge end.

Definition tbl_prev (h : Halfedge) : Halfedge :=
  match h with H i => nth i hprev NoHalfedge | NoHalfedge => NoHalfedge end.

Definition tbl_opposite (h : Halfedge) : Halfedge :=
  match h with
  | H i => if Nat.even i then H (S i) else H (Nat.pred i)
  | NoHalfedge => NoHalfedge
  end.

Definition tbl_face (h : Halfedge) : Face :=
  match h with H i => nth i hface NoFace | NoHalfedge => NoFace end.

Definition tbl_points : VertexProperty :=
  list_to_map (zip (map V (seq 0 (length points))) points).

Definition mesh_of_tables : SurfaceMesh :=
  mkMesh (map V (seq 0 (length vconn))) (map F (seq 0 (length fconn)))
         tbl_halfedge tbl_face_halfedge tbl_to_vertex
         (fun h => tbl_to_vertex (tbl_opposite h))
         tbl_next tbl_prev tbl_opposite
         (fun h => tbl_next (tbl_opposite h))
         tbl_face
         (fun h => negb (face_is_valid (tbl_face h)))
         {[ "v:point" := tbl_points ]} ∅.

End Tables.

(** The unit cube: vertex [i] is at the bits of [i], the six faces are
    quadrilaterals, counter-clockwise seen from outside. *)
Definition cube_points : list Point :=
  [ mkPoint 0 0 0; mkPoint 1 0 0; mkPoint 0 1 0; mkPoint 1 1 0;
    mkPoint 0 0 1; mkPoint 1 0 1; mkPoint 0 1 1; mkPoint 1 1 1 ].

Definition cube : SurfaceMesh :=
  mesh_of_tables
    [H 0; H 5; H 1; H 3; H 8; H 9; H 13; H 11]
    [H 0; H 8; H 7; H 20; H 19; H 5]
    [V 2; V 0; V 3; V 2; V 1; V 3; V 0; V 1; V 5; V 4; V 7; V 5;
     V 6; V 7; V 4; V 6; V 5; V 1; V 0; V 4; V 6; V 2; V 3; V 7]
    [H 2; H 19; H 4; H 20; H 6; H 23; H 0; H 16; H 10; H 18; H 12; H 17;
     H 14; H 22; H 8; H 21; H 9; H 5; H 7; H 15; H 13; H 1; H 3; H 11]
    [H 6; H 21; H 0; H 22; H 2; H 17; H 4; H 18; H 14; H 16; H 8; H 23;
     H 10; H 20; H 12; H 19; H 7; H 11; H 9; H 1; H 3; H 15; H 13; H 5]
    [F 0; F 4; F 0; F 3; F 0; F 5; F 0; F 2; F 1; F 2; F 1; F 5;
     F 1; F 3; F 1; F 4; F 2; F 5; F 2; F 4; F 3; F 4; F 3; F 5]
    cube_points.

(** One triangle with its three boundary halfedges, and an isolated vertex
    [V 3].  The corner at [V 1] is a right angle with legs of length one. *)
Definition triangle_points : list Point :=
  [ mkPoint 0 0 0; mkPoint 1 0 0; mkPoint 1 1 0; mkPoint 5 5 5 ].

Definition triangle : SurfaceMesh :=
  mesh_of_tables
    [H 5; H 1; H 3; NoHalfedge]
    [H 0]
    [V 1; V 0; V 2; V 1; V 0; V 2]
    [H 2; H 5; H 4; H 1; H 0; H 3]
    [H 4; H 3; H 0; H 5; H 2; H 1]
    [F 0; NoFace; F 0; NoFace; F 0; NoFace]
    triangle_points.

(** The smallest positive normalized single-precision value. *)
Definition FLT_MIN : Scalar := / 2 ^ 126.

(** ** Meshes with the same geometry *)

(** Two meshes have the same connectivity, the same elements and the same
    vertex positions; their other attributes may differ. *)
Definition same_geometry (m1 m2 : SurfaceMesh) : Prop :=
  vertices m1 = vertices m2 /\ faces m1 = faces m2 /\
  halfedge m1 = halfedge m2 /\ face_halfedge m1 = face_halfedge m2 /\
  to_vertex m1 = to_vertex m2 /\ from_vertex m1 = from_vertex m2 /\
  next_halfedge m1 = next_halfedge m2 /\ prev_halfedge m1 = prev_halfedge m2 /\
  opposite_halfedge m1 = opposite_halfedge m2 /\
  cw_rotated_halfedge m1 = cw_rotated_halfedge m2 /\
  face m1 = face m2 /\ is_boundary m1 = is_boundary m2 /\
  vprops m1 !! "v:point" = vprops m2 !! "v:point".

(** The stored normal of an element, when the attribute has one. *)
Definition stored_vertex_normal (m : SurfaceMesh) (v : Vertex) : option Normal :=
  get_vertex_property m "v:normal" !! v.

Definition stored_face_normal (m : SurfaceMesh) (f : Face) : option Normal :=
  get_face_property m "f:normal" !! f.

(** The halfedges, the outward face normals and the vertex normals of the
    cube. *)
Definition cube_halfedges : list Halfedge := map H (seq 0 24).

Definition cube_face_normal (f : Face) : Normal :=
  match f with
  | F 0 => mkPoint 0 0 (-1)
  | F 1 => mkPoint 0 0 1
  | F 2 => mkPoint 0 (-1) 0
  | F 3 => mkPoint 0 1 0
  | F 4 => mkPoint (-1) 0 0
  | F 5 => mkPoint 1 0 0
  | _ => vzero
  end.

Definition cube_vertex_normal (v : Vertex) : Normal :=
  (vread (get_vertex_property cube "v:point") v *v 2 -v mkPoint 1 1 1) *v (/ sqrt 3).

(** ** Well-formed connectivity *)

(** [h] is one of the [n] halfedges [H 0], ..., [H (n-1)]. *)
Definition in_range (n : nat) (h : Halfedge) : Prop :=
  match h with
  | H i => (i < n)%nat
  | NoHalfedge => False
  end.

(** [rot] maps the [n] halfedges to the [n] halfedges, one to one. *)
Definition permutes (n : nat) (rot : Halfedge -> Halfedge) : Prop :=
  (forall h, in_range n h -> in_range n (rot h)) /\
  (forall h g, in_range n h -> in_range n g -> rot h = rot g -> h = g).

(** The connectivity of a mesh with [n] halfedges: going to the next halfedge
    of a face and rotating around a vertex, either way, permute the
    halfedges, and the halfedges that the vertices and faces of the mesh refer
    to are halfedges of the mesh. *)
Definition well_formed (m : SurfaceMesh) (n : nat) : Prop :=
  permutes n (next_halfedge m) /\
  permutes n (cw_rotated_halfedge m) /\
  permutes n (corner_rotation m) /\
  (forall v, In v (vertices m) -> is_valid (halfedge m v) = true ->
     in_range n (halfedge m v)) /\
  (forall f, In f (faces m) -> in_range n (face_halfedge m f)).
(** * Further properties of the operations

    Definitions for the properties of the operations that go beyond those
    above: rigid motions, the start of a loop, flat and creased
    neighbourhoods, the batch drivers as a whole. *)

(** ** Rigid motions of a mesh *)

(** A rotation of space: a linear map that keeps the dot product and turns
    cross products into cross products (so it keeps the orientation). *)
Record rotation (L : Point -> Point) : Prop := mkRotation {
  rotation_add : forall a b, L (a +v b) = L a +v L b;
  rotation_scale : forall a s, L (a *v s) = L a *v s;
  rotation_dot : forall a b, dot (L a) (L b) = dot a b;
  rotation_cross : forall a b, cross (L a) (L b) = L (cross a b)
}.

(** Two meshes with the same elements and the same connectivity; their
    attributes, the vertex positions among them, may differ. *)
Definition same_connectivity (m1 m2 : SurfaceMesh) : Prop :=
  vertices m1 = vertices m2 /\ faces m1 = faces m2 /\
  halfedge m1 = halfedge m2 /\ face_halfedge m1 = face_halfedge m2 /\
  to_vertex m1 = to_vertex m2 /\ from_vertex m1 = from_vertex m2 /\
  next_halfedge m1 = next_halfedge m2 /\ prev_halfedge m1 = prev_halfedge m2 /\
  opposite_halfedge m1 = opposite_halfedge m2 /\
  cw_rotated_halfedge m1 = cw_rotated_halfedge m2 /\
  face m1 = face m2 /\ is_boundary m1 = is_boundary m2.

(** [vpoint[v]], the position of a vertex. *)
Definition position (m : SurfaceMesh) (v : Vertex) : Point :=
  vread (get_vertex_property m "v:point") v.

(** The vertices whose positions [compute_vertex_normal] can read at [v]: [v]
    and, for every halfedge [g] that the loop reaches, the vertex [g] points
    to and the vertex its previous halfedge comes from. *)
Definition vertex_reads (m : SurfaceMesh) (v : Vertex) (u : Vertex) : Prop :=
  u = v \/
  exists j, let g := Nat.iter j (cw_rotated_halfedge m) (halfedge m v) in
            u = to_vertex m g \/ u = from_vertex m (prev_halfedge m g).

(** The vertices whose positions [compute_face_normal] can read at [f]: the
    vertices that the halfedges of the face point to. *)
Definition face_reads (m : SurfaceMesh) (f : Face) (u : Vertex) : Prop :=
  exists j, u = to_vertex m (Nat.iter j (next_halfedge m) (face_halfedge m f)).

(** The vertices whose positions the loop of [compute_corner_normal] can read
    at [h]: the vertex [h] points to and, for every halfedge [g] that the
    loop reaches, the two other ends of its corner. *)
Definition corner_reads (m : SurfaceMesh) (h : Halfedge) (u : Vertex) : Prop :=
  u = to_vertex m h \/
  exists j, let g := Nat.iter j (corner_rotation m) h in
            u = to_vertex m (next_halfedge m g) \/ u = from_vertex m g.

(** The vertices whose positions [compute_corner_normal] can read, by the
    case that the crease angle selects. *)
Definition corner_normal_reads (m : SurfaceMesh) (h : Halfedge) (crease_angle : Scalar)
    (u : Vertex) : Prop :=
  if Rlt_dec crease_angle 0.01 then face_reads m (face m h) u
  else if Rgt_dec crease_angle 179 then vertex_reads m (from_vertex m h) u
  else corner_reads m h u.

(** [m'] is [m] with the positions of the vertices in [reads] rotated by [L]
    and then translated by [t]; the other positions are arbitrary. *)
Definition moved_on (reads : Vertex -> Prop) (L : Point -> Point) (t : Point)
    (m m' : SurfaceMesh) : Prop :=
  same_connectivity m m' /\
  forall u, reads u -> position m' u = L (position m u) +v t.

(** The outcome of a computation with [L] applied to the normal it returns. *)
Definition map_result (L : Point -> Point) (r : Result Normal) : Result Normal :=
  match r with
  | Ret n => Ret (L n)
  | NotANumber => NotANumber
  | NoReturn => NoReturn
  end.

(** The rotation by a quarter turn about the z axis, and the cube after this
    rotation and a translation. *)
Definition quarter_turn (p : Point) : Point := mkPoint (- py p) (px p) (pz p).

Definition moved_cube : SurfaceMesh :=
  with_vprops cube
    {[ "v:point" := tbl_points (map (fun p => quarter_turn p +v mkPoint 1 2 3) cube_points) ]}.

(** ** The halfedge that a vertex or a face refers to *)

(** The mesh [m], except that the vertex [v] refers to the outgoing halfedge
    [h]. *)
Definition with_halfedge (m : SurfaceMesh) (v : Vertex) (h : Halfedge) : SurfaceMesh :=
  mkMesh (vertices m) (faces m)
         (fun u => if decide (u = v) then h else halfedge m u)
         (face_halfedge m) (to_vertex m) (from_vertex m) (next_halfedge m)
         (prev_halfedge m) (opposite_halfedge m) (cw_rotated_halfedge m) (face m)
         (is_boundary m) (vprops m) (fprops m).

(** The mesh [m], except that the face [f] refers to the halfedge [h]. *)
Definition with_face_halfedge (m : SurfaceMesh) (f : Face) (h : Halfedge) : SurfaceMesh :=
  mkMesh (vertices m) (faces m) (halfedge m)
         (fun g => if decide (g = f) then h else face_halfedge m g)
         (to_vertex m) (from_vertex m) (next_halfedge m)
         (prev_halfedge m) (opposite_halfedge m) (cw_rotated_halfedge m) (face m)
         (is_boundary m) (vprops m) (fprops m).

(** ** The ring of a corner and the ring of its vertex *)

(** At every halfedge [g] of the ring of the corner of [h], the connectivity
    is that of a halfedge mesh: the previous halfedge of the next one is [g],
    both belong to the same face or to the boundary, and rotating clockwise
    is going to the next halfedge of the opposite one. *)
Definition ring_consistent (m : SurfaceMesh) (h : Halfedge) : Prop :=
  forall j, let g := Nat.iter j (corner_rotation m) h in
    prev_halfedge m (next_halfedge m g) = g /\
    is_boundary m (next_halfedge m g) = is_boundary m g /\
    cw_rotated_halfedge m (next_halfedge m g)
    = next_halfedge m (opposite_halfedge m (next_halfedge m g)).

(** No corner of the ring of [h] is rejected by the test against the anchor:
    every corner with a normal is accepted. *)
Definition ring_within_crease (scalar_min : Scalar) (m : SurfaceMesh) (h : Halfedge)
    (threshold : Scalar) : Prop :=
  forall j, let g := Nat.iter j (corner_rotation m) h in
    let p0 := position m (to_vertex m h) in
    is_boundary m g = false ->
    norm (cross (corner_p1 m p0 g) (corner_p2 m p0 g)) > scalar_min ->
    spec_accepts scalar_min threshold (anchor_normal scalar_min m h)
                 (corner_p1 m p0 g) (corner_p2 m p0 g).

(** Every other corner of the ring of [h] that has a normal is rejected by
    the test against the anchor. *)
Definition ring_outside_crease (scalar_min : Scalar) (m : SurfaceMesh) (h : Halfedge)
    (threshold : Scalar) : Prop :=
  forall j, let g := Nat.iter j (corner_rotation m) h in
    let p0 := position m (to_vertex m h) in
    g <> h -> is_boundary m g = false ->
    norm (cross (corner_p1 m p0 g) (corner_p2 m p0 g)) > scalar_min ->
    dot (cross (corner_p1 m p0 g) (corner_p2 m p0 g)
           *v (/ norm (cross (corner_p1 m p0 g) (corner_p2 m p0 g))))
        (anchor_normal scalar_min m h) < threshold.

(** ** Flat neighbourhoods *)

(** A corner that the loops count: the product of the lengths of its edge
    vectors, the norm of their cross product and its angle are above the
    near-zero threshold. *)
Definition counted_corner (scalar_min : Scalar) (p1 p2 : Point) : Prop :=
  sqrt (dot p1 p1 * dot p2 p2) > scalar_min /\
  norm (cross p1 p2) > scalar_min /\
  spec_angle p1 p2 > scalar_min.

(** Two edge vectors in the plane with unit normal [nu], the second one
    counter-clockwise of the first or on its line, seen from the side that
    [nu] points to. *)
Definition flat_corner (nu p1 p2 : Point) : Prop :=
  dot p1 nu = 0 /\ dot p2 nu = 0 /\ 0 <= dot (cross p1 p2) nu.

(** The faces around [v] lie in one plane with unit normal [nu], and are
    counter-clockwise seen from the side that [nu] points to. *)
Definition flat_vertex_ring (m : SurfaceMesh) (v : Vertex) (nu : Point) : Prop :=
  dot nu nu = 1 /\
  forall j, let g := Nat.iter j (cw_rotated_halfedge m) (halfedge m v) in
    is_boundary m g = false ->
    flat_corner nu (vertex_p1 m (position m v) g) (vertex_p2 m (position m v) g).

(** The same for the ring that the corner loop walks from [h]. *)
Definition flat_corner_ring (m : SurfaceMesh) (h : Halfedge) (nu : Point) : Prop :=
  dot nu nu = 1 /\
  forall j, let g := Nat.iter j (corner_rotation m) h in
    is_boundary m g = false ->
    flat_corner nu (corner_p1 m (position m (to_vertex m h)) g)
                   (corner_p2 m (position m (to_vertex m h)) g).

(** ** The batch drivers as one computation and one store *)

(** The normals of the listed elements, each computed on the mesh [m]; the
    first computation that does not return ends the list. *)
Fixpoint vertex_normals_of (scalar_min : Scalar) (fuel : nat) (m : SurfaceMesh)
    (vs : list Vertex) : Result (list (Vertex * Normal)) :=
  match vs with
  | [] => Ret []
  | v :: vs' =>
      n <~ compute_vertex_normal scalar_min fuel m v ;;
      r <~ vertex_normals_of scalar_min fuel m vs' ;;
      Ret ((v, n) :: r)
  end.

Fixpoint face_normals_of (scalar_min : Scalar) (fuel : nat) (m : SurfaceMesh)
    (fs : list Face) : Result (list (Face * Normal)) :=
  match fs with
  | [] => Ret []
  | f :: fs' =>
      n <~ compute_face_normal scalar_min fuel m f ;;
      r <~ face_normals_of scalar_min fuel m fs' ;;
      Ret ((f, n) :: r)
  end.

(** The attribute [p] after the writes of [l], in the order of the list. *)
Definition write_all {K : Type} `{Countable K} (p : gmap K Point) (l : list (K * Point))
    : gmap K Point :=
  fold_left (fun p kn => <[kn.1 := kn.2]> p) l p.

(** The mesh with the normals [r] written to its attribute. *)
Definition store_vertex_normals (m : SurfaceMesh) (r : list (Vertex * Normal))
    : SurfaceMesh :=
  with_vprops m
    (<["v:normal" := write_all (get_vertex_property m "v:normal") r]> (vprops m)).

Definition store_face_normals (m : SurfaceMesh) (r : list (Face * Normal))
    : SurfaceMesh :=
  with_fprops m
    (<["f:normal" := write_all (get_face_property m "f:normal") r]> (fprops m)).

(** ** A degenerate face *)

(** The triangle with its three vertices moved onto one line. *)
Definition collinear_triangle : SurfaceMesh :=
  with_vprops triangle
    {[ "v:point" := tbl_points [ mkPoint 0 0 0; mkPoint 1 0 0; mkPoint 3 0 0;
                                 mkPoint 5 5 5 ] ]}.

(** ** Connectivity on which a loop does not come back *)

(** A corrupt connectivity: rotating clockwise from [H 0], the halfedge of
    the vertex [V 0], leads to [H 2] and stays there. *)
Definition stuck : SurfaceMesh :=
  mesh_of_tables
    [H 0; H 1]
    [H 0]
    [V 1; V 0; V 1; V 0]
    [H 0; H 2; H 0; H 2]
    [H 0; H 2; H 0; H 2]
    [F 0; F 0; F 0; F 0]
    [mkPoint 0 0 0; mkPoint 1 0 0].

(** ** The order of the elements *)

(** The mesh [m] with its vertices, or its faces, enumerated as the list
    says. *)
Definition with_vertices (m : SurfaceMesh) (vs : list Vertex) : SurfaceMesh :=
  mkMesh vs (faces m) (halfedge m) (face_halfedge m) (to_vertex m)
         (from_vertex m) (next_halfedge m) (prev_halfedge m) (opposite_halfedge m)
         (cw_rotated_halfedge m) (face m) (is_boundary m) (vprops m) (fprops m).

Definition with_faces (m : SurfaceMesh) (fs : list Face) : SurfaceMesh :=
  mkMesh (vertices m) fs (halfedge m) (face_halfedge m) (to_vertex m)
         (from_vertex m) (next_halfedge m) (prev_halfedge m) (opposite_halfedge m)
         (cw_rotated_halfedge m) (face m) (is_boundary m) (vprops m) (fprops m).

(** Two lists of computed normals fill an attribute in the same way, or
    neither computation returned. *)
Definition same_writes {K : Type} `{Countable K}
    (a b : Result (list (K * Normal))) : Prop :=
  match a, b with
  | Ret r, Ret r' => forall p, write_all p r = write_all p r'
  | NoReturn, NoReturn => True
  | _, _ => False
  end.

(** ** A face read backwards *)

(** The cube with the positions of [V 0] and [V 3] exchanged: its bottom face
    reads the positions of the bottom face of the cube in the reversed
    order. *)
Definition mirrored_cube : SurfaceMesh :=
  with_vprops cube
    {[ "v:point" :=
         tbl_points [ mkPoint 1 1 0; mkPoint 1 0 0; mkPoint 0 1 0; mkPoint 0 0 0;
                      mkPoint 0 0 1; mkPoint 1 0 1; mkPoint 0 1 1; mkPoint 1 1 1 ] ]}.

(** ** Vector algebra *)

Lemma Point_eq (a b : Point) :
  px a = px b -> py a = py b -> pz a = pz b -> a = b.
Proof. destruct a, b; simpl; intros -> -> ->; reflexivity. Qed.

Ltac vec_simpl :=
  unfold vadd, vsub, vopp, vscale, cross, dot, vzero in *; simpl in *.

Ltac vec_ring := intros; apply Point_eq; vec_simpl; ring.

Lemma vadd_comm (a b : Point) : a +v b = b +v a.
Proof. vec_ring. Qed.

Lemma vadd_assoc (a b c : Point) : a +v b +v c = a +v (b +v c).
Proof. vec_ring. Qed.

Lemma vadd_zero_l (a : Point) : vzero +v a = a.
Proof. vec_ring. Qed.

Lemma vadd_zero_r (a : Point) : a +v vzero = a.
Proof. vec_ring. Qed.

Lemma vscale_zero (a : Point) : a *v 0 = vzero.
Proof. vec_ring. Qed.

Lemma vscale_one (a : Point) : a *v 1 = a.
Proof. vec_ring. Qed.

Lemma vscale_vscale (a : Point) (s t : Scalar) : a *v s *v t = a *v (s * t).
Proof. vec_ring. Qed.

Lemma vscale_vadd (a b : Point) (s : Scalar) : (a +v b) *v s = a *v s +v b *v s.
Proof. vec_ring. Qed.

Lemma vscale_plus (a : Point) (s t : Scalar) : a *v (s + t) = a *v s +v a *v t.
Proof. vec_ring. Qed.

Lemma vscale_vopp (a : Point) (s : Scalar) : vopp a *v s = vopp (a *v s).
Proof. vec_ring. Qed.

Lemma cross_anticomm (a b : Point) : cross a b = vopp (cross b a).
Proof. vec_ring. Qed.

Lemma dot_comm (a b : Point) : dot a b = dot b a.
Proof. vec_simpl; ring. Qed.

Lemma dot_self_nonneg (a : Point) : 0 <= dot a a.
Proof. vec_simpl; nra. Qed.

Lemma dot_vscale (a : Point) (s : Scalar) : dot (a *v s) (a *v s) = s * s * dot a a.
Proof. vec_simpl; ring. Qed.

Lemma dot_vopp (a : Point) : dot (vopp a) (vopp a) = dot a a.
Proof. vec_simpl; ring. Qed.

Lemma norm_nonneg (a : Point) : 0 <= norm a.
Proof. apply sqrt_pos. Qed.

Lemma norm_vzero : norm vzero = 0.
Proof.
  unfold norm. replace (dot vzero vzero) with 0 by (vec_simpl; ring).
  apply sqrt_0.
Qed.

Lemma norm_vopp (a : Point) : norm (vopp a) = norm a.
Proof. unfold norm. rewrite dot_vopp. reflexivity. Qed.

Lemma norm_vscale (a : Point) (s : Scalar) : 0 <= s -> norm (a *v s) = s * norm a.
Proof.
  intros Hs. unfold norm. rewrite dot_vscale.
  rewrite sqrt_mult by (try apply dot_self_nonneg; nra).
  rewrite sqrt_square by assumption. reflexivity.
Qed.

Lemma norm_unit_dot (a : Point) : dot a a = 1 -> norm a = 1.
Proof. intros H. unfold norm. rewrite H. apply sqrt_1. Qed.

(** ** The checked operations inside their domain *)

Lemma fdiv_Ret (a b : Scalar) : b <> 0 -> fdiv a b = Ret (a / b).
Proof. intros Hb. unfold fdiv. destruct (Req_dec_T b 0); [contradiction | reflexivity]. Qed.

Lemma fsqrt_Ret (a : Scalar) : 0 <= a -> fsqrt a = Ret (sqrt a).
Proof. intros Ha. unfold fsqrt. destruct (Rlt_dec a 0); [lra | reflexivity]. Qed.

Lemma facos_Ret (a : Scalar) : -1 <= a <= 1 -> facos a = Ret (acos a).
Proof.
  intros Ha. unfold facos.
  destruct (Rlt_dec a (-1)); [lra |].
  destruct (Rgt_dec a 1); [lra | reflexivity].
Qed.

Lemma vdiv_Ret (a : Point) (s : Scalar) : s <> 0 -> vdiv a s = Ret (a *v (/ s)).
Proof.
  intros Hs. unfold vdiv. rewrite !fdiv_Ret by assumption. simpl.
  reflexivity.
Qed.

Lemma clamp_cosine_bounds (c : Scalar) : -1 <= clamp_cosine c <= 1.
Proof.
  unfold clamp_cosine.
  destruct (Rlt_dec c (-1)); [lra |].
  destruct (Rgt_dec c 1); lra.
Qed.

Lemma clamp_cosine_spec (c : Scalar) : clamp_cosine c = spec_clamp c.
Proof.
  unfold clamp_cosine, spec_clamp, Rmax, Rmin.
  destruct (Rlt_dec c (-1)); destruct (Rle_dec c 1);
    try destruct (Rgt_dec c 1); try destruct (Rle_dec (-1) c);
    try destruct (Rle_dec (-1) 1); lra.
Qed.

Lemma Ret_inj {A : Type} (a b : A) : Ret a = Ret b -> a = b.
Proof. intros Heq. injection Heq as Heq. exact Heq. Qed.

Lemma bind_Ret {A B : Type} (a : A) (k : A -> Result B) : bind (Ret a) k = k a.
Proof. reflexivity. Qed.

(** ** Rings *)

Lemma ring_walk_orbit_from (rot : Halfedge -> Halfedge) (h : Halfedge) (k : nat) :
  full_turn rot h k ->
  forall fuel i, (i < k)%nat -> (k - i <= fuel)%nat ->
  ring_walk fuel rot h (Nat.iter i rot h)
  = Some (map (fun j => Nat.iter j rot h) (seq i (k - i))).
Proof.
  intros (Hk & Hback & Hfirst). induction fuel as [|fuel IH]; intros i Hi Hfuel.
  - lia.
  - simpl. change (rot (Nat.iter i rot h)) with (Nat.iter (S i) rot h).
    destruct (decide (Nat.iter (S i) rot h = h)) as [Heq|Hne].
    + destruct (Nat.eq_dec (S i) k) as [HSi|HSi].
      * replace (k - i)%nat with 1%nat by lia. reflexivity.
      * exfalso. apply (Hfirst (S i)); [lia | exact Heq].
    + assert (S i < k)%nat as HSi.
      { destruct (Nat.eq_dec (S i) k) as [E|E]; [|lia].
        exfalso. apply Hne. rewrite E. exact Hback. }
      rewrite (IH (S i)) by lia.
      replace (k - i)%nat with (S (k - S i)) by lia. reflexivity.
Qed.

Lemma ring_walk_full_turn (rot : Halfedge -> Halfedge) (h : Halfedge) (k fuel : nat) :
  full_turn rot h k -> (k <= fuel)%nat ->
  ring_walk fuel rot h h = Some (orbit rot h k).
Proof.
  intros Hturn Hfuel.
  pose proof (ring_walk_orbit_from rot h k Hturn fuel 0%nat) as Hw.
  destruct Hturn as (Hk & _). simpl in Hw.
  rewrite Nat.sub_0_r in Hw. apply Hw; lia.
Qed.

Lemma orbit_length (rot : Halfedge -> Halfedge) (h : Halfedge) (k : nat) :
  length (orbit rot h k) = k.
Proof. unfold orbit. rewrite length_map, length_seq. reflexivity. Qed.

(** A walk that comes back went around a full turn. *)
Lemma ring_walk_sound_from (rot : Halfedge -> Halfedge) (hend : Halfedge) :
  forall fuel h l, ring_walk fuel rot hend h = Some l ->
  (0 < length l <= fuel)%nat /\
  l = map (fun j => Nat.iter j rot h) (seq 0 (length l)) /\
  Nat.iter (length l) rot h = hend /\
  forall j, (0 < j < length l)%nat -> Nat.iter j rot h <> hend.
Proof.
  induction fuel as [|fuel IH]; intros h l Hw; [discriminate|].
  simpl in Hw. destruct (decide (rot h = hend)) as [Heq|Hne].
  - injection Hw as <-. simpl. repeat split; try lia; try assumption.
  - destruct (ring_walk fuel rot hend (rot h)) as [l'|] eqn:Hrec; [|discriminate].
    injection Hw as <-. destruct (IH _ _ Hrec) as (Hlen & Hl & Hback & Hfirst).
    simpl. repeat split; try lia.
    + f_equal. rewrite Hl at 1. rewrite <- seq_shift, map_map.
      apply map_ext. intros j. symmetry. apply Nat.iter_succ_r.
    + rewrite <- Hback. exact (Nat.iter_succ_r (length l') rot h).
    + intros j Hj. destruct j as [|j]; [lia|].
      destruct (Nat.eq_dec j 0%nat) as [->|Hj0]; [exact Hne|].
      rewrite Nat.iter_succ_r. apply Hfirst. lia.
Qed.

Lemma ring_walk_sound (rot : Halfedge -> Halfedge) (h : Halfedge) (fuel : nat)
    (l : list Halfedge) :
  ring_walk fuel rot h h = Some l ->
  full_turn rot h (length l) /\ l = orbit rot h (length l) /\ (length l <= fuel)%nat.
Proof.
  intros Hw. destruct (ring_walk_sound_from rot h fuel h l Hw) as (Hlen & Hl & Hback & Hfirst).
  repeat split; try assumption; lia.
Qed.


(** ** The loops as sums over the ring *)

Section Loops.

Variable scalar_min : Scalar.

Lemma vsum_app (l1 l2 : list Point) : vsum (l1 ++ l2) = vsum l1 +v vsum l2.
Proof.
  induction l1 as [|a l1 IH]; simpl.
  - symmetry. apply vadd_zero_l.
  - rewrite IH. symmetry. apply vadd_assoc.
Qed.

Lemma sqrt_lengths_nonneg (p1 p2 : Point) : 0 <= dot p1 p1 * dot p2 p2.
Proof. apply Rmult_le_pos; apply dot_self_nonneg. Qed.





(** Under its guards the body of the vertex loop divides by nothing that is
    zero, and adds the contribution of the corner. *)
Lemma vertex_normal_step_spec (m : SurfaceMesh) (p0 : Point) (h : Halfedge) (nn : Point) :
  0 <= scalar_min ->
  vertex_normal_step scalar_min m (get_vertex_property m "v:point") p0 h nn
  = Ret (nn +v spec_vertex_term scalar_min m p0 h).
Proof.
  intros Hmin.
  unfold vertex_normal_step, vertex_normal_weigh, spec_vertex_term, spec_corner_contribution.
  fold (vertex_p1 m p0 h). fold (vertex_p2 m p0 h).
  set (p1 := vertex_p1 m p0 h). set (p2 := vertex_p2 m p0 h).
  destruct (is_boundary m h); simpl; [rewrite vadd_zero_r; reflexivity|].
  rewrite fsqrt_Ret by apply sqrt_lengths_nonneg. rewrite bind_Ret.
  destruct (Rgt_dec (sqrt (dot p1 p1 * dot p2 p2)) scalar_min) as [Hd|Hd].
  - destruct (Rle_dec (sqrt (dot p1 p1 * dot p2 p2)) scalar_min) as [Hd'|_]; [lra|].
    rewrite fdiv_Ret by lra. rewrite bind_Ret.
    rewrite facos_Ret by apply clamp_cosine_bounds. rewrite bind_Ret.
    destruct (Rgt_dec (norm (cross p1 p2)) scalar_min) as [Hn|Hn].
    + destruct (Rle_dec (norm (cross p1 p2)) scalar_min) as [Hn'|_]; [lra|].
      rewrite fdiv_Ret by lra. rewrite bind_Ret.
      unfold spec_angle. rewrite clamp_cosine_spec. reflexivity.
    + destruct (Rle_dec (norm (cross p1 p2)) scalar_min) as [_|Hn']; [|lra].
      rewrite vadd_zero_r. reflexivity.
  - destruct (Rle_dec (sqrt (dot p1 p1 * dot p2 p2)) scalar_min) as [_|Hd']; [|lra].
    rewrite vadd_zero_r. reflexivity.
Qed.

Lemma vertex_normal_loop_spec (m : SurfaceMesh) (p0 : Point) (hend : Halfedge) :
  0 <= scalar_min ->
  forall fuel h nn,
  vertex_normal_loop scalar_min fuel m (get_vertex_property m "v:point") p0 hend h nn
  = match ring_walk fuel (cw_rotated_halfedge m) hend h with
    | Some l => Ret (nn +v vsum (map (spec_vertex_term scalar_min m p0) l))
    | None => NoReturn
    end.
Proof.
  intros Hmin. induction fuel as [|fuel IH]; intros h nn; [reflexivity|].
  simpl. rewrite vertex_normal_step_spec by assumption. rewrite bind_Ret.
  destruct (decide (cw_rotated_halfedge m h = hend)) as [Heq|Hne].
  - simpl. rewrite vadd_zero_r. reflexivity.
  - rewrite IH. destruct (ring_walk fuel (cw_rotated_halfedge m) hend (cw_rotated_halfedge m h));
      [|reflexivity].
    simpl. rewrite vadd_assoc. reflexivity.
Qed.

(** The same for the body of the corner loop. *)
Lemma corner_normal_step_spec (m : SurfaceMesh) (threshold : Scalar) (p0 nf : Point)
    (h : Halfedge) (nn : Point) :
  0 <= scalar_min ->
  corner_normal_step scalar_min m (get_vertex_property m "v:point") threshold p0 nf h nn
  = Ret (nn +v spec_corner_term scalar_min m threshold p0 nf h).
Proof.
  intros Hmin.
  unfold corner_normal_step, corner_normal_weigh, spec_corner_term, spec_corner_contribution.
  fold (corner_p1 m p0 h). fold (corner_p2 m p0 h).
  set (p1 := corner_p1 m p0 h). set (p2 := corner_p2 m p0 h).
  destruct (is_boundary m h); simpl; [rewrite vadd_zero_r; reflexivity|].
  destruct (Rgt_dec (norm (cross p1 p2)) scalar_min) as [Hn|Hn];
    [|rewrite vadd_zero_r; reflexivity].
  rewrite vdiv_Ret by lra. rewrite bind_Ret.
  destruct (Rge_dec (dot (cross p1 p2 *v / norm (cross p1 p2)) nf) threshold) as [Ha|Ha];
    [|rewrite vadd_zero_r; reflexivity].
  rewrite fsqrt_Ret by apply sqrt_lengths_nonneg. rewrite bind_Ret.
  destruct (Rgt_dec (sqrt (dot p1 p1 * dot p2 p2)) scalar_min) as [Hd|Hd].
  - destruct (Rle_dec (sqrt (dot p1 p1 * dot p2 p2)) scalar_min) as [Hd'|_]; [lra|].
    destruct (Rle_dec (norm (cross p1 p2)) scalar_min) as [Hn'|_]; [lra|].
    rewrite fdiv_Ret by lra. rewrite bind_Ret.
    rewrite facos_Ret by apply clamp_cosine_bounds. rewrite bind_Ret.
    unfold spec_angle. rewrite clamp_cosine_spec, vscale_vscale.
    do 3 f_equal. unfold Rdiv. ring.
  - destruct (Rle_dec (sqrt (dot p1 p1 * dot p2 p2)) scalar_min) as [_|Hd']; [|lra].
    rewrite vadd_zero_r. reflexivity.
Qed.

Lemma corner_normal_loop_spec (m : SurfaceMesh) (threshold : Scalar) (p0 nf : Point)
    (hend : Halfedge) :
  0 <= scalar_min ->
  forall fuel h nn,
  corner_normal_loop scalar_min fuel m (get_vertex_property m "v:point")
    threshold p0 nf hend h nn
  = match ring_walk fuel (corner_rotation m) hend h with
    | Some l => Ret (nn +v vsum (map (spec_corner_term scalar_min m threshold p0 nf) l))
    | None => NoReturn
    end.
Proof.
  intros Hmin. induction fuel as [|fuel IH]; intros h nn; [reflexivity|].
  simpl. rewrite corner_normal_step_spec by assumption. rewrite bind_Ret.
  fold (corner_rotation m h).
  destruct (decide (corner_rotation m h = hend)) as [Heq|Hne].
  - simpl. rewrite vadd_zero_r. reflexivity.
  - rewrite IH. destruct (ring_walk fuel (corner_rotation m) hend (corner_rotation m h));
      [|reflexivity].
    simpl. rewrite vadd_assoc. reflexivity.
Qed.

(** The sliding window of the face loop. *)
Lemma face_normal_loop_spec (m : SurfaceMesh) (h0 hend : Halfedge) :
  forall fuel t h p0 p1 p2 n,
  h = Nat.iter (t + 2) (next_halfedge m) h0 ->
  p0 = face_point m h0 t ->
  p1 = face_point m h0 (t + 1) ->
  p2 = face_point m h0 (t + 2) ->
  face_normal_loop fuel m (get_vertex_property m "v:point") hend h p0 p1 p2 n
  = match ring_walk fuel (next_halfedge m) hend h with
    | Some l => Ret (n +v vsum (map (window_term (face_point m h0)) (seq t (length l))))
    | None => NoReturn
    end.
Proof.
  induction fuel as [|fuel IH]; intros t h p0 p1 p2 n Hh Hp0 Hp1 Hp2; [reflexivity|].
  simpl face_normal_loop. simpl ring_walk.
  assert (Hnext : next_halfedge m h = Nat.iter (S t + 2) (next_halfedge m) h0).
  { rewrite Hh. reflexivity. }
  destruct (decide (next_halfedge m h = hend)) as [Heq|Hne].
  - simpl. rewrite vadd_zero_r. subst p0 p1 p2. reflexivity.
  - rewrite (IH (S t)); try assumption.
    + destruct (ring_walk fuel (next_halfedge m) hend (next_halfedge m h)); [|reflexivity].
      simpl. rewrite vadd_assoc. subst p0 p1 p2. reflexivity.
    + rewrite Hp1. f_equal. lia.
    + rewrite Hp2. f_equal. lia.
    + unfold face_point. rewrite Hnext. reflexivity.
Qed.

End Loops.

(** ** Normalization *)

Lemma normalize_vzero (scalar_min : Scalar) : normalize scalar_min vzero = vzero.
Proof. unfold normalize. vec_ring. Qed.

Lemma normalize_zero_or_unit (scalar_min : Scalar) (v : Point) :
  0 <= scalar_min ->
  normalize scalar_min v = vzero \/ norm (normalize scalar_min v) = 1.
Proof.
  intros Hmin. unfold normalize.
  destruct (Rgt_dec (norm v) scalar_min) as [Hn|Hn].
  - right. rewrite norm_vscale.
    + field. lra.
    + apply Rlt_le, Rdiv_lt_0_compat; lra.
  - left. apply vscale_zero.
Qed.

Lemma normalize_vopp (scalar_min : Scalar) (v : Point) :
  normalize scalar_min (vopp v) = vopp (normalize scalar_min v).
Proof. unfold normalize. rewrite norm_vopp. apply vscale_vopp. Qed.

(** A unit vector scaled by more than the threshold normalizes to itself. *)
Lemma normalize_scaled_unit (scalar_min : Scalar) (v : Point) (s : Scalar) :
  norm v = 1 -> 0 < s -> scalar_min < s ->
  normalize scalar_min (v *v s) = v.
Proof.
  intros Hv Hpos Hs. unfold normalize.
  rewrite norm_vscale by lra. rewrite Hv, Rmult_1_r.
  destruct (Rgt_dec s scalar_min) as [_|Hn]; [|lra].
  rewrite vscale_vscale. replace (s * (1 / s)) with 1 by (field; lra).
  apply vscale_one.
Qed.

Lemma normalize_scaled (scalar_min : Scalar) (v : Point) (s : Scalar) :
  0 <= scalar_min -> 0 < s -> scalar_min < s * norm v ->
  normalize scalar_min (v *v s) = v *v (/ norm v).
Proof.
  intros Hmin Hs Hn. unfold normalize.
  rewrite norm_vscale by lra.
  destruct (Rgt_dec (s * norm v) scalar_min) as [_|Hno]; [|lra].
  rewrite vscale_vscale. f_equal. field.
  split; [|lra]. intros Hz. rewrite Hz in Hn. lra.
Qed.

(** ** The results of the three operations *)

Section Operations.

Variable scalar_min : Scalar.
Variable fuel : nat.
Variable m : SurfaceMesh.

Lemma compute_vertex_normal_isolated (v : Vertex) :
  is_valid (halfedge m v) = false ->
  compute_vertex_normal scalar_min fuel m v = Ret vzero.
Proof. intros Hv. unfold compute_vertex_normal. rewrite Hv. reflexivity. Qed.

Lemma compute_vertex_normal_walk (v : Vertex) :
  0 <= scalar_min ->
  is_valid (halfedge m v) = true ->
  compute_vertex_normal scalar_min fuel m v
  = match ring_walk fuel (cw_rotated_halfedge m) (halfedge m v) (halfedge m v) with
    | Some l =>
        Ret (normalize scalar_min
               (vsum (map (spec_vertex_term scalar_min m
                             (vread (get_vertex_property m "v:point") v)) l)))
    | None => NoReturn
    end.
Proof.
  intros Hmin Hv. unfold compute_vertex_normal. rewrite Hv.
  rewrite vertex_normal_loop_spec by assumption.
  destruct (ring_walk fuel (cw_rotated_halfedge m) (halfedge m v) (halfedge m v));
    [|reflexivity].
  simpl. rewrite vadd_zero_l. reflexivity.
Qed.

Lemma compute_face_normal_triangle (f : Face) :
  is_triangle m f ->
  compute_face_normal scalar_min fuel m f
  = Ret (spec_triangle_normal scalar_min
           (face_point m (face_halfedge m f) 0)
           (face_point m (face_halfedge m f) 1)
           (face_point m (face_halfedge m f) 2)).
Proof.
  intros Ht. unfold compute_face_normal, is_triangle in *.
  destruct (decide (next_halfedge m (next_halfedge m (next_halfedge m (face_halfedge m f)))
                    = face_halfedge m f)) as [_|Hne]; [reflexivity | contradiction].
Qed.

Lemma compute_face_normal_walk (f : Face) :
  ~ is_triangle m f ->
  compute_face_normal scalar_min fuel m f
  = match ring_walk fuel (next_halfedge m)
            (next_halfedge m (next_halfedge m (face_halfedge m f)))
            (next_halfedge m (next_halfedge m (face_halfedge m f))) with
    | Some l =>
        Ret (normalize scalar_min
               (spec_newell_sum (face_point m (face_halfedge m f)) (length l)))
    | None => NoReturn
    end.
Proof.
  intros Ht. unfold compute_face_normal, is_triangle in *.
  destruct (decide (next_halfedge m (next_halfedge m (next_halfedge m (face_halfedge m f)))
                    = face_halfedge m f)) as [Heq|_]; [contradiction|].
  rewrite (face_normal_loop_spec m (face_halfedge m f) _ fuel 0%nat) by reflexivity.
  destruct (ring_walk fuel (next_halfedge m)
              (next_halfedge m (next_halfedge m (face_halfedge m f)))
              (next_halfedge m (next_halfedge m (face_halfedge m f)))); [|reflexivity].
  simpl bind. rewrite vadd_zero_l. reflexivity.
Qed.

Lemma compute_corner_normal_flat (h : Halfedge) (crease_angle : Scalar) :
  crease_angle < 0.01 ->
  compute_corner_normal scalar_min fuel m h crease_angle
  = compute_face_normal scalar_min fuel m (face m h).
Proof.
  intros Ha. unfold compute_corner_normal.
  destruct (Rlt_dec crease_angle 0.01); [reflexivity | contradiction].
Qed.

Lemma compute_corner_normal_smooth (h : Halfedge) (crease_angle : Scalar) :
  crease_angle > 179 ->
  compute_corner_normal scalar_min fuel m h crease_angle
  = compute_vertex_normal scalar_min fuel m (from_vertex m h).
Proof.
  intros Ha. unfold compute_corner_normal.
  destruct (Rlt_dec crease_angle 0.01); [lra|].
  destruct (Rgt_dec crease_angle 179); [reflexivity | contradiction].
Qed.

Lemma compute_corner_normal_boundary (h : Halfedge) (crease_angle : Scalar) :
  0.01 <= crease_angle <= 179 ->
  is_boundary m h = true ->
  compute_corner_normal scalar_min fuel m h crease_angle = Ret vzero.
Proof.
  intros Ha Hb. unfold compute_corner_normal.
  destruct (Rlt_dec crease_angle 0.01); [lra|].
  destruct (Rgt_dec crease_angle 179); [lra|].
  rewrite Hb. reflexivity.
Qed.

Lemma compute_corner_normal_walk (h : Halfedge) (crease_angle : Scalar) :
  0 <= scalar_min ->
  0.01 <= crease_angle <= 179 ->
  is_boundary m h = false ->
  compute_corner_normal scalar_min fuel m h crease_angle
  = match ring_walk fuel (corner_rotation m) h h with
    | Some l =>
        Ret (normalize scalar_min
               (vsum (map (spec_corner_term scalar_min m (cos crease_angle)
                             (vread (get_vertex_property m "v:point") (to_vertex m h))
                             (anchor_normal scalar_min m h)) l)))
    | None => NoReturn
    end.
Proof.
  intros Hmin Ha Hb. unfold compute_corner_normal.
  destruct (Rlt_dec crease_angle 0.01); [lra|].
  destruct (Rgt_dec crease_angle 179); [lra|].
  destruct (Rlt_dec crease_angle 0.001); [lra|].
  rewrite Hb. simpl negb. cbv iota.
  rewrite corner_normal_loop_spec by assumption.
  destruct (ring_walk fuel (corner_rotation m) h h); [|reflexivity].
  simpl bind. rewrite vadd_zero_l. reflexivity.
Qed.

End Operations.

(** ** No operation leaves its domain *)

Section WellDefined.

Variable scalar_min : Scalar.
Hypothesis scalar_min_nonneg : 0 <= scalar_min.
Variable fuel : nat.
Variable m : SurfaceMesh.

Lemma zero_or_unit_normalize (v : Point) :
  zero_or_unit (Ret (normalize scalar_min v)).
Proof using scalar_min_nonneg. apply normalize_zero_or_unit. exact scalar_min_nonneg. Qed.

Lemma vertex_normal_well_defined (v : Vertex) :
  zero_or_unit (compute_vertex_normal scalar_min fuel m v) /\
  (vertex_ring_closes fuel m v ->
   exists n, compute_vertex_normal scalar_min fuel m v = Ret n).
Proof using scalar_min_nonneg.
  destruct (is_valid (halfedge m v)) eqn:Hv.
  - rewrite compute_vertex_normal_walk by assumption.
    split.
    + destruct (ring_walk fuel (cw_rotated_halfedge m) (halfedge m v) (halfedge m v));
        [apply zero_or_unit_normalize | exact I].
    + intros Hc. destruct (Hc Hv) as [l Hl]. rewrite Hl. eexists. reflexivity.
  - rewrite compute_vertex_normal_isolated by assumption.
    split; [left; reflexivity | intros _; eexists; reflexivity].
Qed.

Lemma face_normal_well_defined (f : Face) :
  zero_or_unit (compute_face_normal scalar_min fuel m f) /\
  (face_ring_closes fuel m f ->
   exists n, compute_face_normal scalar_min fuel m f = Ret n).
Proof using scalar_min_nonneg.
  destruct (decide (next_halfedge m (next_halfedge m (next_halfedge m (face_halfedge m f)))
                    = face_halfedge m f)) as [Ht|Ht].
  - rewrite compute_face_normal_triangle by assumption.
    split; [apply zero_or_unit_normalize | intros _; eexists; reflexivity].
  - rewrite compute_face_normal_walk by assumption.
    split.
    + destruct (ring_walk fuel (next_halfedge m) _ _);
        [apply zero_or_unit_normalize | exact I].
    + intros Hc. destruct (Hc Ht) as [l Hl]. rewrite Hl. eexists. reflexivity.
Qed.

End WellDefined.


(** ** The batch drivers *)

Lemma same_geometry_refl (m : SurfaceMesh) : same_geometry m m.
Proof. repeat split. Qed.

Lemma same_geometry_trans (m1 m2 m3 : SurfaceMesh) :
  same_geometry m1 m2 -> same_geometry m2 m3 -> same_geometry m1 m3.
Proof.
  unfold same_geometry. intros H12 H23.
  repeat match goal with H : _ /\ _ |- _ => destruct H end.
  repeat split; congruence.
Qed.

Lemma with_vprops_id (m : SurfaceMesh) : with_vprops m (vprops m) = m.
Proof. destruct m. reflexivity. Qed.

Lemma with_fprops_id (m : SurfaceMesh) : with_fprops m (fprops m) = m.
Proof. destruct m. reflexivity. Qed.

Section Geometry.

Variable scalar_min : Scalar.
Variable fuel : nat.
Variables m1 m2 : SurfaceMesh.
Hypothesis geometry : same_geometry m1 m2.

Lemma get_points_geometry :
  get_vertex_property m1 "v:point" = get_vertex_property m2 "v:point".
Proof using geometry.
  unfold get_vertex_property.
  destruct geometry as (_ & _ & _ & _ & _ & _ & _ & _ & _ & _ & _ & _ & Hp).
  rewrite Hp. reflexivity.
Qed.

Lemma vertex_normal_step_geometry (vp : VertexProperty) (p0 : Point) (h : Halfedge)
    (nn : Point) :
  vertex_normal_step scalar_min m1 vp p0 h nn = vertex_normal_step scalar_min m2 vp p0 h nn.
Proof using geometry.
  destruct geometry as (_ & _ & _ & _ & Hto & Hfrom & _ & Hprev & _ & _ & _ & Hb & _).
  unfold vertex_normal_step. rewrite Hto, Hfrom, Hprev, Hb. reflexivity.
Qed.

Lemma vertex_normal_loop_geometry (vp : VertexProperty) (p0 : Point) (hend : Halfedge) :
  forall k h nn,
  vertex_normal_loop scalar_min k m1 vp p0 hend h nn
  = vertex_normal_loop scalar_min k m2 vp p0 hend h nn.
Proof using geometry.
  pose proof geometry as (_ & _ & _ & _ & _ & _ & _ & _ & _ & Hcw & _).
  induction k as [|k IH]; intros h nn; [reflexivity|].
  simpl. rewrite vertex_normal_step_geometry, Hcw.
  destruct (vertex_normal_step scalar_min m2 vp p0 h nn); simpl; try reflexivity.
  destruct (decide _); [reflexivity | apply IH].
Qed.

Lemma face_normal_loop_geometry (vp : VertexProperty) (hend : Halfedge) :
  forall k h p0 p1 p2 n,
  face_normal_loop k m1 vp hend h p0 p1 p2 n
  = face_normal_loop k m2 vp hend h p0 p1 p2 n.
Proof using geometry.
  destruct geometry as (_ & _ & _ & _ & Hto & _ & Hnext & _).
  induction k as [|k IH]; intros h p0 p1 p2 n; [reflexivity|].
  simpl. rewrite Hto, Hnext.
  destruct (decide _); [reflexivity | apply IH].
Qed.

(** The operations read the connectivity and the positions, and nothing else
    of the mesh. *)
Lemma compute_vertex_normal_geometry (v : Vertex) :
  compute_vertex_normal scalar_min fuel m1 v = compute_vertex_normal scalar_min fuel m2 v.
Proof using geometry.
  unfold compute_vertex_normal.
  rewrite get_points_geometry, vertex_normal_loop_geometry.
  destruct geometry as (_ & _ & Hh & _). rewrite Hh. reflexivity.
Qed.

Lemma compute_face_normal_geometry (f : Face) :
  compute_face_normal scalar_min fuel m1 f = compute_face_normal scalar_min fuel m2 f.
Proof using geometry.
  unfold compute_face_normal.
  rewrite get_points_geometry, face_normal_loop_geometry.
  destruct geometry as (_ & _ & _ & Hfh & Hto & _ & Hnext & _).
  rewrite Hfh, Hto, Hnext. reflexivity.
Qed.

End Geometry.

Lemma vwrite_geometry (m : SurfaceMesh) (v : Vertex) (n : Normal) :
  same_geometry (vwrite m "v:normal" v n) m.
Proof.
  unfold same_geometry, vwrite. simpl. repeat split.
  apply lookup_insert_ne. discriminate.
Qed.

Lemma fwrite_geometry (m : SurfaceMesh) (f : Face) (n : Normal) :
  same_geometry (fwrite m "f:normal" f n) m.
Proof. unfold same_geometry, fwrite. simpl. repeat split. Qed.

Lemma vertex_property_geometry (m : SurfaceMesh) :
  same_geometry (vertex_property m "v:normal") m.
Proof.
  unfold vertex_property. destruct (vprops m !! "v:normal"); [apply same_geometry_refl|].
  unfold same_geometry. simpl. repeat split.
  apply lookup_insert_ne. discriminate.
Qed.

Lemma face_property_geometry (m : SurfaceMesh) :
  same_geometry (face_property m "f:normal") m.
Proof.
  unfold face_property. destruct (fprops m !! "f:normal"); [apply same_geometry_refl|].
  unfold same_geometry. simpl. repeat split.
Qed.

Lemma stored_vertex_normal_vwrite (m : SurfaceMesh) (v v' : Vertex) (n : Normal) :
  stored_vertex_normal (vwrite m "v:normal" v n) v'
  = if decide (v = v') then Some n else stored_vertex_normal m v'.
Proof.
  unfold stored_vertex_normal, vwrite, get_vertex_property. simpl.
  rewrite lookup_insert_eq. simpl. apply lookup_insert.
Qed.

Lemma stored_face_normal_fwrite (m : SurfaceMesh) (f f' : Face) (n : Normal) :
  stored_face_normal (fwrite m "f:normal" f n) f'
  = if decide (f = f') then Some n else stored_face_normal m f'.
Proof.
  unfold stored_face_normal, fwrite, get_face_property. simpl.
  rewrite lookup_insert_eq. simpl. apply lookup_insert.
Qed.

(** Writing the value that a slot already holds leaves the mesh as it is. *)
Lemma vwrite_same (m : SurfaceMesh) (v : Vertex) (n : Normal) :
  stored_vertex_normal m v = Some n -> vwrite m "v:normal" v n = m.
Proof.
  unfold stored_vertex_normal, vwrite, get_vertex_property. intros Hs.
  destruct (vprops m !! "v:normal") as [p|] eqn:Hp; simpl in *.
  - rewrite (insert_id p v n Hs), (insert_id (vprops m) _ _ Hp).
    apply with_vprops_id.
  - try rewrite lookup_empty in Hs. discriminate.
Qed.

Lemma fwrite_same (m : SurfaceMesh) (f : Face) (n : Normal) :
  stored_face_normal m f = Some n -> fwrite m "f:normal" f n = m.
Proof.
  unfold stored_face_normal, fwrite, get_face_property. intros Hs.
  destruct (fprops m !! "f:normal") as [p|] eqn:Hp; simpl in *.
  - rewrite (insert_id p f n Hs), (insert_id (fprops m) _ _ Hp).
    apply with_fprops_id.
  - try rewrite lookup_empty in Hs. discriminate.
Qed.

Section Batch.

Variable scalar_min : Scalar.
Variable fuel : nat.
Variable m0 : SurfaceMesh.

(** The loop of the vertex driver, from any mesh with the geometry of [m0]. *)
Lemma vertex_normals_loop_returns :
  forall vs m, same_geometry m m0 ->
  (forall v, In v vs -> exists n, compute_vertex_normal scalar_min fuel m0 v = Ret n) ->
  exists m', vertex_normals_loop scalar_min fuel m vs = Ret m'.
Proof.
  induction vs as [|v vs IH]; intros m Hg Hret; simpl.
  - eexists. reflexivity.
  - destruct (Hret v (or_introl eq_refl)) as [n Hn].
    rewrite (compute_vertex_normal_geometry scalar_min fuel m m0 Hg), Hn. simpl.
    apply IH.
    + eapply same_geometry_trans; [apply vwrite_geometry | exact Hg].
    + intros v' Hv'. apply Hret. right. exact Hv'.
Qed.

Lemma vertex_normals_loop_stores :
  forall vs m m', same_geometry m m0 ->
  vertex_normals_loop scalar_min fuel m vs = Ret m' ->
  same_geometry m' m0 /\
  (forall v, In v vs ->
     exists n, compute_vertex_normal scalar_min fuel m0 v = Ret n /\
               stored_vertex_normal m' v = Some n) /\
  (forall v, ~ In v vs -> stored_vertex_normal m' v = stored_vertex_normal m v).
Proof.
  induction vs as [|v vs IH]; intros m m' Hg Hloop; simpl in Hloop.
  - injection Hloop as <-. split; [exact Hg|]. split; [intros v [] | reflexivity].
  - rewrite (compute_vertex_normal_geometry scalar_min fuel m m0 Hg) in Hloop.
    destruct (compute_vertex_normal scalar_min fuel m0 v) as [n| |] eqn:Hn;
      try discriminate.
    simpl in Hloop.
    assert (Hg1 : same_geometry (vwrite m "v:normal" v n) m0).
    { eapply same_geometry_trans; [apply vwrite_geometry | exact Hg]. }
    destruct (IH _ _ Hg1 Hloop) as (Hg' & Hin & Hout).
    split; [exact Hg'|]. split.
    + intros v' [<-|Hv']; [|apply Hin; exact Hv'].
      destruct (in_dec Vertex_eq_dec v vs) as [Hv|Hv]; [apply Hin; exact Hv|].
      exists n. split; [exact Hn|].
      rewrite (Hout v Hv), stored_vertex_normal_vwrite.
      destruct (decide (v = v)); [reflexivity | contradiction].
    + intros v' Hv'. rewrite (Hout v'), stored_vertex_normal_vwrite.
      * destruct (decide (v = v')) as [->|_]; [|reflexivity].
        exfalso. apply Hv'. left. reflexivity.
      * intros Hin'. apply Hv'. right. exact Hin'.
Qed.

(** A second pass writes what the slots already hold. *)
Lemma vertex_normals_loop_fixed :
  forall vs m, same_geometry m m0 ->
  (forall v, In v vs ->
     exists n, compute_vertex_normal scalar_min fuel m0 v = Ret n /\
               stored_vertex_normal m v = Some n) ->
  vertex_normals_loop scalar_min fuel m vs = Ret m.
Proof.
  induction vs as [|v vs IH]; intros m Hg Hst; simpl; [reflexivity|].
  destruct (Hst v (or_introl eq_refl)) as (n & Hn & Hs).
  rewrite (compute_vertex_normal_geometry scalar_min fuel m m0 Hg), Hn. simpl.
  rewrite (vwrite_same m v n Hs). apply IH; [exact Hg|].
  intros v' Hv'. apply Hst. right. exact Hv'.
Qed.

Lemma face_normals_loop_returns :
  forall fs m, same_geometry m m0 ->
  (forall f, In f fs -> exists n, compute_face_normal scalar_min fuel m0 f = Ret n) ->
  exists m', face_normals_loop scalar_min fuel m fs = Ret m'.
Proof.
  induction fs as [|f fs IH]; intros m Hg Hret; simpl.
  - eexists. reflexivity.
  - destruct (Hret f (or_introl eq_refl)) as [n Hn].
    rewrite (compute_face_normal_geometry scalar_min fuel m m0 Hg), Hn. simpl.
    apply IH.
    + eapply same_geometry_trans; [apply fwrite_geometry | exact Hg].
    + intros f' Hf'. apply Hret. right. exact Hf'.
Qed.

Lemma face_normals_loop_stores :
  forall fs m m', same_geometry m m0 ->
  face_normals_loop scalar_min fuel m fs = Ret m' ->
  same_geometry m' m0 /\
  (forall f, In f fs ->
     exists n, compute_face_normal scalar_min fuel m0 f = Ret n /\
               stored_face_normal m' f = Some n) /\
  (forall f, ~ In f fs -> stored_face_normal m' f = stored_face_normal m f).
Proof.
  induction fs as [|f fs IH]; intros m m' Hg Hloop; simpl in Hloop.
  - injection Hloop as <-. split; [exact Hg|]. split; [intros f [] | reflexivity].
  - rewrite (compute_face_normal_geometry scalar_min fuel m m0 Hg) in Hloop.
    destruct (compute_face_normal scalar_min fuel m0 f) as [n| |] eqn:Hn;
      try discriminate.
    simpl in Hloop.
    assert (Hg1 : same_geometry (fwrite m "f:normal" f n) m0).
    { eapply same_geometry_trans; [apply fwrite_geometry | exact Hg]. }
    destruct (IH _ _ Hg1 Hloop) as (Hg' & Hin & Hout).
    split; [exact Hg'|]. split.
    + intros f' [<-|Hf']; [|apply Hin; exact Hf'].
      destruct (in_dec Face_eq_dec f fs) as [Hf|Hf]; [apply Hin; exact Hf|].
      exists n. split; [exact Hn|].
      rewrite (Hout f Hf), stored_face_normal_fwrite.
      destruct (decide (f = f)); [reflexivity | contradiction].
    + intros f' Hf'. rewrite (Hout f'), stored_face_normal_fwrite.
      * destruct (decide (f = f')) as [->|_]; [|reflexivity].
        exfalso. apply Hf'. left. reflexivity.
      * intros Hin'. apply Hf'. right. exact Hin'.
Qed.

Lemma face_normals_loop_fixed :
  forall fs m, same_geometry m m0 ->
  (forall f, In f fs ->
     exists n, compute_face_normal scalar_min fuel m0 f = Ret n /\
               stored_face_normal m f = Some n) ->
  face_normals_loop scalar_min fuel m fs = Ret m.
Proof.
  induction fs as [|f fs IH]; intros m Hg Hst; simpl; [reflexivity|].
  destruct (Hst f (or_introl eq_refl)) as (n & Hn & Hs).
  rewrite (compute_face_normal_geometry scalar_min fuel m m0 Hg), Hn. simpl.
  rewrite (fwrite_same m f n Hs). apply IH; [exact Hg|].
  intros f' Hf'. apply Hst. right. exact Hf'.
Qed.

End Batch.

Lemma vertex_property_attached (m : SurfaceMesh) :
  is_Some (vprops (vertex_property m "v:normal") !! "v:normal").
Proof.
  unfold vertex_property. destruct (vprops m !! "v:normal") eqn:E.
  - rewrite E. eexists. reflexivity.
  - simpl. rewrite lookup_insert_eq. eexists. reflexivity.
Qed.

Lemma face_property_attached (m : SurfaceMesh) :
  is_Some (fprops (face_property m "f:normal") !! "f:normal").
Proof.
  unfold face_property. destruct (fprops m !! "f:normal") eqn:E.
  - rewrite E. eexists. reflexivity.
  - simpl. rewrite lookup_insert_eq. eexists. reflexivity.
Qed.

Lemma vertex_property_present (m : SurfaceMesh) :
  is_Some (vprops m !! "v:normal") -> vertex_property m "v:normal" = m.
Proof. intros [p Hp]. unfold vertex_property. rewrite Hp. reflexivity. Qed.

Lemma face_property_present (m : SurfaceMesh) :
  is_Some (fprops m !! "f:normal") -> face_property m "f:normal" = m.
Proof. intros [p Hp]. unfold face_property. rewrite Hp. reflexivity. Qed.

Lemma vertex_normals_loop_attached (scalar_min : Scalar) (fuel : nat) :
  forall vs m m', vertex_normals_loop scalar_min fuel m vs = Ret m' ->
  is_Some (vprops m !! "v:normal") -> is_Some (vprops m' !! "v:normal").
Proof.
  induction vs as [|v vs IH]; intros m m' Hloop Hs; simpl in Hloop.
  - injection Hloop as <-. exact Hs.
  - destruct (compute_vertex_normal scalar_min fuel m v) as [n| |]; try discriminate.
    apply (IH _ _ Hloop). unfold vwrite. simpl. rewrite lookup_insert_eq.
    eexists. reflexivity.
Qed.

Lemma face_normals_loop_attached (scalar_min : Scalar) (fuel : nat) :
  forall fs m m', face_normals_loop scalar_min fuel m fs = Ret m' ->
  is_Some (fprops m !! "f:normal") -> is_Some (fprops m' !! "f:normal").
Proof.
  induction fs as [|f fs IH]; intros m m' Hloop Hs; simpl in Hloop.
  - injection Hloop as <-. exact Hs.
  - destruct (compute_face_normal scalar_min fuel m f) as [n| |]; try discriminate.
    apply (IH _ _ Hloop). unfold fwrite. simpl. rewrite lookup_insert_eq.
    eexists. reflexivity.
Qed.

Section Drivers.

Variable scalar_min : Scalar.
Variable fuel : nat.
Variable m : SurfaceMesh.

Lemma compute_vertex_normals_returns :
  (forall v, In v (vertices m) ->
     exists n, compute_vertex_normal scalar_min fuel m v = Ret n) ->
  exists m', compute_vertex_normals scalar_min fuel m = Ret m'.
Proof.
  intros Hret. unfold compute_vertex_normals.
  pose proof (vertex_property_geometry m) as Hg.
  apply (vertex_normals_loop_returns scalar_min fuel m); [exact Hg|].
  destruct Hg as (Hv & _). rewrite Hv. exact Hret.
Qed.

Lemma compute_vertex_normals_stores (m' : SurfaceMesh) :
  compute_vertex_normals scalar_min fuel m = Ret m' ->
  same_geometry m' m /\
  (forall v, In v (vertices m) ->
     exists n, compute_vertex_normal scalar_min fuel m v = Ret n /\
               stored_vertex_normal m' v = Some n) /\
  compute_vertex_normals scalar_min fuel m' = Ret m'.
Proof.
  unfold compute_vertex_normals. intros Hloop.
  pose proof (vertex_property_geometry m) as Hg.
  pose proof (vertex_normals_loop_attached _ _ _ _ _ Hloop (vertex_property_attached m))
    as Hatt.
  destruct (vertex_normals_loop_stores scalar_min fuel m _ _ _ Hg Hloop)
    as (Hg' & Hin & _).
  assert (Hvs : vertices (vertex_property m "v:normal") = vertices m)
    by (destruct Hg as (Hv & _); exact Hv).
  rewrite Hvs in Hin.
  split; [exact Hg'|]. split; [exact Hin|].
  rewrite (vertex_property_present m' Hatt).
  apply (vertex_normals_loop_fixed scalar_min fuel m); [exact Hg'|].
  destruct Hg' as (Hv' & _). rewrite Hv'. exact Hin.
Qed.

Lemma compute_face_normals_returns :
  (forall f, In f (faces m) ->
     exists n, compute_face_normal scalar_min fuel m f = Ret n) ->
  exists m', compute_face_normals scalar_min fuel m = Ret m'.
Proof.
  intros Hret. unfold compute_face_normals.
  pose proof (face_property_geometry m) as Hg.
  apply (face_normals_loop_returns scalar_min fuel m); [exact Hg|].
  destruct Hg as (_ & Hf & _). rewrite Hf. exact Hret.
Qed.

Lemma compute_face_normals_stores (m' : SurfaceMesh) :
  compute_face_normals scalar_min fuel m = Ret m' ->
  same_geometry m' m /\
  (forall f, In f (faces m) ->
     exists n, compute_face_normal scalar_min fuel m f = Ret n /\
               stored_face_normal m' f = Some n) /\
  compute_face_normals scalar_min fuel m' = Ret m'.
Proof.
  unfold compute_face_normals. intros Hloop.
  pose proof (face_property_geometry m) as Hg.
  pose proof (face_normals_loop_attached _ _ _ _ _ Hloop (face_property_attached m))
    as Hatt.
  destruct (face_normals_loop_stores scalar_min fuel m _ _ _ Hg Hloop)
    as (Hg' & Hin & _).
  assert (Hfs : faces (face_property m "f:normal") = faces m)
    by (destruct Hg as (_ & Hf & _); exact Hf).
  rewrite Hfs in Hin.
  split; [exact Hg'|]. split; [exact Hin|].
  rewrite (face_property_present m' Hatt).
  apply (face_normals_loop_fixed scalar_min fuel m); [exact Hg'|].
  destruct Hg' as (_ & Hf' & _). rewrite Hf'. exact Hin.
Qed.

End Drivers.

(** ** Termination on well-formed connectivity *)

Section Permutation.

Variable n : nat.
Variable rot : Halfedge -> Halfedge.
Hypothesis permutation : permutes n rot.

Lemma iter_in_range (h : Halfedge) (j : nat) :
  in_range n h -> in_range n (Nat.iter j rot h).
Proof using permutation.
  intros Hh. induction j as [|j IH]; [exact Hh|].
  simpl. apply permutation. exact IH.
Qed.

Lemma iter_injective (a : nat) (h g : Halfedge) :
  in_range n h -> in_range n g ->
  Nat.iter a rot h = Nat.iter a rot g -> h = g.
Proof using permutation.
  intros Hh Hg. induction a as [|a IH]; intros Heq; [exact Heq|].
  simpl in Heq. apply IH.
  apply (proj2 permutation); [apply iter_in_range | apply iter_in_range |]; assumption.
Qed.

Lemma in_range_listed (h : Halfedge) : in_range n h -> In h (map H (seq 0 n)).
Proof.
  destruct h as [|i]; simpl; [contradiction|]. intros Hi.
  apply in_map, in_seq. lia.
Qed.

(** Among [n] halfedges the orbit of [h] is back at [h] after at most [n]
    rotations. *)
Lemma permutation_returns (h : Halfedge) :
  in_range n h -> exists k, (0 < k <= n)%nat /\ Nat.iter k rot h = h.
Proof using permutation.
  intros Hh.
  destruct (decide (Exists (fun k => Nat.iter k rot h = h) (seq 1 n))) as [Hex|Hno].
  - apply Exists_exists in Hex. destruct Hex as (k & Hk & Hback).
    apply elem_of_seq in Hk. exists k. split; [lia | exact Hback].
  - exfalso.
    assert (Hnever : forall k, (0 < k <= n)%nat -> Nat.iter k rot h <> h).
    { intros k Hk Hback. apply Hno, Exists_exists. exists k.
      split; [apply elem_of_seq; lia | exact Hback]. }
    assert (Hdup : NoDup (orbit rot h (S n))).
    { unfold orbit. apply NoDup_fmap_2_strong; [|apply NoDup_seq].
      assert (Hlt : forall i j, (i < j <= n)%nat ->
                Nat.iter i rot h <> Nat.iter j rot h).
      { intros i j Hij Heq. apply (Hnever (j - i)%nat); [lia|].
        symmetry. apply (iter_injective i); [exact Hh | apply iter_in_range; exact Hh |].
        rewrite <- Nat.iter_add. replace (i + (j - i))%nat with j by lia. exact Heq. }
      intros i j Hi Hj Heq. apply elem_of_seq in Hi, Hj.
      destruct (Nat.lt_trichotomy i j) as [Hij|[->|Hij]]; [|reflexivity|].
      - exfalso. apply (Hlt i j); [lia | exact Heq].
      - exfalso. apply (Hlt j i); [lia | symmetry; exact Heq]. }
    assert (Hincl : incl (orbit rot h (S n)) (map H (seq 0 n))).
    { intros g Hg. unfold orbit in Hg. apply in_map_iff in Hg.
      destruct Hg as (j & <- & _). apply in_range_listed, iter_in_range. exact Hh. }
    apply NoDup_ListNoDup in Hdup.
    pose proof (NoDup_incl_length Hdup Hincl) as Hlen.
    rewrite orbit_length, length_map, length_seq in Hlen. lia.
Qed.

Lemma ring_walk_returns (hend : Halfedge) :
  forall fuel h k, (0 < k <= fuel)%nat -> Nat.iter k rot h = hend ->
  is_Some (ring_walk fuel rot hend h).
Proof.
  induction fuel as [|fuel IH]; intros h k Hk Hback; [lia|].
  simpl. destruct (decide (rot h = hend)) as [Heq|Hne]; [eexists; reflexivity|].
  destruct k as [|[|k]]; [lia | contradiction |].
  destruct (IH (rot h) (S k)) as [l Hl]; [lia | |].
  - rewrite <- Hback. symmetry. exact (Nat.iter_succ_r (S k) rot h).
  - rewrite Hl. eexists. reflexivity.
Qed.

Lemma permutation_closes (fuel : nat) (h : Halfedge) :
  in_range n h -> (n <= fuel)%nat -> closes fuel rot h.
Proof using permutation.
  intros Hh Hfuel. destruct (permutation_returns h Hh) as (k & Hk & Hback).
  apply (ring_walk_returns h fuel h k); [lia | exact Hback].
Qed.

End Permutation.

(** On well-formed connectivity with [n] halfedges, [n] units of fuel suffice
    for every loop of the three operations. *)
Lemma well_formed_rings_close (m : SurfaceMesh) (n fuel : nat) :
  well_formed m n -> (n <= fuel)%nat ->
  (forall v, In v (vertices m) -> vertex_ring_closes fuel m v) /\
  (forall f, In f (faces m) -> face_ring_closes fuel m f) /\
  (forall h, in_range n h -> corner_ring_closes fuel m h).
Proof.
  intros (Hnext & Hcw & Hcorner & Hv & Hf) Hfuel. split; [|split].
  - intros v Hin Hvalid. apply (permutation_closes n); [exact Hcw | | exact Hfuel].
    apply Hv; assumption.
  - intros f Hin _. apply (permutation_closes n); [exact Hnext | | exact Hfuel].
    apply (iter_in_range n _ Hnext _ 2). apply Hf. exact Hin.
  - intros h Hh _. apply (permutation_closes n); [exact Hcorner | exact Hh | exact Hfuel].
Qed.

(** A rotation with an inverse on the halfedges permutes them. *)
Lemma permutes_of_inverse (n : nat) (rot inv : Halfedge -> Halfedge) :
  (forall h, in_range n h -> in_range n (rot h) /\ inv (rot h) = h) ->
  permutes n rot.
Proof.
  intros Hinv. split.
  - intros h Hh. apply Hinv. exact Hh.
  - intros h g Hh Hg Heq.
    rewrite <- (proj2 (Hinv h Hh)), <- (proj2 (Hinv g Hg)), Heq. reflexivity.
Qed.

(** ** Planar convex polygons *)

Lemma full_turn_shift (rot : Halfedge -> Halfedge) (h : Halfedge) (k i : nat) :
  full_turn rot h k -> (i <= k)%nat -> full_turn rot (Nat.iter i rot h) k.
Proof.
  intros (Hk & Hback & Hfirst) Hi. split; [exact Hk|]. split.
  - rewrite <- Nat.iter_add. replace (k + i)%nat with (i + k)%nat by lia.
    rewrite Nat.iter_add, Hback. reflexivity.
  - intros j Hj Heq. apply (Hfirst j Hj).
    assert (HL : Nat.iter (k - i) rot (Nat.iter j rot (Nat.iter i rot h))
                 = Nat.iter j rot h).
    { rewrite <- (Nat.iter_add (k - i) j), <- (Nat.iter_add (k - i + j) i).
      replace (k - i + j + i)%nat with (j + k)%nat by lia.
      rewrite Nat.iter_add, Hback. reflexivity. }
    assert (HR : Nat.iter (k - i) rot (Nat.iter i rot h) = h).
    { rewrite <- Nat.iter_add. replace (k - i + i)%nat with k by lia. exact Hback. }
    rewrite <- HL, Heq. exact HR.
Qed.

Lemma face_point_periodic (m : SurfaceMesh) (h0 : Halfedge) (N j : nat) :
  full_turn (next_halfedge m) h0 N ->
  face_point m h0 (j + N) = face_point m h0 j.
Proof.
  intros (_ & Hback & _). unfold face_point.
  rewrite Nat.iter_add, Hback. reflexivity.
Qed.

(** The cross product of two vectors of a plane is a multiple of the unit
    normal of the plane. *)
Lemma in_plane_cross (a b nu : Point) :
  dot nu nu = 1 -> dot a nu = 0 -> dot b nu = 0 ->
  cross a b = nu *v dot (cross a b) nu.
Proof.
  destruct a as [a1 a2 a3], b as [b1 b2 b3], nu as [n1 n2 n3].
  unfold dot, cross, vscale. simpl. intros Hn Ha Hb.
  apply Point_eq; simpl; nsatz.
Qed.

(** Sums of multiples of one vector. *)
Lemma multiples_sum (nu : Point) (A : Type) (g : A -> Point) (l : list A) :
  (forall t, In t l -> g t = nu *v dot (g t) nu) ->
  vsum (map g l) = nu *v fold_right Rplus 0 (map (fun t => dot (g t) nu) l).
Proof.
  induction l as [|t l IH]; intros Hmul; simpl.
  - symmetry. apply vscale_zero.
  - rewrite vscale_plus, <- IH, <- (Hmul t (or_introl eq_refl)); [reflexivity|].
    intros u Hu. apply Hmul. right. exact Hu.
Qed.

Lemma nonneg_sum (A : Type) (c : A -> Scalar) (l : list A) :
  (forall t, In t l -> 0 <= c t) -> 0 <= fold_right Rplus 0 (map c l).
Proof.
  induction l as [|t l IH]; intros Hpos; simpl; [lra|].
  pose proof (Hpos t (or_introl eq_refl)).
  assert (0 <= fold_right Rplus 0 (map c l)) by (apply IH; intros u Hu; apply Hpos; right; exact Hu).
  lra.
Qed.




Section Polygon.

Variable q : nat -> Point.
Variable N : nat.
Variable nu : Point.
Hypothesis sides : (3 < N)%nat.
Hypothesis periodic : forall j, q (j + N)%nat = q j.
Hypothesis convex : planar_convex q N nu.

Lemma polygon_in_plane : forall i, dot (q i -v q 0%nat) nu = 0.
Proof using sides periodic convex.
  destruct convex as (_ & Hplane & _).
  induction i as [i IH] using lt_wf_ind.
  destruct (Nat.lt_ge_cases i N) as [Hi|Hi]; [apply Hplane; exact Hi|].
  replace i with (i - N + N)%nat by lia. rewrite periodic. apply IH. lia.
Qed.

Lemma polygon_edge_in_plane (i j : nat) : dot (q i -v q j) nu = 0.
Proof using sides periodic convex.
  pose proof (polygon_in_plane i) as Hi. pose proof (polygon_in_plane j) as Hj.
  vec_simpl. lra.
Qed.

Lemma window_multiple (t : nat) :
  window_term q t = nu *v dot (window_term q t) nu.
Proof using sides periodic convex.
  unfold window_term. apply in_plane_cross;
    [apply convex | apply polygon_edge_in_plane | apply polygon_edge_in_plane].
Qed.


(** The corner of the window [t] is the corner of an edge and of another
    vertex of the polygon. *)
Lemma window_is_corner (P : Scalar -> Prop) (t : nat) :
  (t < N)%nat ->
  (forall i j, (i < N)%nat -> (j < N)%nat -> j <> i ->
     (S i < N -> j <> S i)%nat -> (S i = N -> j <> 0)%nat ->
     P (dot (cross (q (S i) -v q i) (q j -v q i)) nu)) ->
  P (dot (window_term q t) nu).
Proof using sides periodic.
  intros Ht Hleft. unfold window_term.
  destruct (Nat.lt_ge_cases (t + 1) N) as [Hlt|Hge].
  - replace (t + 2)%nat with (S (t + 1)) by lia. apply Hleft; lia.
  - assert (t = N - 1)%nat as -> by lia.
    replace (N - 1 + 2)%nat with (1 + N)%nat by lia.
    replace (N - 1 + 1)%nat with (0 + N)%nat by lia.
    rewrite !periodic. apply (Hleft 0%nat (N - 1)%nat); lia.
Qed.

Lemma newell_multiple :
  exists c, 0 <= c /\ spec_newell_sum q N = nu *v c.
Proof using sides periodic convex.
  eexists. split; [|apply multiples_sum; intros t _; apply window_multiple].
  apply nonneg_sum. intros t Ht. apply in_seq in Ht.
  apply (window_is_corner (fun x => 0 <= x)); [lia | apply convex].
Qed.




End Polygon.

(** ** Right-angled corners with legs of length one *)

Lemma spec_clamp_id (c : Scalar) : -1 <= c <= 1 -> spec_clamp c = c.
Proof.
  intros Hc. unfold spec_clamp, Rmax, Rmin.
  destruct (Rle_dec c 1); [|lra]. destruct (Rle_dec (-1) c); lra.
Qed.

Lemma lagrange_identity (a b : Point) :
  dot (cross a b) (cross a b) = dot a a * dot b b - dot a b * dot a b.
Proof. vec_simpl. ring. Qed.

Lemma right_corner_contribution (scalar_min : Scalar) (p1 p2 : Point) :
  0 <= scalar_min < 1 ->
  dot p1 p1 = 1 -> dot p2 p2 = 1 -> dot p1 p2 = 0 ->
  norm (cross p1 p2) = 1 /\
  spec_corner_contribution scalar_min p1 p2 = cross p1 p2 *v (PI / 2).
Proof.
  intros Hmin H1 H2 H12.
  assert (Hn : norm (cross p1 p2) = 1).
  { apply norm_unit_dot. rewrite lagrange_identity, H1, H2, H12. ring. }
  split; [exact Hn|].
  unfold spec_corner_contribution, spec_angle.
  rewrite H1, H2, H12, Hn, Rmult_1_r, sqrt_1.
  destruct (Rle_dec 1 scalar_min); [lra|].
  replace (0 / 1) with 0 by field.
  rewrite spec_clamp_id by lra. rewrite acos_0.
  f_equal. field.
Qed.

Lemma right_vertex_term (scalar_min : Scalar) (m : SurfaceMesh) (p0 : Point)
    (g : Halfedge) :
  0 <= scalar_min < 1 ->
  is_boundary m g = false ->
  dot (vertex_p1 m p0 g) (vertex_p1 m p0 g) = 1 ->
  dot (vertex_p2 m p0 g) (vertex_p2 m p0 g) = 1 ->
  dot (vertex_p1 m p0 g) (vertex_p2 m p0 g) = 0 ->
  spec_vertex_term scalar_min m p0 g
  = cross (vertex_p1 m p0 g) (vertex_p2 m p0 g) *v (PI / 2).
Proof.
  intros Hmin Hb H1 H2 H12. unfold spec_vertex_term. rewrite Hb.
  apply right_corner_contribution; assumption.
Qed.

Lemma boundary_vertex_term (scalar_min : Scalar) (m : SurfaceMesh) (p0 : Point)
    (g : Halfedge) :
  is_boundary m g = true -> spec_vertex_term scalar_min m p0 g = vzero.
Proof. intros Hb. unfold spec_vertex_term. rewrite Hb. reflexivity. Qed.

Lemma right_corner_term_accept (scalar_min : Scalar) (m : SurfaceMesh)
    (threshold : Scalar) (p0 nf : Point) (g : Halfedge) :
  0 <= scalar_min < 1 ->
  is_boundary m g = false ->
  dot (corner_p1 m p0 g) (corner_p1 m p0 g) = 1 ->
  dot (corner_p2 m p0 g) (corner_p2 m p0 g) = 1 ->
  dot (corner_p1 m p0 g) (corner_p2 m p0 g) = 0 ->
  dot (cross (corner_p1 m p0 g) (corner_p2 m p0 g)) nf >= threshold ->
  spec_corner_term scalar_min m threshold p0 nf g
  = cross (corner_p1 m p0 g) (corner_p2 m p0 g) *v (PI / 2).
Proof.
  intros Hmin Hb H1 H2 H12 Hacc.
  destruct (right_corner_contribution scalar_min _ _ Hmin H1 H2 H12) as [Hn Hc].
  unfold spec_corner_term. rewrite Hb, Hn, Hc.
  destruct (Rgt_dec 1 scalar_min); [|lra].
  rewrite Rinv_1, vscale_one.
  destruct (Rge_dec _ _); [reflexivity | contradiction].
Qed.

Lemma right_corner_term_reject (scalar_min : Scalar) (m : SurfaceMesh)
    (threshold : Scalar) (p0 nf : Point) (g : Halfedge) :
  0 <= scalar_min < 1 ->
  is_boundary m g = false ->
  dot (corner_p1 m p0 g) (corner_p1 m p0 g) = 1 ->
  dot (corner_p2 m p0 g) (corner_p2 m p0 g) = 1 ->
  dot (corner_p1 m p0 g) (corner_p2 m p0 g) = 0 ->
  dot (cross (corner_p1 m p0 g) (corner_p2 m p0 g)) nf < threshold ->
  spec_corner_term scalar_min m threshold p0 nf g = vzero.
Proof.
  intros Hmin Hb H1 H2 H12 Hrej.
  destruct (right_corner_contribution scalar_min _ _ Hmin H1 H2 H12) as [Hn Hc].
  unfold spec_corner_term. rewrite Hb, Hn.
  destruct (Rgt_dec 1 scalar_min); [|lra].
  rewrite Rinv_1, vscale_one.
  destruct (Rge_dec _ _); [lra | reflexivity].
Qed.

Lemma anchor_normal_unit (scalar_min : Scalar) (m : SurfaceMesh) (h : Halfedge)
    (n : Point) :
  0 <= scalar_min < 1 ->
  cross (corner_p1 m (vread (get_vertex_property m "v:point") (to_vertex m h)) h)
        (corner_p2 m (vread (get_vertex_property m "v:point") (to_vertex m h)) h) = n ->
  dot n n = 1 ->
  anchor_normal scalar_min m h = n.
Proof.
  intros Hmin Hc Hn. unfold anchor_normal. rewrite Hc.
  rewrite <- (vscale_one n) at 1. apply normalize_scaled_unit; try lra.
  apply norm_unit_dot. exact Hn.
Qed.

(** ** Numbers *)

Lemma PI_bounds : 3.13 < PI < 3.15.
Proof.
  pose proof (PI_2_3_7_ineq 1) as [Hlo Hhi].
  unfold sum_f_R0, tg_alt, PI_2_3_7_tg, Ratan_seq in Hlo, Hhi.
  simpl in Hlo, Hhi.
  split; lra.
Qed.

(** The cosine of [45] and of [100], taken as they are. *)
Lemma cos_45_pos : 0 < cos 45.
Proof.
  pose proof PI_bounds as [Hlo Hhi].
  replace 45 with ((45 - 14 * PI) + 2 * INR 7 * PI) by (simpl; lra).
  rewrite cos_period. apply cos_gt_0; lra.
Qed.

Lemma cos_100_pos : 0 < cos 100.
Proof.
  pose proof PI_bounds as [Hlo Hhi].
  replace 100 with ((100 - 32 * PI) + 2 * INR 16 * PI) by (simpl; lra).
  rewrite cos_period. apply cos_gt_0; lra.
Qed.

Lemma cos_179_nonpos : cos 179 <= 0.
Proof.
  pose proof PI_bounds as [Hlo Hhi].
  replace 179 with ((179 - 56 * PI) + 2 * INR 28 * PI) by (simpl; lra).
  rewrite cos_period. apply Rlt_le, cos_lt_0; lra.
Qed.

(** The cosine of 100 degrees. *)
Lemma cos_100_degrees_neg : cos (100 * PI / 180) < 0.
Proof. pose proof PI_bounds as [Hlo Hhi]. apply cos_lt_0; lra. Qed.

Lemma sqrt_3_ge_1 : 1 <= sqrt 3.
Proof. rewrite <- sqrt_1 at 1. apply sqrt_le_1_alt. lra. Qed.

Lemma FLT_MIN_bounds : 0 <= FLT_MIN < 1.
Proof.
  unfold FLT_MIN. split.
  - apply Rlt_le, Rinv_0_lt_compat, pow_lt. lra.
  - rewrite <- Rinv_1. apply Rinv_lt_contravar.
    + rewrite Rmult_1_l. apply pow_lt. lra.
    + apply Rlt_pow_R1; [lra | lia].
Qed.

(** ** Evaluating the operations on a concrete mesh *)

Lemma ring_walk_enough (fuel0 fuel : nat) (rot : Halfedge -> Halfedge) (hend : Halfedge) :
  (fuel0 <= fuel)%nat ->
  forall h l, ring_walk fuel0 rot hend h = Some l -> ring_walk fuel rot hend h = Some l.
Proof.
  revert fuel. induction fuel0 as [|fuel0 IH]; intros fuel Hle h l Hw; [discriminate|].
  destruct fuel as [|fuel]; [lia|]. simpl in *.
  destruct (decide (rot h = hend)); [exact Hw|].
  destruct (ring_walk fuel0 rot hend (rot h)) as [l'|] eqn:Hrec; [|discriminate].
  rewrite (IH fuel ltac:(lia) _ _ Hrec). exact Hw.
Qed.

(** Replaces the reads of positions by the positions. *)
Ltac read_points :=
  unfold corner_p1, corner_p2, vertex_p1, vertex_p2, face_point, anchor_normal in *;
  repeat match goal with
  | |- context [vread ?p ?v] =>
      let q := eval vm_compute in (vread p v) in
      change (vread p v) with q
  end.

Ltac vec_lra := read_points; vec_simpl; lra.

(** Replaces a walk with at least four units of fuel by the ring it visits. *)
Ltac walk_ring fuel :=
  match goal with
  | |- context [ring_walk fuel ?rot ?hend ?h] =>
      let r := eval vm_compute in (ring_walk 4 rot hend h) in
      match r with
      | Some ?l => rewrite (ring_walk_enough 4 fuel rot hend ltac:(lia) h l eq_refl)
      end
  end.

Ltac vertex_term :=
  first
    [ rewrite right_vertex_term by (reflexivity || vec_lra)
    | rewrite boundary_vertex_term by reflexivity ].

Ltac corner_term :=
  first
    [ rewrite right_corner_term_accept by (reflexivity || vec_lra)
    | rewrite right_corner_term_reject by (reflexivity || vec_lra) ].

Ltac each_of Hin :=
  simpl in Hin; repeat (destruct Hin as [<-|Hin]; [|]); try contradiction.

(** ** The cube *)

Section Cube.

Variable scalar_min : Scalar.
Variable fuel : nat.
Hypothesis scalar_min_small : 0 <= scalar_min < 1.
Hypothesis enough_fuel : (4 <= fuel)%nat.

(** The face normals of the cube are the outward axis directions. *)
Lemma cube_face_normals (f : Face) :
  In f (faces cube) ->
  compute_face_normal scalar_min fuel cube f = Ret (cube_face_normal f).
Proof using scalar_min_small enough_fuel.
  intros Hin. each_of Hin.
  all: rewrite compute_face_normal_walk by (unfold is_triangle; simpl; discriminate).
  all: walk_ring fuel.
  all: f_equal.
  all: match goal with |- normalize _ _ = ?n =>
         replace (spec_newell_sum _ _) with (n *v 4)
           by (unfold spec_newell_sum, window_term; simpl length; simpl seq; simpl map;
               read_points; unfold vsum; simpl; vec_ring) end.
  all: apply normalize_scaled_unit; try lra.
  all: apply norm_unit_dot; vec_simpl; ring.
Qed.

(** The vertex normals of the cube are the outward diagonals. *)
Lemma cube_vertex_normals (v : Vertex) :
  In v (vertices cube) ->
  compute_vertex_normal scalar_min fuel cube v = Ret (cube_vertex_normal v).
Proof using scalar_min_small enough_fuel.
  intros Hin. pose proof PI_bounds as Hpi. pose proof sqrt_3_ge_1 as H3.
  each_of Hin.
  all: rewrite compute_vertex_normal_walk by (reflexivity || lra).
  all: walk_ring fuel.
  all: simpl map.
  all: do 3 vertex_term.
  all: f_equal; unfold cube_vertex_normal.
  all: match goal with |- normalize _ _ = ?u *v _ =>
         replace (vsum _) with (u *v (PI / 2))
           by (read_points; unfold vsum; simpl; vec_ring);
         assert (Hu : norm u = sqrt 3)
           by (unfold norm; f_equal; read_points; vec_simpl; ring);
         rewrite <- Hu; apply normalize_scaled; try lra; rewrite Hu; nra
       end.
Qed.

(** With a positive cosine threshold only the face of the corner is accepted. *)
Lemma cube_corner_flat (a : Scalar) (h : Halfedge) :
  0.01 <= a <= 179 -> 0 < cos a ->
  In h cube_halfedges ->
  compute_corner_normal scalar_min fuel cube h a = Ret (cube_face_normal (face cube h)).
Proof using scalar_min_small enough_fuel.
  intros Ha Hcos Hin. pose proof (COS_bound a) as Hb. pose proof PI_bounds as Hpi.
  unfold cube_halfedges in Hin. each_of Hin.
  all: rewrite compute_corner_normal_walk by (reflexivity || lra).
  all: walk_ring fuel.
  all: match goal with |- context [anchor_normal _ _ ?g] =>
         rewrite (anchor_normal_unit scalar_min cube g (cube_face_normal (face cube g)));
           [| lra | read_points; vec_ring | vec_lra ] end.
  all: simpl map.
  all: do 3 corner_term.
  all: f_equal.
  all: match goal with |- normalize _ _ = ?n =>
         replace (vsum _) with (n *v (PI / 2))
           by (read_points; unfold vsum; simpl; vec_ring) end.
  all: apply normalize_scaled_unit; try lra.
  all: apply norm_unit_dot; vec_simpl; ring.
Qed.

(** With a cosine threshold that is not positive all three faces of the
    corner are accepted. *)
Lemma cube_corner_smooth (a : Scalar) (h : Halfedge) :
  0.01 <= a <= 179 -> cos a <= 0 ->
  In h cube_halfedges ->
  compute_corner_normal scalar_min fuel cube h a
  = Ret (cube_vertex_normal (to_vertex cube h)).
Proof using scalar_min_small enough_fuel.
  intros Ha Hcos Hin. pose proof PI_bounds as Hpi. pose proof sqrt_3_ge_1 as H3.
  unfold cube_halfedges in Hin. each_of Hin.
  all: rewrite compute_corner_normal_walk by (reflexivity || lra).
  all: walk_ring fuel.
  all: match goal with |- context [anchor_normal _ _ ?g] =>
         rewrite (anchor_normal_unit scalar_min cube g (cube_face_normal (face cube g)));
           [| lra | read_points; vec_ring | vec_lra ] end.
  all: simpl map.
  all: do 3 (rewrite right_corner_term_accept by (reflexivity || vec_lra)).
  all: f_equal; unfold cube_vertex_normal.
  all: match goal with |- normalize _ _ = ?u *v _ =>
         replace (vsum _) with (u *v (PI / 2))
           by (read_points; unfold vsum; simpl; vec_ring);
         assert (Hu : norm u = sqrt 3)
           by (unfold norm; f_equal; read_points; vec_simpl; ring);
         rewrite <- Hu; apply normalize_scaled; try lra; rewrite Hu; nra
       end.
Qed.

End Cube.

(** No face normal of the cube is a vertex normal of the cube. *)
Lemma cube_normals_differ (f : Face) (v : Vertex) :
  In f (faces cube) -> In v (vertices cube) ->
  cube_face_normal f <> cube_vertex_normal v.
Proof.
  intros Hf Hv Heq. pose proof sqrt_3_ge_1 as H3.
  assert (Hi : 0 < / sqrt 3) by (apply Rinv_0_lt_compat; lra).
  assert (Hc : 0 < / sqrt 3 * / sqrt 3 * / sqrt 3)
    by (repeat apply Rmult_lt_0_compat; exact Hi).
  assert (Hd : px (cube_face_normal f) * py (cube_face_normal f) * pz (cube_face_normal f) = 0).
  { each_of Hf; simpl; ring. }
  rewrite Heq in Hd. clear Heq. unfold cube_vertex_normal in Hd.
  revert Hd. generalize dependent (/ sqrt 3). intros s Hs Hc.
  each_of Hv.
  all: read_points; vec_simpl; intros Hd.
  all: match type of Hd with
       | ?e = 0 =>
           first [ replace e with (s * s * s) in Hd by ring
                 | replace e with (- (s * s * s)) in Hd by ring ]
       end; lra.
Qed.

Lemma cube_halfedge_elements (h : Halfedge) :
  In h cube_halfedges ->
  In (face cube h) (faces cube) /\
  In (to_vertex cube h) (vertices cube) /\
  In (from_vertex cube h) (vertices cube) /\
  is_boundary cube h = false.
Proof.
  intros Hin. unfold cube_halfedges in Hin. each_of Hin.
  all: repeat split; simpl; tauto.
Qed.

(** The two ends of a halfedge of the cube have different vertex normals. *)
Lemma cube_vertex_normals_differ (h : Halfedge) :
  In h cube_halfedges ->
  cube_vertex_normal (to_vertex cube h) <> cube_vertex_normal (from_vertex cube h).
Proof.
  intros Hin Heq. pose proof sqrt_3_ge_1 as H3.
  assert (Hi : 0 < / sqrt 3) by (apply Rinv_0_lt_compat; lra).
  assert (Hsum : dot (cube_vertex_normal (to_vertex cube h)) (mkPoint 1 1 1)
                 = dot (cube_vertex_normal (from_vertex cube h)) (mkPoint 1 1 1))
    by (rewrite Heq; reflexivity).
  clear Heq. unfold cube_vertex_normal in Hsum. revert Hsum.
  generalize dependent (/ sqrt 3). intros s Hs.
  unfold cube_halfedges in Hin. each_of Hin.
  all: read_points; vec_simpl; intros Hsum; lra.
Qed.

Ltac each_halfedge Hh :=
  match type of Hh with
  | in_range _ ?h =>
      destruct h as [|i]; [contradiction|];
      do 24 (destruct i as [|i]; [simpl; split; [lia | reflexivity]|]);
      simpl in Hh; lia
  end.

(** The connectivity of the cube is well formed. *)
Lemma cube_well_formed : well_formed cube 24.
Proof.
  split; [|split; [|split; [|split]]].
  - apply (permutes_of_inverse 24 _ (prev_halfedge cube)).
    intros h Hh. each_halfedge Hh.
  - apply (permutes_of_inverse 24 _
             (fun h => opposite_halfedge cube (prev_halfedge cube h))).
    intros h Hh. each_halfedge Hh.
  - apply (permutes_of_inverse 24 _
             (fun h => prev_halfedge cube (opposite_halfedge cube h))).
    intros h Hh. each_halfedge Hh.
  - intros v Hin _. each_of Hin; simpl; lia.
  - intros f Hin. each_of Hin; simpl; lia.
Qed.

(** The two smooth results are taken at different vertices.  On the cube,
    for a crease angle in [0.01, 179] with a cosine that is not
    positive, such as 179, the corner normal of a halfedge is the vertex
    normal of the vertex the halfedge points to, and for a crease angle above
    179 it is the vertex normal of the vertex the halfedge comes from; these
    two normals differ. *)
Lemma cube_smooth_corner_vertex (scalar_min : Scalar) (fuel : nat) (h : Halfedge) :
  0 <= scalar_min < 1 -> (4 <= fuel)%nat -> In h cube_halfedges ->
  compute_corner_normal scalar_min fuel cube h 179
  = compute_vertex_normal scalar_min fuel cube (to_vertex cube h) /\
  compute_corner_normal scalar_min fuel cube h 180
  = compute_vertex_normal scalar_min fuel cube (from_vertex cube h) /\
  compute_vertex_normal scalar_min fuel cube (to_vertex cube h)
  <> compute_vertex_normal scalar_min fuel cube (from_vertex cube h).
Proof.
  intros Hmin Hfuel Hin.
  destruct (cube_halfedge_elements h Hin) as (_ & Hto & Hfrom & _).
  split; [|split].
  - rewrite (cube_vertex_normals scalar_min fuel Hmin Hfuel _ Hto).
    apply cube_corner_smooth; try assumption; [lra | apply cos_179_nonpos].
  - apply compute_corner_normal_smooth. lra.
  - rewrite !(cube_vertex_normals scalar_min fuel Hmin Hfuel) by assumption.
    intros Heq. apply Ret_inj in Heq. revert Heq.
    apply cube_vertex_normals_differ. exact Hin.
Qed.

(** ** The triangle with a boundary *)

Lemma triangle_vertex_normal (scalar_min : Scalar) (fuel : nat) :
  0 <= scalar_min < 1 -> (4 <= fuel)%nat ->
  compute_vertex_normal scalar_min fuel triangle (V 1) = Ret (mkPoint 0 0 1).
Proof.
  intros Hmin Hfuel. pose proof PI_bounds as Hpi.
  rewrite compute_vertex_normal_walk by (reflexivity || lra).
  walk_ring fuel. simpl map.
  do 2 vertex_term. f_equal.
  replace (vsum _) with (mkPoint 0 0 1 *v (PI / 2))
    by (read_points; unfold vsum; simpl; vec_ring).
  apply normalize_scaled_unit; try lra.
  apply norm_unit_dot; vec_simpl; ring.
Qed.

(** ** Rigid motions *)

Section Rotation.
Variable L : Point -> Point.
Hypothesis HL : rotation L.

Lemma rotation_zero : L vzero = vzero.
Proof using HL.
  rewrite <- (vscale_zero vzero) at 1. rewrite (rotation_scale L HL). apply vscale_zero.
Qed.

Lemma rotation_sub (a b : Point) : L (a -v b) = L a -v L b.
Proof using HL.
  replace (a -v b) with (a +v b *v (-1)) by vec_ring.
  rewrite (rotation_add L HL), (rotation_scale L HL). vec_ring.
Qed.

Lemma rotation_norm (a : Point) : norm (L a) = norm a.
Proof using HL. unfold norm. rewrite (rotation_dot L HL). reflexivity. Qed.

Lemma rotation_normalize (smin : Scalar) (a : Point) :
  normalize smin (L a) = L (normalize smin a).
Proof using HL.
  unfold normalize. rewrite rotation_norm, (rotation_scale L HL). reflexivity.
Qed.

Lemma rotation_vsum {A : Type} (g : A -> Point) (l : list A) :
  vsum (map (fun x => L (g x)) l) = L (vsum (map g l)).
Proof using HL.
  induction l as [|x l IH]; simpl.
  - symmetry. apply rotation_zero.
  - rewrite IH, (rotation_add L HL). reflexivity.
Qed.

Lemma rotation_moved_difference (t a b : Point) :
  (L a +v t) -v (L b +v t) = L (a -v b).
Proof using HL. rewrite rotation_sub. vec_ring. Qed.

Lemma rotation_corner_contribution (smin : Scalar) (p1 p2 : Point) :
  spec_corner_contribution smin (L p1) (L p2)
  = L (spec_corner_contribution smin p1 p2).
Proof using HL.
  unfold spec_corner_contribution, spec_angle.
  rewrite !(rotation_dot L HL), (rotation_cross L HL), rotation_norm.
  destruct (Rle_dec _ _); [symmetry; apply rotation_zero|].
  destruct (Rle_dec _ _); [symmetry; apply rotation_zero|].
  symmetry. apply (rotation_scale L HL).
Qed.

End Rotation.

Lemma vsum_map_ext_in {A : Type} (f g : A -> Point) (l : list A) :
  (forall x, In x l -> f x = g x) -> vsum (map f l) = vsum (map g l).
Proof. intros Hfg. f_equal. apply map_ext_in, Hfg. Qed.

Lemma in_orbit (rot : Halfedge -> Halfedge) (h g : Halfedge) (k : nat) :
  In g (orbit rot h k) -> exists j, (j < k)%nat /\ g = Nat.iter j rot h.
Proof.
  unfold orbit. intros Hin. apply in_map_iff in Hin. destruct Hin as (j & <- & Hj).
  apply in_seq in Hj. exists j. split; [lia | reflexivity].
Qed.

Lemma in_ring_walk (fuel : nat) (rot : Halfedge -> Halfedge) (h g : Halfedge)
    (l : list Halfedge) :
  ring_walk fuel rot h h = Some l -> In g l -> exists j, g = Nat.iter j rot h.
Proof.
  intros Hw Hin. destruct (ring_walk_sound rot h fuel l Hw) as (_ & Hl & _).
  rewrite Hl in Hin. destruct (in_orbit rot h g _ Hin) as (j & _ & Hj).
  exists j. exact Hj.
Qed.

Section Moved.
Variable scalar_min : Scalar.
Variable fuel : nat.
Variable L : Point -> Point.
Variable t : Point.
Variables m m' : SurfaceMesh.
Hypothesis HL : rotation L.
Hypothesis Hconn : same_connectivity m m'.

Lemma moved_vertex_term (v : Vertex) (g : Halfedge) :
  position m' v = L (position m v) +v t ->
  position m' (to_vertex m g) = L (position m (to_vertex m g)) +v t ->
  position m' (from_vertex m (prev_halfedge m g))
  = L (position m (from_vertex m (prev_halfedge m g))) +v t ->
  spec_vertex_term scalar_min m' (position m' v) g
  = L (spec_vertex_term scalar_min m (position m v) g).
Proof using HL Hconn.
  destruct Hconn as (_ & _ & _ & _ & Hto & Hfrom & _ & Hprev & _ & _ & _ & Hb).
  intros Hv H1 H2.
  unfold spec_vertex_term, vertex_p1, vertex_p2.
  rewrite <- Hb, <- Hto, <- Hfrom, <- Hprev.
  fold (position m' (to_vertex m g)).
  fold (position m' (from_vertex m (prev_halfedge m g))).
  rewrite Hv, H1, H2, !(rotation_moved_difference L HL).
  destruct (is_boundary m g); [symmetry; apply (rotation_zero L HL)|].
  apply (rotation_corner_contribution L HL).
Qed.

Lemma moved_vertex_normal (v : Vertex) :
  0 <= scalar_min ->
  (forall u, vertex_reads m v u -> position m' u = L (position m u) +v t) ->
  compute_vertex_normal scalar_min fuel m' v
  = map_result L (compute_vertex_normal scalar_min fuel m v).
Proof using HL Hconn.
  intros Hmin Hpos.
  pose proof Hconn as (_ & _ & Hh & _ & _ & _ & _ & _ & _ & Hcw & _ & _).
  destruct (is_valid (halfedge m v)) eqn:Hv.
  - rewrite !compute_vertex_normal_walk by (try rewrite <- Hh; assumption).
    rewrite <- Hh, <- Hcw.
    destruct (ring_walk fuel (cw_rotated_halfedge m) (halfedge m v) (halfedge m v))
      as [l|] eqn:Hw; [|reflexivity].
    simpl. f_equal. fold (position m' v). fold (position m v).
    rewrite <- (rotation_normalize L HL), <- (rotation_vsum L HL).
    f_equal. apply vsum_map_ext_in. intros g Hg.
    destruct (in_ring_walk _ _ _ _ _ Hw Hg) as (j & ->).
    apply moved_vertex_term; apply Hpos.
    + left. reflexivity.
    + right. exists j. left. reflexivity.
    + right. exists j. right. reflexivity.
  - rewrite !compute_vertex_normal_isolated by (try rewrite <- Hh; assumption).
    simpl. rewrite (rotation_zero L HL). reflexivity.
Qed.

Lemma moved_face_point (f : Face) (j : nat) :
  (forall u, face_reads m f u -> position m' u = L (position m u) +v t) ->
  face_point m' (face_halfedge m f) j = L (face_point m (face_halfedge m f) j) +v t.
Proof using Hconn.
  destruct Hconn as (_ & _ & _ & _ & Hto & _ & Hnext & _).
  intros Hpos. unfold face_point. rewrite <- Hto, <- Hnext. apply Hpos.
  exists j. reflexivity.
Qed.

Lemma moved_window_term (f : Face) (j : nat) :
  (forall u, face_reads m f u -> position m' u = L (position m u) +v t) ->
  window_term (face_point m' (face_halfedge m f)) j
  = L (window_term (face_point m (face_halfedge m f)) j).
Proof using HL Hconn.
  intros Hpos. unfold window_term.
  rewrite !moved_face_point, !(rotation_moved_difference L HL) by exact Hpos.
  apply (rotation_cross L HL).
Qed.

Lemma moved_face_normal (f : Face) :
  (forall u, face_reads m f u -> position m' u = L (position m u) +v t) ->
  compute_face_normal scalar_min fuel m' f
  = map_result L (compute_face_normal scalar_min fuel m f).
Proof using HL Hconn.
  intros Hpos.
  pose proof Hconn as (_ & _ & _ & Hfh & _ & _ & Hnext & _).
  destruct (decide (next_halfedge m (next_halfedge m (next_halfedge m (face_halfedge m f)))
                    = face_halfedge m f)) as [Ht|Ht].
  - rewrite !compute_face_normal_triangle
      by (unfold is_triangle; try rewrite <- Hnext, <- Hfh; exact Ht).
    simpl. f_equal. unfold spec_triangle_normal.
    rewrite <- Hfh.
    change (vread (get_vertex_property m' "v:point") (to_vertex m' (face_halfedge m f)))
      with (face_point m' (face_halfedge m f) 0).
    rewrite !moved_face_point, !(rotation_moved_difference L HL),
      (rotation_cross L HL) by exact Hpos.
    apply (rotation_normalize L HL).
  - rewrite !compute_face_normal_walk
      by (unfold is_triangle; try rewrite <- Hnext, <- Hfh; exact Ht).
    rewrite <- Hnext, <- Hfh.
    destruct (ring_walk fuel (next_halfedge m) _ _); [|reflexivity].
    simpl. f_equal. unfold spec_newell_sum.
    rewrite <- (rotation_normalize L HL), <- (rotation_vsum L HL).
    f_equal. f_equal. apply map_ext. intros j. apply moved_window_term, Hpos.
Qed.

Lemma moved_corner_vectors (v : Vertex) (g : Halfedge) :
  position m' v = L (position m v) +v t ->
  position m' (to_vertex m (next_halfedge m g))
  = L (position m (to_vertex m (next_halfedge m g))) +v t ->
  position m' (from_vertex m g) = L (position m (from_vertex m g)) +v t ->
  corner_p1 m' (position m' v) g = L (corner_p1 m (position m v) g) /\
  corner_p2 m' (position m' v) g = L (corner_p2 m (position m v) g).
Proof using HL Hconn.
  destruct Hconn as (_ & _ & _ & _ & Hto & Hfrom & Hnext & _).
  intros Hv H1 H2.
  unfold corner_p1, corner_p2. rewrite <- Hto, <- Hfrom, <- Hnext.
  fold (position m' (to_vertex m (next_halfedge m g))).
  fold (position m' (from_vertex m g)).
  rewrite Hv, H1, H2, !(rotation_moved_difference L HL). split; reflexivity.
Qed.

Lemma moved_anchor_normal (h : Halfedge) :
  (forall u, corner_reads m h u -> position m' u = L (position m u) +v t) ->
  anchor_normal scalar_min m' h = L (anchor_normal scalar_min m h).
Proof using HL Hconn.
  pose proof Hconn as (_ & _ & _ & _ & Hto & _).
  intros Hpos. unfold anchor_normal. rewrite <- Hto.
  fold (position m' (to_vertex m h)). fold (position m (to_vertex m h)).
  destruct (moved_corner_vectors (to_vertex m h) h) as [-> ->].
  - apply Hpos. left. reflexivity.
  - apply Hpos. right. exists 0%nat. left. reflexivity.
  - apply Hpos. right. exists 0%nat. right. reflexivity.
  - rewrite (rotation_cross L HL). apply (rotation_normalize L HL).
Qed.

Lemma moved_corner_term (threshold : Scalar) (v : Vertex) (nf : Point) (g : Halfedge) :
  position m' v = L (position m v) +v t ->
  position m' (to_vertex m (next_halfedge m g))
  = L (position m (to_vertex m (next_halfedge m g))) +v t ->
  position m' (from_vertex m g) = L (position m (from_vertex m g)) +v t ->
  spec_corner_term scalar_min m' threshold (position m' v) (L nf) g
  = L (spec_corner_term scalar_min m threshold (position m v) nf g).
Proof using HL Hconn.
  pose proof Hconn as (_ & _ & _ & _ & _ & _ & _ & _ & _ & _ & _ & Hb).
  intros Hv H1 H2.
  unfold spec_corner_term. rewrite <- Hb.
  destruct (moved_corner_vectors v g Hv H1 H2) as [-> ->].
  rewrite (rotation_cross L HL), (rotation_norm L HL).
  rewrite <- (rotation_scale L HL), (rotation_dot L HL).
  rewrite (rotation_corner_contribution L HL).
  destruct (is_boundary m g); [symmetry; apply (rotation_zero L HL)|].
  destruct (Rgt_dec _ _); [|symmetry; apply (rotation_zero L HL)].
  destruct (Rge_dec _ _); [reflexivity | symmetry; apply (rotation_zero L HL)].
Qed.

Lemma moved_corner_normal (h : Halfedge) (a : Scalar) :
  0 <= scalar_min ->
  (forall u, corner_normal_reads m h a u -> position m' u = L (position m u) +v t) ->
  compute_corner_normal scalar_min fuel m' h a
  = map_result L (compute_corner_normal scalar_min fuel m h a).
Proof using HL Hconn.
  intros Hmin Hpos. unfold corner_normal_reads in Hpos.
  pose proof Hconn as (_ & _ & _ & _ & Hto & Hfrom & Hnext & _ & Hopp & _ & Hface & Hb).
  destruct (Rlt_dec a 0.01) as [Hlo|Hlo].
  { rewrite !compute_corner_normal_flat by assumption.
    rewrite <- Hface. apply moved_face_normal. exact Hpos. }
  destruct (Rgt_dec a 179) as [Hhi|Hhi].
  { rewrite !compute_corner_normal_smooth by assumption.
    rewrite <- Hfrom. apply moved_vertex_normal; assumption. }
  destruct (is_boundary m h) eqn:Hbh.
  - rewrite !compute_corner_normal_boundary by (try rewrite <- Hb; assumption || lra).
    simpl. rewrite (rotation_zero L HL). reflexivity.
  - rewrite !compute_corner_normal_walk by (try rewrite <- Hb; assumption || lra).
    unfold corner_rotation. rewrite <- Hopp, <- Hnext, <- Hto.
    fold (corner_rotation m).
    destruct (ring_walk fuel (corner_rotation m) h h) as [l|] eqn:Hw; [|reflexivity].
    simpl. f_equal.
    fold (position m' (to_vertex m h)). fold (position m (to_vertex m h)).
    rewrite (moved_anchor_normal h Hpos).
    rewrite <- (rotation_normalize L HL), <- (rotation_vsum L HL).
    f_equal. apply vsum_map_ext_in. intros g Hg.
    destruct (in_ring_walk _ _ _ _ _ Hw Hg) as (j & ->).
    apply moved_corner_term; apply Hpos.
    + left. reflexivity.
    + right. exists j. left. reflexivity.
    + right. exists j. right. reflexivity.
Qed.

End Moved.

(** ** Rings entered at another halfedge *)

Lemma iter_period (rot : Halfedge -> Halfedge) (h : Halfedge) (k : nat) :
  Nat.iter k rot h = h -> forall c j, Nat.iter (j + c * k) rot h = Nat.iter j rot h.
Proof.
  intros Hback c j. induction c as [|c IH].
  - f_equal. lia.
  - replace (j + S c * k)%nat with ((j + c * k) + k)%nat by lia.
    rewrite Nat.iter_add, Hback. exact IH.
Qed.

Lemma iter_mod (rot : Halfedge -> Halfedge) (h : Halfedge) (k j : nat) :
  (0 < k)%nat -> Nat.iter k rot h = h ->
  Nat.iter j rot h = Nat.iter (j mod k) rot h.
Proof.
  intros Hk Hback.
  pose proof (iter_period rot h k Hback (j / k) (j mod k)) as Hp.
  replace (j mod k + j / k * k)%nat with j in Hp
    by (pose proof (Nat.div_mod_eq j k); lia).
  exact Hp.
Qed.

Lemma map_seq_shift {A : Type} (F : nat -> A) (i k : nat) :
  forall s, map (fun j => F (j + i)%nat) (seq s k) = map F (seq (s + i) k).
Proof.
  induction k as [|k IH]; intros s; [reflexivity|].
  simpl. f_equal. apply (IH (S s)).
Qed.

(** A full turn is a full turn from each of its halfedges. *)
Lemma full_turn_from (rot : Halfedge -> Halfedge) (h : Halfedge) (k i : nat) :
  full_turn rot h k -> full_turn rot (Nat.iter i rot h) k.
Proof.
  intros Hturn. pose proof Hturn as (Hk & Hback & _).
  rewrite (iter_mod rot h k i Hk Hback).
  apply full_turn_shift; [exact Hturn|].
  pose proof (Nat.mod_upper_bound i k). lia.
Qed.

Lemma vsum_periodic (F : nat -> Point) (k : nat) :
  (forall j, F (j + k)%nat = F j) ->
  forall i, vsum (map F (seq i k)) = vsum (map F (seq 0 k)).
Proof.
  intros Hper. induction i as [|i IH]; [reflexivity|].
  rewrite <- IH. destruct k as [|k]; [reflexivity|].
  rewrite seq_S, map_app, vsum_app. simpl.
  replace (S (i + k)) with (i + S k)%nat by lia. rewrite Hper.
  rewrite vadd_zero_r. apply vadd_comm.
Qed.

Lemma orbit_from (rot : Halfedge -> Halfedge) (h : Halfedge) (k i : nat) :
  orbit rot (Nat.iter i rot h) k = map (fun j => Nat.iter j rot h) (seq i k).
Proof.
  unfold orbit.
  change (seq i k) with (seq (0 + i) k).
  rewrite <- (map_seq_shift (fun j => Nat.iter j rot h) i k 0).
  apply map_ext. intros j. symmetry. apply Nat.iter_add.
Qed.

(** The sum over a ring does not depend on the halfedge at which the ring is
    entered. *)
Lemma vsum_orbit_from (g : Halfedge -> Point) (rot : Halfedge -> Halfedge)
    (h : Halfedge) (k i : nat) :
  Nat.iter k rot h = h ->
  vsum (map g (orbit rot (Nat.iter i rot h) k)) = vsum (map g (orbit rot h k)).
Proof.
  intros Hback. rewrite orbit_from. unfold orbit. rewrite !map_map.
  apply (vsum_periodic (fun j => g (Nat.iter j rot h))).
  intros j. rewrite Nat.iter_add, Hback. reflexivity.
Qed.

Lemma closes_full_turn (fuel : nat) (rot : Halfedge -> Halfedge) (h : Halfedge) :
  closes fuel rot h -> exists k, full_turn rot h k /\ (k <= fuel)%nat.
Proof.
  intros [l Hl]. destruct (ring_walk_sound rot h fuel l Hl) as (Hturn & _ & Hlen).
  exists (length l). split; assumption.
Qed.

Section Start.
Variable scalar_min : Scalar.
Variable fuel : nat.
Variable m : SurfaceMesh.

Lemma compute_vertex_normal_full_turn (v : Vertex) (k : nat) :
  0 <= scalar_min -> is_valid (halfedge m v) = true ->
  full_turn (cw_rotated_halfedge m) (halfedge m v) k -> (k <= fuel)%nat ->
  compute_vertex_normal scalar_min fuel m v
  = Ret (normalize scalar_min
           (vsum (map (spec_vertex_term scalar_min m (position m v))
                      (orbit (cw_rotated_halfedge m) (halfedge m v) k)))).
Proof.
  intros Hmin Hv Hturn Hfuel.
  rewrite compute_vertex_normal_walk by assumption.
  rewrite (ring_walk_full_turn _ _ k fuel Hturn Hfuel). reflexivity.
Qed.

(** The windows of a face whose halfedges come back after three steps are all
    the same. *)
Lemma window_term_period_3 (q : nat -> Point) :
  (forall j, q (j + 3)%nat = q j) -> forall i, window_term q i = window_term q 0.
Proof.
  intros Hper. induction i as [|i IH]; [reflexivity|].
  rewrite <- IH. unfold window_term.
  replace (S i + 2)%nat with (i + 3)%nat by lia.
  replace (S i + 1)%nat with (i + 2)%nat by lia.
  replace (S i) with (i + 1)%nat by lia.
  rewrite Hper. vec_ring.
Qed.

Lemma is_triangle_from (f : Face) (N i : nat) :
  full_turn (next_halfedge m) (face_halfedge m f) N ->
  let h' := Nat.iter i (next_halfedge m) (face_halfedge m f) in
  Nat.iter 3 (next_halfedge m) h' = h' <-> is_triangle m f.
Proof.
  intros Hturn h'. unfold is_triangle.
  change (next_halfedge m (next_halfedge m (next_halfedge m (face_halfedge m f))))
    with (Nat.iter 3 (next_halfedge m) (face_halfedge m f)).
  pose proof Hturn as (HN & Hback & _).
  split; intros H3.
  - unfold h' in H3. rewrite <- Nat.iter_add in H3.
    assert (Hi : exists c, (i <= c * N)%nat).
    { exists i. nia. }
    destruct Hi as (c & Hc).
    apply (f_equal (Nat.iter (c * N - i) (next_halfedge m))) in H3.
    rewrite <- !Nat.iter_add in H3.
    replace (c * N - i + (3 + i))%nat with (3 + c * N)%nat in H3 by lia.
    replace (c * N - i + i)%nat with (0 + c * N)%nat in H3 by lia.
    rewrite !(iter_period _ _ N Hback) in H3. exact H3.
  - unfold h'. rewrite <- Nat.iter_add.
    replace (3 + i)%nat with (i + 3)%nat by lia.
    rewrite Nat.iter_add, H3. reflexivity.
Qed.

Lemma compute_face_normal_full_turn (f : Face) (N : nat) :
  full_turn (next_halfedge m) (face_halfedge m f) N -> (N <= fuel)%nat ->
  ~ is_triangle m f ->
  compute_face_normal scalar_min fuel m f
  = Ret (normalize scalar_min (spec_newell_sum (face_point m (face_halfedge m f)) N)).
Proof.
  intros Hturn Hfuel Hnt.
  rewrite compute_face_normal_walk by exact Hnt.
  pose proof (full_turn_from _ _ N 2 Hturn) as Hturn2. simpl in Hturn2.
  rewrite (ring_walk_full_turn _ _ N fuel Hturn2 Hfuel), orbit_length.
  reflexivity.
Qed.

Lemma face_point_from (h0 : Halfedge) (i j : nat) :
  face_point m (Nat.iter i (next_halfedge m) h0) j = face_point m h0 (j + i).
Proof. unfold face_point. rewrite Nat.iter_add. reflexivity. Qed.

Lemma window_term_from (h0 : Halfedge) (i j : nat) :
  window_term (face_point m (Nat.iter i (next_halfedge m) h0)) j
  = window_term (face_point m h0) (j + i).
Proof.
  unfold window_term. rewrite !face_point_from.
  replace (j + 2 + i)%nat with (j + i + 2)%nat by lia.
  replace (j + 1 + i)%nat with (j + i + 1)%nat by lia.
  reflexivity.
Qed.

End Start.



(** ** The corner ring and the vertex ring *)

Lemma dot_unit_lower (a b : Point) :
  norm a = 1 -> b = vzero \/ norm b = 1 -> dot a b >= -1.
Proof.
  intros Ha Hb.
  assert (Haa : dot a a = 1).
  { unfold norm in Ha. rewrite <- (sqrt_sqrt (dot a a)) by apply dot_self_nonneg.
    rewrite Ha. ring. }
  destruct Hb as [-> | Hb].
  - vec_simpl. lra.
  - assert (Hbb : dot b b = 1).
    { unfold norm in Hb. rewrite <- (sqrt_sqrt (dot b b)) by apply dot_self_nonneg.
      rewrite Hb. ring. }
    pose proof (dot_self_nonneg (a +v b)) as Hs.
    replace (dot (a +v b) (a +v b)) with (dot a a + dot b b + 2 * dot a b) in Hs
      by (vec_simpl; ring).
    lra.
Qed.

Lemma norm_normalized (v : Point) : 0 < norm v -> norm (v *v (/ norm v)) = 1.
Proof.
  intros Hv. rewrite norm_vscale by (left; apply Rinv_0_lt_compat; exact Hv).
  field. lra.
Qed.

Section CornerRing.
Variable scalar_min : Scalar.
Variable fuel : nat.
Variable m : SurfaceMesh.
Variable h : Halfedge.
Hypothesis scalar_min_nonneg : 0 <= scalar_min.
Hypothesis consistent : ring_consistent m h.

Lemma next_of_corner_ring (j : nat) :
  next_halfedge m (Nat.iter j (corner_rotation m) h)
  = Nat.iter j (cw_rotated_halfedge m) (next_halfedge m h).
Proof using consistent.
  induction j as [|j IH]; [reflexivity|].
  simpl. rewrite <- IH. destruct (consistent j) as (_ & _ & Hcw).
  simpl in Hcw. rewrite Hcw. reflexivity.
Qed.

Lemma corner_ring_injective (j : nat) :
  next_halfedge m (Nat.iter j (corner_rotation m) h) = next_halfedge m h ->
  Nat.iter j (corner_rotation m) h = h.
Proof using consistent.
  intros Heq. destruct (consistent j) as (Hp & _). destruct (consistent 0%nat) as (Hp0 & _).
  simpl in Hp, Hp0. rewrite <- Hp, Heq. exact Hp0.
Qed.

Lemma vertex_ring_of_corner_ring (k : nat) :
  full_turn (corner_rotation m) h k ->
  full_turn (cw_rotated_halfedge m) (next_halfedge m h) k.
Proof using consistent.
  intros (Hk & Hback & Hfirst). split; [exact Hk|]. split.
  - rewrite <- next_of_corner_ring, Hback. reflexivity.
  - intros j Hj Heq. apply (Hfirst j Hj), corner_ring_injective.
    rewrite next_of_corner_ring. exact Heq.
Qed.

Lemma vertex_term_of_corner (p0 : Point) (j : nat) :
  spec_vertex_term scalar_min m p0 (next_halfedge m (Nat.iter j (corner_rotation m) h))
  = if is_boundary m (Nat.iter j (corner_rotation m) h) then vzero
    else spec_corner_contribution scalar_min
           (corner_p1 m p0 (Nat.iter j (corner_rotation m) h))
           (corner_p2 m p0 (Nat.iter j (corner_rotation m) h)).
Proof using consistent.
  destruct (consistent j) as (Hp & Hb & _). simpl in Hp, Hb.
  unfold spec_vertex_term, vertex_p1, vertex_p2, corner_p1, corner_p2.
  rewrite Hp, Hb. reflexivity.
Qed.

Lemma corner_term_accepted (threshold : Scalar) (j : nat) :
  ring_within_crease scalar_min m h threshold ->
  spec_corner_term scalar_min m threshold (position m (to_vertex m h))
    (anchor_normal scalar_min m h) (Nat.iter j (corner_rotation m) h)
  = spec_vertex_term scalar_min m (position m (to_vertex m h))
      (next_halfedge m (Nat.iter j (corner_rotation m) h)).
Proof using consistent.
  intros Hin. rewrite vertex_term_of_corner. unfold spec_corner_term.
  specialize (Hin j). simpl in Hin.
  destruct (is_boundary m (Nat.iter j (corner_rotation m) h)); [reflexivity|].
  destruct (Rgt_dec _ _) as [Hn|Hn].
  - destruct (Hin eq_refl Hn) as (_ & Hacc).
    destruct (Rge_dec _ _); [reflexivity | contradiction].
  - unfold spec_corner_contribution.
    destruct (Rle_dec (sqrt _) _); [reflexivity|].
    destruct (Rle_dec (norm _) _); [reflexivity | lra].
Qed.

Lemma within_crease_of_cosine (threshold : Scalar) :
  threshold <= -1 -> ring_within_crease scalar_min m h threshold.
Proof using scalar_min_nonneg.
  intros Ht j g p0 _ Hn. split; [exact Hn|].
  assert (Hlow : dot (cross (corner_p1 m p0 g) (corner_p2 m p0 g)
                      *v (/ norm (cross (corner_p1 m p0 g) (corner_p2 m p0 g))))
                     (anchor_normal scalar_min m h) >= -1).
  { apply dot_unit_lower.
    - apply norm_normalized. lra.
    - apply normalize_zero_or_unit. exact scalar_min_nonneg. }
  lra.
Qed.

Lemma corner_normal_of_vertex_ring (crease_angle : Scalar) (i : nat) :
  0.01 <= crease_angle <= 179 ->
  is_boundary m h = false ->
  closes fuel (corner_rotation m) h ->
  halfedge m (to_vertex m h)
  = Nat.iter i (cw_rotated_halfedge m) (next_halfedge m h) ->
  is_valid (halfedge m (to_vertex m h)) = true ->
  ring_within_crease scalar_min m h (cos crease_angle) ->
  compute_corner_normal scalar_min fuel m h crease_angle
  = compute_vertex_normal scalar_min fuel m (to_vertex m h).
Proof using scalar_min_nonneg consistent.
  intros Ha Hb Hc Hstart Hv Hin.
  destruct (closes_full_turn _ _ _ Hc) as (k & Hturn & Hfuel).
  pose proof (vertex_ring_of_corner_ring k Hturn) as Hvturn.
  rewrite (compute_vertex_normal_full_turn scalar_min fuel m (to_vertex m h) k)
    by (assumption || (rewrite Hstart; apply full_turn_from; assumption)).
  rewrite compute_corner_normal_walk by assumption.
  rewrite (ring_walk_full_turn _ _ k fuel Hturn Hfuel).
  do 2 f_equal. rewrite Hstart.
  destruct Hvturn as (_ & Hback & _).
  rewrite (vsum_orbit_from _ _ _ k i Hback).
  unfold orbit. rewrite !map_map. f_equal. apply map_ext. intros j.
  rewrite <- next_of_corner_ring.
  apply (corner_term_accepted (cos crease_angle) j Hin).
Qed.

End CornerRing.

(** ** Flat neighbourhoods *)

Lemma spec_angle_nonneg (p1 p2 : Point) : 0 <= spec_angle p1 p2.
Proof. unfold spec_angle. apply acos_bound. Qed.

Lemma norm_unit_multiple (nu : Point) (c : Scalar) :
  dot nu nu = 1 -> 0 <= c -> norm (nu *v c) = c.
Proof.
  intros Hnu Hc. rewrite norm_vscale by exact Hc.
  rewrite (norm_unit_dot nu Hnu). ring.
Qed.

Lemma normalize_unit_multiple (scalar_min : Scalar) (nu : Point) (W : Scalar) :
  0 <= scalar_min -> dot nu nu = 1 -> 0 <= W ->
  normalize scalar_min (nu *v W) = if Rgt_dec W scalar_min then nu else vzero.
Proof.
  intros Hmin Hnu HW. destruct (Rgt_dec W scalar_min) as [Hgt|Hle].
  - apply normalize_scaled_unit; [apply norm_unit_dot; exact Hnu | lra | lra].
  - unfold normalize. rewrite (norm_unit_multiple nu W Hnu HW).
    destruct (Rgt_dec W scalar_min); [contradiction|]. vec_ring.
Qed.

(** The weight with which a corner is counted. *)
Lemma flat_corner_contribution (scalar_min : Scalar) (nu p1 p2 : Point) :
  0 <= scalar_min -> dot nu nu = 1 -> flat_corner nu p1 p2 ->
  exists w, spec_corner_contribution scalar_min p1 p2 = nu *v w /\ 0 <= w /\
            (counted_corner scalar_min p1 p2 -> scalar_min < w).
Proof.
  intros Hmin Hnu (H1 & H2 & Hc).
  pose proof (in_plane_cross p1 p2 nu Hnu H1 H2) as Hcross.
  unfold spec_corner_contribution.
  destruct (Rle_dec (sqrt (dot p1 p1 * dot p2 p2)) scalar_min) as [Hd|Hd].
  { exists 0. split; [vec_ring|]. split; [lra|]. intros (Hs & _). lra. }
  destruct (Rle_dec (norm (cross p1 p2)) scalar_min) as [Hn|Hn].
  { exists 0. split; [vec_ring|]. split; [lra|]. intros (_ & Hs & _). lra. }
  exists (spec_angle p1 p2). split; [|split].
  - assert (Hnorm : norm (cross p1 p2) = dot (cross p1 p2) nu).
    { rewrite Hcross at 1. apply norm_unit_multiple; assumption. }
    rewrite Hnorm. rewrite Hcross at 1. rewrite vscale_vscale. f_equal.
    field. rewrite <- Hnorm. lra.
  - apply spec_angle_nonneg.
  - intros (_ & _ & Ha). lra.
Qed.

Lemma vsum_unit_multiples {A : Type} (nu : Point) (term : A -> Point) (l : list A) :
  (forall g, In g l -> exists w, term g = nu *v w /\ 0 <= w) ->
  exists W, vsum (map term l) = nu *v W /\ 0 <= W /\
            forall g w, In g l -> term g = nu *v w -> dot nu nu = 1 -> w <= W.
Proof.
  induction l as [|g l IH]; intros Hall.
  - exists 0. split; [simpl; vec_ring|]. split; [lra|]. intros g w [].
  - destruct (Hall g (or_introl eq_refl)) as (w0 & Hw0 & Hw0pos).
    destruct IH as (W & HW & HWpos & Hmax).
    { intros g' Hg'. apply Hall. right. exact Hg'. }
    exists (w0 + W). split; [|split].
    + simpl. rewrite HW, Hw0. vec_ring.
    + lra.
    + intros g' w [<-|Hin] Hterm Hnu.
      * assert (w = w0); [|lra].
        rewrite Hw0 in Hterm. apply (f_equal (fun p => dot p nu)) in Hterm.
        revert Hterm. replace (dot (nu *v w0) nu) with (w0 * dot nu nu) by (vec_simpl; ring).
        replace (dot (nu *v w) nu) with (w * dot nu nu) by (vec_simpl; ring).
        rewrite Hnu. lra.
      * pose proof (Hmax g' w Hin Hterm Hnu). lra.
Qed.

Section Flat.
Variable scalar_min : Scalar.
Variable fuel : nat.
Variable m : SurfaceMesh.
Variable nu : Point.
Hypothesis scalar_min_nonneg : 0 <= scalar_min.

Lemma flat_vertex_term (v : Vertex) (j : nat) :
  flat_vertex_ring m v nu ->
  let g := Nat.iter j (cw_rotated_halfedge m) (halfedge m v) in
  exists w, spec_vertex_term scalar_min m (position m v) g = nu *v w /\ 0 <= w /\
            (is_boundary m g = false ->
             counted_corner scalar_min (vertex_p1 m (position m v) g)
                                       (vertex_p2 m (position m v) g) ->
             scalar_min < w).
Proof using scalar_min_nonneg.
  intros (Hnu & Hflat) g. specialize (Hflat j). fold g in Hflat.
  cbv zeta in Hflat.
  unfold spec_vertex_term. destruct (is_boundary m g) eqn:Hbg.
  - exists 0. split; [vec_ring|]. split; [lra | discriminate].
  - destruct (flat_corner_contribution scalar_min nu _ _ scalar_min_nonneg Hnu
                (Hflat eq_refl)) as (w & Hw & Hpos & Hc).
    exists w. split; [exact Hw|]. split; [exact Hpos|]. intros _. exact Hc.
Qed.

Lemma flat_vertex_normal (v : Vertex) :
  is_valid (halfedge m v) = true ->
  closes fuel (cw_rotated_halfedge m) (halfedge m v) ->
  flat_vertex_ring m v nu ->
  (exists n, compute_vertex_normal scalar_min fuel m v = Ret n /\
             (n = vzero \/ n = nu)) /\
  ((exists j, let g := Nat.iter j (cw_rotated_halfedge m) (halfedge m v) in
              is_boundary m g = false /\
              counted_corner scalar_min (vertex_p1 m (position m v) g)
                                        (vertex_p2 m (position m v) g)) ->
   compute_vertex_normal scalar_min fuel m v = Ret nu).
Proof using scalar_min_nonneg.
  intros Hv Hc Hflat. pose proof Hflat as (Hnu & _).
  destruct (closes_full_turn _ _ _ Hc) as (k & Hturn & Hfuel).
  rewrite (compute_vertex_normal_full_turn scalar_min fuel m v k) by assumption.
  destruct (vsum_unit_multiples nu (spec_vertex_term scalar_min m (position m v))
              (orbit (cw_rotated_halfedge m) (halfedge m v) k))
    as (W & HW & HWpos & Hmax).
  { intros g Hg. destruct (in_orbit _ _ _ _ Hg) as (j & _ & ->).
    destruct (flat_vertex_term v j Hflat) as (w & Hw & Hpos & _).
    exists w. split; assumption. }
  rewrite HW, (normalize_unit_multiple scalar_min nu W scalar_min_nonneg Hnu HWpos).
  split.
  - eexists. split; [reflexivity|]. destruct (Rgt_dec W scalar_min); [right|left]; reflexivity.
  - intros (j & Hb & Hcount).
    pose proof Hturn as (Hk & Hback & _).
    rewrite (iter_mod _ _ k j Hk Hback) in Hb, Hcount.
    destruct (flat_vertex_term v (j mod k) Hflat) as (w & Hw & _ & Hgt).
    specialize (Hgt Hb Hcount).
    assert (Hle : w <= W).
    { apply (Hmax (Nat.iter (j mod k) (cw_rotated_halfedge m) (halfedge m v)));
        [|exact Hw | exact Hnu].
      unfold orbit. apply in_map_iff. exists (j mod k)%nat. split; [reflexivity|].
      apply in_seq. pose proof (Nat.mod_upper_bound j k). lia. }
    destruct (Rgt_dec W scalar_min); [reflexivity | lra].
Qed.

Lemma flat_anchor (h : Halfedge) :
  flat_corner_ring m h nu -> is_boundary m h = false ->
  norm (cross (corner_p1 m (position m (to_vertex m h)) h)
              (corner_p2 m (position m (to_vertex m h)) h)) > scalar_min ->
  anchor_normal scalar_min m h = nu.
Proof using scalar_min_nonneg.
  intros (Hnu & Hflat) Hb Hn. destruct (Hflat 0%nat Hb) as (H1 & H2 & Hc). simpl in *.
  unfold anchor_normal. fold (position m (to_vertex m h)).
  pose proof (in_plane_cross _ _ nu Hnu H1 H2) as Hcross.
  rewrite Hcross in Hn |- *.
  rewrite (norm_unit_multiple nu _ Hnu Hc) in Hn.
  rewrite (normalize_unit_multiple scalar_min nu _ scalar_min_nonneg Hnu Hc).
  destruct (Rgt_dec _ _); [reflexivity | contradiction].
Qed.

Lemma flat_corner_term (threshold : Scalar) (h : Halfedge) (j : nat) :
  flat_corner_ring m h nu -> threshold <= 1 ->
  let g := Nat.iter j (corner_rotation m) h in
  let p0 := position m (to_vertex m h) in
  exists w, spec_corner_term scalar_min m threshold p0 nu g = nu *v w /\ 0 <= w /\
            (is_boundary m g = false ->
             counted_corner scalar_min (corner_p1 m p0 g) (corner_p2 m p0 g) ->
             scalar_min < w).
Proof using scalar_min_nonneg.
  intros (Hnu & Hflat) Ht g p0. specialize (Hflat j). fold g p0 in Hflat.
  cbv zeta in Hflat.
  unfold spec_corner_term. destruct (is_boundary m g) eqn:Hbg.
  { exists 0. split; [vec_ring|]. split; [lra | discriminate]. }
  specialize (Hflat eq_refl). pose proof Hflat as (H1 & H2 & Hc).
  destruct (Rgt_dec _ _) as [Hn|Hn].
  - destruct (Rge_dec _ _) as [Hacc|Hrej].
    + destruct (flat_corner_contribution scalar_min nu _ _ scalar_min_nonneg Hnu Hflat)
        as (w & Hw & Hpos & Hcount).
      exists w. split; [exact Hw|]. split; [exact Hpos|]. intros _. exact Hcount.
    + exfalso. apply Hrej.
      pose proof (in_plane_cross _ _ nu Hnu H1 H2) as Hcross.
      assert (Hnorm : norm (cross (corner_p1 m p0 g) (corner_p2 m p0 g))
                      = dot (cross (corner_p1 m p0 g) (corner_p2 m p0 g)) nu).
      { rewrite Hcross at 1. apply norm_unit_multiple; assumption. }
      rewrite Hnorm in Hn |- *. rewrite Hcross at 1.
      set (c := dot (cross (corner_p1 m p0 g) (corner_p2 m p0 g)) nu) in *.
      replace (dot (nu *v c *v / c) nu) with (c * / c * dot nu nu) by (vec_simpl; ring).
      rewrite Hnu, Rinv_r by lra. lra.
  - exists 0. split; [vec_ring|]. split; [lra|]. intros _ (_ & Hs & _). lra.
Qed.

Lemma flat_corner_normal (h : Halfedge) (crease_angle : Scalar) :
  0.01 <= crease_angle <= 179 ->
  is_boundary m h = false ->
  closes fuel (corner_rotation m) h ->
  flat_corner_ring m h nu ->
  counted_corner scalar_min (corner_p1 m (position m (to_vertex m h)) h)
                            (corner_p2 m (position m (to_vertex m h)) h) ->
  compute_corner_normal scalar_min fuel m h crease_angle = Ret nu.
Proof using scalar_min_nonneg.
  intros Ha Hb Hc Hflat Hcount. pose proof Hflat as (Hnu & _).
  destruct (closes_full_turn _ _ _ Hc) as (k & Hturn & Hfuel).
  rewrite compute_corner_normal_walk by assumption.
  rewrite (ring_walk_full_turn _ _ k fuel Hturn Hfuel).
  fold (position m (to_vertex m h)).
  rewrite (flat_anchor h Hflat Hb) by apply Hcount.
  assert (Hcos : cos crease_angle <= 1) by apply COS_bound.
  destruct (vsum_unit_multiples nu
              (spec_corner_term scalar_min m (cos crease_angle)
                 (position m (to_vertex m h)) nu)
              (orbit (corner_rotation m) h k))
    as (W & HW & HWpos & Hmax).
  { intros g Hg. destruct (in_orbit _ _ _ _ Hg) as (j & _ & ->).
    destruct (flat_corner_term (cos crease_angle) h j Hflat Hcos) as (w & Hw & Hpos & _).
    exists w. split; assumption. }
  rewrite HW, (normalize_unit_multiple scalar_min nu W scalar_min_nonneg Hnu HWpos).
  destruct (flat_corner_term (cos crease_angle) h 0 Hflat Hcos) as (w & Hw & _ & Hgt).
  simpl in Hw, Hgt. specialize (Hgt Hb Hcount).
  assert (Hle : w <= W).
  { apply (Hmax h); [|exact Hw | exact Hnu].
    unfold orbit. apply in_map_iff. exists 0%nat. split; [reflexivity|].
    apply in_seq. destruct Hturn. lia. }
  destruct (Rgt_dec W scalar_min); [reflexivity | lra].
Qed.

Lemma dot_unit_multiple (c : Scalar) : dot nu nu = 1 -> dot (nu *v c) nu = c.
Proof.
  intros Hnu. replace (dot (nu *v c) nu) with (c * dot nu nu) by (vec_simpl; ring).
  rewrite Hnu. ring.
Qed.

Lemma flat_face_normal (f : Face) (N : nat) :
  let q := face_point m (face_halfedge m f) in
  let area := if decide (N = 3%nat) then window_term q 0 else spec_newell_sum q N in
  full_turn (next_halfedge m) (face_halfedge m f) N ->
  (3 <= N)%nat -> (N <= fuel)%nat ->
  planar_convex q N nu ->
  compute_face_normal scalar_min fuel m f
  = Ret (if Rgt_dec (dot area nu) scalar_min then nu else vzero).
Proof using scalar_min_nonneg.
  intros q area Hturn HN Hfuel Hconvex. pose proof Hconvex as (Hnu & Hplane & Hleft).
  assert (Hper : forall j, q (j + N)%nat = q j).
  { intros j. apply face_point_periodic. exact Hturn. }
  unfold area. destruct (decide (N = 3%nat)) as [->|HN3].
  - assert (Ht : is_triangle m f).
    { destruct Hturn as (_ & Hback & _). exact Hback. }
    rewrite (compute_face_normal_triangle scalar_min fuel m f Ht).
    unfold spec_triangle_normal. fold q.
    change (cross (q 2%nat -v q 1%nat) (q 0%nat -v q 1%nat)) with (window_term q 0).
    assert (Hc : 0 <= dot (window_term q 0) nu).
    { apply (Hleft 1%nat 0%nat); lia. }
    assert (Hw : window_term q 0 = nu *v dot (window_term q 0) nu).
    { unfold window_term. apply in_plane_cross; [exact Hnu | |].
      - pose proof (Hplane 1%nat ltac:(lia)) as H1. pose proof (Hplane 2%nat ltac:(lia)) as H2.
        revert H1 H2. simpl. vec_simpl. lra.
      - pose proof (Hplane 1%nat ltac:(lia)) as H1.
        revert H1. simpl. vec_simpl. lra. }
    rewrite Hw at 1.
    rewrite (normalize_unit_multiple scalar_min nu _ scalar_min_nonneg Hnu Hc).
    reflexivity.
  - assert (Hnt : ~ is_triangle m f).
    { unfold is_triangle. destruct Hturn as (_ & _ & Hfirst). apply (Hfirst 3%nat). lia. }
    rewrite (compute_face_normal_full_turn scalar_min fuel m f N Hturn Hfuel Hnt).
    fold q.
    destruct (newell_multiple q N nu ltac:(lia) Hper Hconvex) as (c & Hc & Hsum).
    rewrite Hsum, (dot_unit_multiple c Hnu).
    rewrite (normalize_unit_multiple scalar_min nu c scalar_min_nonneg Hnu Hc).
    reflexivity.
Qed.

End Flat.

(** ** Degenerate faces *)

Lemma collinear_window (q : nat -> Point) (a d : Point) :
  (forall j, exists s, q j = a +v d *v s) -> forall t, window_term q t = vzero.
Proof.
  intros Hline t. unfold window_term.
  destruct (Hline t) as (s0 & ->). destruct (Hline (t + 1)%nat) as (s1 & ->).
  destruct (Hline (t + 2)%nat) as (s2 & ->). vec_ring.
Qed.

Lemma vsum_zero {A : Type} (g : A -> Point) (l : list A) :
  (forall x, g x = vzero) -> vsum (map g l) = vzero.
Proof.
  intros Hz. induction l as [|x l IH]; [reflexivity|].
  simpl. rewrite Hz, IH. apply vadd_zero_l.
Qed.

(** ** A crease on every side *)

Lemma orbit_cons (rot : Halfedge -> Halfedge) (h : Halfedge) (k : nat) :
  orbit rot h (S k) = h :: map (fun j => Nat.iter j rot h) (seq 1 k).
Proof. reflexivity. Qed.

Section Sharp.
Variable scalar_min : Scalar.
Variable fuel : nat.
Variable m : SurfaceMesh.
Variable h : Halfedge.
Hypothesis scalar_min_nonneg : 0 <= scalar_min.

Lemma anchor_normal_counted :
  norm (cross (corner_p1 m (position m (to_vertex m h)) h)
              (corner_p2 m (position m (to_vertex m h)) h)) > scalar_min ->
  anchor_normal scalar_min m h
  = cross (corner_p1 m (position m (to_vertex m h)) h)
          (corner_p2 m (position m (to_vertex m h)) h)
    *v (/ norm (cross (corner_p1 m (position m (to_vertex m h)) h)
                      (corner_p2 m (position m (to_vertex m h)) h))).
Proof.
  intros Hn. unfold anchor_normal, normalize. fold (position m (to_vertex m h)).
  destruct (Rgt_dec _ _); [|contradiction].
  f_equal. unfold Rdiv. apply Rmult_1_l.
Qed.

Lemma corner_term_own (threshold : Scalar) :
  threshold <= 1 -> is_boundary m h = false ->
  counted_corner scalar_min (corner_p1 m (position m (to_vertex m h)) h)
                            (corner_p2 m (position m (to_vertex m h)) h) ->
  spec_corner_term scalar_min m threshold (position m (to_vertex m h))
    (anchor_normal scalar_min m h) h
  = cross (corner_p1 m (position m (to_vertex m h)) h)
          (corner_p2 m (position m (to_vertex m h)) h)
    *v (spec_angle (corner_p1 m (position m (to_vertex m h)) h)
                   (corner_p2 m (position m (to_vertex m h)) h)
        / norm (cross (corner_p1 m (position m (to_vertex m h)) h)
                      (corner_p2 m (position m (to_vertex m h)) h))).
Proof using scalar_min_nonneg.
  intros Ht Hb (Hs & Hn & Ha).
  rewrite (anchor_normal_counted Hn).
  unfold spec_corner_term. rewrite Hb.
  set (c := cross _ _) in *.
  destruct (Rgt_dec (norm c) scalar_min); [|contradiction].
  assert (Hdot : dot (c *v / norm c) (c *v / norm c) = 1).
  { rewrite dot_vscale. unfold norm.
    rewrite <- (sqrt_sqrt (dot c c)) at 3 by apply dot_self_nonneg.
    field. fold (norm c). lra. }
  rewrite Hdot. destruct (Rge_dec 1 threshold); [|lra].
  unfold spec_corner_contribution. fold c.
  destruct (Rle_dec (sqrt _) scalar_min); [lra|].
  destruct (Rle_dec (norm c) scalar_min); [lra|]. reflexivity.
Qed.

Lemma corner_term_rejected (threshold : Scalar) (j : nat) :
  ring_outside_crease scalar_min m h threshold ->
  Nat.iter j (corner_rotation m) h <> h ->
  spec_corner_term scalar_min m threshold (position m (to_vertex m h))
    (anchor_normal scalar_min m h) (Nat.iter j (corner_rotation m) h) = vzero.
Proof.
  intros Hout Hne. specialize (Hout j). cbv zeta in Hout.
  unfold spec_corner_term.
  destruct (is_boundary m (Nat.iter j (corner_rotation m) h)) eqn:Hb; [reflexivity|].
  destruct (Rgt_dec _ _) as [Hn|Hn]; [|reflexivity].
  specialize (Hout Hne eq_refl Hn).
  destruct (Rge_dec _ _); [lra | reflexivity].
Qed.

Lemma corner_normal_sharp (crease_angle : Scalar) :
  0.01 <= crease_angle <= 179 ->
  is_boundary m h = false ->
  closes fuel (corner_rotation m) h ->
  counted_corner scalar_min (corner_p1 m (position m (to_vertex m h)) h)
                            (corner_p2 m (position m (to_vertex m h)) h) ->
  ring_outside_crease scalar_min m h (cos crease_angle) ->
  compute_corner_normal scalar_min fuel m h crease_angle
  = Ret (anchor_normal scalar_min m h).
Proof using scalar_min_nonneg.
  intros Ha Hb Hc Hcount Hout.
  destruct (closes_full_turn _ _ _ Hc) as (k & Hturn & Hfuel).
  rewrite compute_corner_normal_walk by assumption.
  rewrite (ring_walk_full_turn _ _ k fuel Hturn Hfuel).
  fold (position m (to_vertex m h)). f_equal.
  destruct Hturn as (Hk & Hback & Hfirst).
  destruct k as [|k]; [lia|].
  rewrite orbit_cons. simpl map. simpl vsum. rewrite map_map.
  rewrite (vsum_map_ext_in _ (fun _ => vzero)).
  - rewrite (vsum_zero (fun _ : nat => vzero)) by reflexivity.
    rewrite vadd_zero_r, (corner_term_own (cos crease_angle)) by
      (assumption || apply COS_bound).
    pose proof Hcount as (Hs & Hn & Hang).
    rewrite (anchor_normal_counted Hn).
    set (c := cross _ _) in *.
    apply normalize_scaled; [exact scalar_min_nonneg | |].
    + apply Rdiv_lt_0_compat; lra.
    + replace (spec_angle _ _ / norm c * norm c) with (spec_angle
        (corner_p1 m (position m (to_vertex m h)) h)
        (corner_p2 m (position m (to_vertex m h)) h)) by (field; lra).
      lra.
  - intros j Hj. apply in_seq in Hj.
    apply corner_term_rejected; [exact Hout|]. apply Hfirst. lia.
Qed.

End Sharp.

(** ** The batch drivers as one computation and one store *)

Lemma vertex_normals_of_geometry (scalar_min : Scalar) (fuel : nat)
    (m1 m2 : SurfaceMesh) (vs : list Vertex) :
  same_geometry m1 m2 ->
  vertex_normals_of scalar_min fuel m1 vs = vertex_normals_of scalar_min fuel m2 vs.
Proof.
  intros Hg. induction vs as [|v vs IH]; [reflexivity|].
  simpl. rewrite (compute_vertex_normal_geometry scalar_min fuel m1 m2 Hg v), IH.
  reflexivity.
Qed.

Lemma face_normals_of_geometry (scalar_min : Scalar) (fuel : nat)
    (m1 m2 : SurfaceMesh) (fs : list Face) :
  same_geometry m1 m2 ->
  face_normals_of scalar_min fuel m1 fs = face_normals_of scalar_min fuel m2 fs.
Proof.
  intros Hg. induction fs as [|f fs IH]; [reflexivity|].
  simpl. rewrite (compute_face_normal_geometry scalar_min fuel m1 m2 Hg f), IH.
  reflexivity.
Qed.

Lemma store_vertex_normals_nil (m : SurfaceMesh) :
  is_Some (vprops m !! "v:normal") -> store_vertex_normals m [] = m.
Proof.
  intros [p Hp]. unfold store_vertex_normals, write_all, get_vertex_property. simpl.
  rewrite Hp. simpl. rewrite (insert_id _ _ _ Hp). apply with_vprops_id.
Qed.

Lemma store_face_normals_nil (m : SurfaceMesh) :
  is_Some (fprops m !! "f:normal") -> store_face_normals m [] = m.
Proof.
  intros [p Hp]. unfold store_face_normals, write_all, get_face_property. simpl.
  rewrite Hp. simpl. rewrite (insert_id _ _ _ Hp). apply with_fprops_id.
Qed.

Lemma store_vertex_normals_vwrite (m : SurfaceMesh) (v : Vertex) (n : Normal)
    (r : list (Vertex * Normal)) :
  store_vertex_normals (vwrite m "v:normal" v n) r = store_vertex_normals m ((v, n) :: r).
Proof.
  unfold store_vertex_normals, vwrite, get_vertex_property, with_vprops. simpl.
  rewrite lookup_insert_eq. simpl. rewrite insert_insert_eq. reflexivity.
Qed.

Lemma store_face_normals_fwrite (m : SurfaceMesh) (f : Face) (n : Normal)
    (r : list (Face * Normal)) :
  store_face_normals (fwrite m "f:normal" f n) r = store_face_normals m ((f, n) :: r).
Proof.
  unfold store_face_normals, fwrite, get_face_property, with_fprops. simpl.
  rewrite lookup_insert_eq. simpl. rewrite insert_insert_eq. reflexivity.
Qed.

Lemma vertex_normals_loop_store (scalar_min : Scalar) (fuel : nat) (m : SurfaceMesh) :
  forall vs ma, same_geometry ma m -> is_Some (vprops ma !! "v:normal") ->
  vertex_normals_loop scalar_min fuel ma vs
  = (r <~ vertex_normals_of scalar_min fuel m vs ;; Ret (store_vertex_normals ma r)).
Proof.
  induction vs as [|v vs IH]; intros ma Hg Hs.
  - simpl. rewrite store_vertex_normals_nil by exact Hs. reflexivity.
  - simpl. rewrite (compute_vertex_normal_geometry scalar_min fuel ma m Hg v).
    destruct (compute_vertex_normal scalar_min fuel m v) as [n| |]; try reflexivity.
    simpl. rewrite IH.
    + destruct (vertex_normals_of scalar_min fuel m vs) as [r| |]; try reflexivity.
      simpl. rewrite store_vertex_normals_vwrite. reflexivity.
    + apply (same_geometry_trans _ ma); [apply vwrite_geometry | exact Hg].
    + unfold vwrite. simpl. rewrite lookup_insert_eq. eexists. reflexivity.
Qed.

Lemma face_normals_loop_store (scalar_min : Scalar) (fuel : nat) (m : SurfaceMesh) :
  forall fs ma, same_geometry ma m -> is_Some (fprops ma !! "f:normal") ->
  face_normals_loop scalar_min fuel ma fs
  = (r <~ face_normals_of scalar_min fuel m fs ;; Ret (store_face_normals ma r)).
Proof.
  induction fs as [|f fs IH]; intros ma Hg Hs.
  - simpl. rewrite store_face_normals_nil by exact Hs. reflexivity.
  - simpl. rewrite (compute_face_normal_geometry scalar_min fuel ma m Hg f).
    destruct (compute_face_normal scalar_min fuel m f) as [n| |]; try reflexivity.
    simpl. rewrite IH.
    + destruct (face_normals_of scalar_min fuel m fs) as [r| |]; try reflexivity.
      simpl. rewrite store_face_normals_fwrite. reflexivity.
    + apply (same_geometry_trans _ ma); [apply fwrite_geometry | exact Hg].
    + unfold fwrite. simpl. rewrite lookup_insert_eq. eexists. reflexivity.
Qed.

Lemma store_vertex_normals_attach (m : SurfaceMesh) (r : list (Vertex * Normal)) :
  store_vertex_normals (vertex_property m "v:normal") r = store_vertex_normals m r.
Proof.
  unfold vertex_property. destruct (vprops m !! "v:normal") eqn:Hp; [reflexivity|].
  unfold store_vertex_normals, get_vertex_property, with_vprops. simpl.
  rewrite lookup_insert_eq, Hp. simpl. rewrite insert_insert_eq. reflexivity.
Qed.

Lemma store_face_normals_attach (m : SurfaceMesh) (r : list (Face * Normal)) :
  store_face_normals (face_property m "f:normal") r = store_face_normals m r.
Proof.
  unfold face_property. destruct (fprops m !! "f:normal") eqn:Hp; [reflexivity|].
  unfold store_face_normals, get_face_property, with_fprops. simpl.
  rewrite lookup_insert_eq, Hp. simpl. rewrite insert_insert_eq. reflexivity.
Qed.

Lemma vertex_property_vertices (m : SurfaceMesh) :
  vertices (vertex_property m "v:normal") = vertices m.
Proof. unfold vertex_property. destruct (vprops m !! "v:normal"); reflexivity. Qed.

Lemma face_property_faces (m : SurfaceMesh) :
  faces (face_property m "f:normal") = faces m.
Proof. unfold face_property. destruct (fprops m !! "f:normal"); reflexivity. Qed.

(** The driver computes every normal on the mesh it was given and stores
    them: the writes of earlier iterations do not reach later ones. *)
Lemma compute_vertex_normals_store (scalar_min : Scalar) (fuel : nat) (m : SurfaceMesh) :
  compute_vertex_normals scalar_min fuel m
  = (r <~ vertex_normals_of scalar_min fuel m (vertices m) ;;
     Ret (store_vertex_normals m r)).
Proof.
  unfold compute_vertex_normals.
  rewrite (vertex_normals_loop_store scalar_min fuel m)
    by (apply vertex_property_geometry || apply vertex_property_attached).
  rewrite vertex_property_vertices.
  destruct (vertex_normals_of scalar_min fuel m (vertices m)); try reflexivity.
  simpl. rewrite store_vertex_normals_attach. reflexivity.
Qed.

Lemma compute_face_normals_store (scalar_min : Scalar) (fuel : nat) (m : SurfaceMesh) :
  compute_face_normals scalar_min fuel m
  = (r <~ face_normals_of scalar_min fuel m (faces m) ;;
     Ret (store_face_normals m r)).
Proof.
  unfold compute_face_normals.
  rewrite (face_normals_loop_store scalar_min fuel m)
    by (apply face_property_geometry || apply face_property_attached).
  rewrite face_property_faces.
  destruct (face_normals_of scalar_min fuel m (faces m)); try reflexivity.
  simpl. rewrite store_face_normals_attach. reflexivity.
Qed.

Lemma store_vertex_normals_geometry (m : SurfaceMesh) (r : list (Vertex * Normal)) :
  same_geometry (store_vertex_normals m r) m.
Proof.
  unfold same_geometry, store_vertex_normals. simpl.
  repeat (split; [reflexivity|]). rewrite lookup_insert_ne by discriminate. reflexivity.
Qed.

Lemma store_face_normals_geometry (m : SurfaceMesh) (r : list (Face * Normal)) :
  same_geometry (store_face_normals m r) m.
Proof. unfold same_geometry, store_face_normals. simpl. repeat split. Qed.

Lemma vertex_normals_of_number (scalar_min : Scalar) (fuel : nat) (m : SurfaceMesh)
    (vs : list Vertex) :
  0 <= scalar_min -> vertex_normals_of scalar_min fuel m vs <> NotANumber.
Proof.
  intros Hmin. induction vs as [|v vs IH]; [discriminate|].
  simpl. pose proof (proj1 (vertex_normal_well_defined scalar_min Hmin fuel m v)) as Hz.
  destruct (compute_vertex_normal scalar_min fuel m v); simpl;
    [|contradiction | discriminate].
  destruct (vertex_normals_of scalar_min fuel m vs); simpl;
    [discriminate | contradiction | discriminate].
Qed.

Lemma face_normals_of_number (scalar_min : Scalar) (fuel : nat) (m : SurfaceMesh)
    (fs : list Face) :
  0 <= scalar_min -> face_normals_of scalar_min fuel m fs <> NotANumber.
Proof.
  intros Hmin. induction fs as [|f fs IH]; [discriminate|].
  simpl. pose proof (proj1 (face_normal_well_defined scalar_min Hmin fuel m f)) as Hz.
  destruct (compute_face_normal scalar_min fuel m f); simpl;
    [|contradiction | discriminate].
  destruct (face_normals_of scalar_min fuel m fs); simpl;
    [discriminate | contradiction | discriminate].
Qed.

Lemma write_all_other {K : Type} `{Countable K} (r : list (K * Point)) :
  forall (p : gmap K Point) (k : K),
  ~ In k (map fst r) -> write_all p r !! k = p !! k.
Proof.
  induction r as [|[k0 n0] r IH]; intros p k Hk; [reflexivity|].
  simpl in Hk. unfold write_all. simpl. fold (write_all (<[k0 := n0]> p) r).
  rewrite IH by tauto. apply lookup_insert_ne. tauto.
Qed.

Lemma vertex_normals_of_keys (scalar_min : Scalar) (fuel : nat) (m : SurfaceMesh) :
  forall vs r, vertex_normals_of scalar_min fuel m vs = Ret r -> map fst r = vs.
Proof.
  induction vs as [|v vs IH]; intros r Hr; simpl in Hr.
  - apply Ret_inj in Hr. subst r. reflexivity.
  - destruct (compute_vertex_normal scalar_min fuel m v); try discriminate.
    simpl in Hr. destruct (vertex_normals_of scalar_min fuel m vs); try discriminate.
    simpl in Hr. apply Ret_inj in Hr. subst r. simpl. f_equal. apply IH. reflexivity.
Qed.

Lemma face_normals_of_keys (scalar_min : Scalar) (fuel : nat) (m : SurfaceMesh) :
  forall fs r, face_normals_of scalar_min fuel m fs = Ret r -> map fst r = fs.
Proof.
  induction fs as [|f fs IH]; intros r Hr; simpl in Hr.
  - apply Ret_inj in Hr. subst r. reflexivity.
  - destruct (compute_face_normal scalar_min fuel m f); try discriminate.
    simpl in Hr. destruct (face_normals_of scalar_min fuel m fs); try discriminate.
    simpl in Hr. apply Ret_inj in Hr. subst r. simpl. f_equal. apply IH. reflexivity.
Qed.

Lemma store_vertex_normals_frame (m : SurfaceMesh) (r : list (Vertex * Normal)) :
  same_connectivity m (store_vertex_normals m r) /\
  fprops (store_vertex_normals m r) = fprops m /\
  (forall name, name <> "v:normal" ->
     vprops (store_vertex_normals m r) !! name = vprops m !! name) /\
  (forall v, ~ In v (map fst r) ->
     stored_vertex_normal (store_vertex_normals m r) v = stored_vertex_normal m v).
Proof.
  split; [repeat split|]. split; [reflexivity|]. split.
  - intros name Hname. unfold store_vertex_normals. simpl.
    apply lookup_insert_ne. congruence.
  - intros v Hv. unfold stored_vertex_normal, store_vertex_normals, get_vertex_property.
    simpl. rewrite lookup_insert_eq. simpl. apply write_all_other. exact Hv.
Qed.

Lemma store_face_normals_frame (m : SurfaceMesh) (r : list (Face * Normal)) :
  same_connectivity m (store_face_normals m r) /\
  vprops (store_face_normals m r) = vprops m /\
  (forall name, name <> "f:normal" ->
     fprops (store_face_normals m r) !! name = fprops m !! name) /\
  (forall f, ~ In f (map fst r) ->
     stored_face_normal (store_face_normals m r) f = stored_face_normal m f).
Proof.
  split; [repeat split|]. split; [reflexivity|]. split.
  - intros name Hname. unfold store_face_normals. simpl.
    apply lookup_insert_ne. congruence.
  - intros f Hf. unfold stored_face_normal, store_face_normals, get_face_property.
    simpl. rewrite lookup_insert_eq. simpl. apply write_all_other. exact Hf.
Qed.

(** ** Loops that do not come back *)

Lemma ring_walk_stuck (rot : Halfedge -> Halfedge) (h : Halfedge) (fuel : nat) :
  (forall k, (0 < k <= fuel)%nat -> Nat.iter k rot h <> h) ->
  ring_walk fuel rot h h = None.
Proof.
  intros Hnever. destruct (ring_walk fuel rot h h) as [l|] eqn:Hw; [|reflexivity].
  destruct (ring_walk_sound rot h fuel l Hw) as ((Hk & Hback & _) & _ & Hlen).
  exfalso. apply (Hnever (length l)); [lia | exact Hback].
Qed.

Lemma ring_walk_cycle (rot : Halfedge -> Halfedge) (h : Halfedge) (fuel k : nat) :
  (0 < k <= fuel)%nat -> Nat.iter k rot h = h -> closes fuel rot h.
Proof. intros Hk Hback. apply (ring_walk_returns rot h fuel h k Hk Hback). Qed.

(** ** The order of the elements *)

Lemma same_writes_trans {K : Type} `{Countable K} (a b c : Result (list (K * Normal))) :
  same_writes a b -> same_writes b c -> same_writes a c.
Proof.
  destruct a, b, c; simpl; try tauto.
  intros Hab Hbc p. rewrite Hab. apply Hbc.
Qed.

Lemma vertex_normals_of_perm (scalar_min : Scalar) (fuel : nat) (m : SurfaceMesh)
    (vs vs' : list Vertex) :
  0 <= scalar_min -> Permutation vs vs' ->
  same_writes (vertex_normals_of scalar_min fuel m vs)
              (vertex_normals_of scalar_min fuel m vs').
Proof.
  intros Hmin Hperm. induction Hperm as [|v vs vs' Hperm IH|v w vs|vs vs' vs'' _ IH1 _ IH2].
  - simpl. reflexivity.
  - simpl. pose proof (proj1 (vertex_normal_well_defined scalar_min Hmin fuel m v)) as Hz.
    destruct (compute_vertex_normal scalar_min fuel m v) as [n| |]; simpl;
      [|contradiction|].
    + destruct (vertex_normals_of scalar_min fuel m vs) as [r| |],
               (vertex_normals_of scalar_min fuel m vs') as [r'| |];
        simpl in *; try tauto.
      intros p. unfold write_all. simpl. apply IH.
    + exact I.
  - simpl.
    pose proof (proj1 (vertex_normal_well_defined scalar_min Hmin fuel m v)) as Hv.
    pose proof (proj1 (vertex_normal_well_defined scalar_min Hmin fuel m w)) as Hw.
    pose proof (vertex_normals_of_number scalar_min fuel m vs Hmin) as Hvs.
    destruct (decide (v = w)) as [->|Hne].
    + destruct (compute_vertex_normal scalar_min fuel m w) as [n| |]; simpl;
        [|contradiction | exact I].
      destruct (vertex_normals_of scalar_min fuel m vs) as [r| |]; simpl;
        [reflexivity | contradiction | exact I].
    + destruct (compute_vertex_normal scalar_min fuel m v) as [n| |],
               (compute_vertex_normal scalar_min fuel m w) as [n'| |];
        simpl in *; try contradiction; try exact I.
      destruct (vertex_normals_of scalar_min fuel m vs) as [r| |]; simpl;
        [| contradiction | exact I].
      intros p. unfold write_all. simpl. rewrite insert_insert_ne by congruence.
      reflexivity.
  - exact (same_writes_trans _ _ _ IH1 IH2).
Qed.

Lemma face_normals_of_perm (scalar_min : Scalar) (fuel : nat) (m : SurfaceMesh)
    (fs fs' : list Face) :
  0 <= scalar_min -> Permutation fs fs' ->
  same_writes (face_normals_of scalar_min fuel m fs)
              (face_normals_of scalar_min fuel m fs').
Proof.
  intros Hmin Hperm. induction Hperm as [|f fs fs' Hperm IH|f g fs|fs fs' fs'' _ IH1 _ IH2].
  - simpl. reflexivity.
  - simpl. pose proof (proj1 (face_normal_well_defined scalar_min Hmin fuel m f)) as Hz.
    destruct (compute_face_normal scalar_min fuel m f) as [n| |]; simpl;
      [|contradiction|].
    + destruct (face_normals_of scalar_min fuel m fs) as [r| |],
               (face_normals_of scalar_min fuel m fs') as [r'| |];
        simpl in *; try tauto.
      intros p. unfold write_all. simpl. apply IH.
    + exact I.
  - simpl.
    pose proof (proj1 (face_normal_well_defined scalar_min Hmin fuel m f)) as Hf.
    pose proof (proj1 (face_normal_well_defined scalar_min Hmin fuel m g)) as Hg.
    pose proof (face_normals_of_number scalar_min fuel m fs Hmin) as Hfs.
    destruct (decide (f = g)) as [->|Hne].
    + destruct (compute_face_normal scalar_min fuel m g) as [n| |]; simpl;
        [|contradiction | exact I].
      destruct (face_normals_of scalar_min fuel m fs) as [r| |]; simpl;
        [reflexivity | contradiction | exact I].
    + destruct (compute_face_normal scalar_min fuel m f) as [n| |],
               (compute_face_normal scalar_min fuel m g) as [n'| |];
        simpl in *; try contradiction; try exact I.
      destruct (face_normals_of scalar_min fuel m fs) as [r| |]; simpl;
        [| contradiction | exact I].
      intros p. unfold write_all. simpl. rewrite insert_insert_ne by congruence.
      reflexivity.
  - exact (same_writes_trans _ _ _ IH1 IH2).
Qed.

Lemma compute_vertex_normal_with_vertices (scalar_min : Scalar) (fuel : nat)
    (m : SurfaceMesh) (vs : list Vertex) (v : Vertex) :
  0 <= scalar_min ->
  compute_vertex_normal scalar_min fuel (with_vertices m vs) v
  = compute_vertex_normal scalar_min fuel m v.
Proof.
  intros Hmin. destruct (is_valid (halfedge m v)) eqn:Hv.
  - rewrite !compute_vertex_normal_walk by assumption. reflexivity.
  - rewrite !compute_vertex_normal_isolated by assumption. reflexivity.
Qed.

Lemma compute_face_normal_with_faces (scalar_min : Scalar) (fuel : nat)
    (m : SurfaceMesh) (fs : list Face) (f : Face) :
  compute_face_normal scalar_min fuel (with_faces m fs) f
  = compute_face_normal scalar_min fuel m f.
Proof.
  destruct (decide (next_halfedge m (next_halfedge m (next_halfedge m (face_halfedge m f)))
                    = face_halfedge m f)) as [Ht|Ht].
  - rewrite !compute_face_normal_triangle by exact Ht. reflexivity.
  - rewrite !compute_face_normal_walk by exact Ht. reflexivity.
Qed.

Lemma vertex_normals_of_with_vertices (scalar_min : Scalar) (fuel : nat)
    (m : SurfaceMesh) (vs l : list Vertex) :
  0 <= scalar_min ->
  vertex_normals_of scalar_min fuel (with_vertices m vs) l
  = vertex_normals_of scalar_min fuel m l.
Proof.
  intros Hmin. induction l as [|v l IH]; [reflexivity|].
  simpl. rewrite compute_vertex_normal_with_vertices, IH by exact Hmin. reflexivity.
Qed.

Lemma face_normals_of_with_faces (scalar_min : Scalar) (fuel : nat)
    (m : SurfaceMesh) (fs l : list Face) :
  face_normals_of scalar_min fuel (with_faces m fs) l
  = face_normals_of scalar_min fuel m l.
Proof.
  induction l as [|f l IH]; [reflexivity|].
  simpl. rewrite compute_face_normal_with_faces, IH. reflexivity.
Qed.

(** ** A face read backwards *)

Lemma vsum_vopp {A : Type} (g : A -> Point) (l : list A) :
  vsum (map (fun x => vopp (g x)) l) = vopp (vsum (map g l)).
Proof.
  induction l as [|x l IH]; simpl; [vec_ring|]. rewrite IH. vec_ring.
Qed.

Lemma vsum_reversed (F : nat -> Point) (n : nat) :
  vsum (map (fun t => F (n - 1 - t)%nat) (seq 0 n)) = vsum (map F (seq 0 n)).
Proof.
  induction n as [|n IH]; [reflexivity|].
  rewrite seq_S at 2. rewrite map_app, vsum_app. simpl.
  rewrite <- seq_shift, map_map, <- IH, Nat.sub_0_r, vadd_zero_r.
  rewrite vadd_comm. f_equal.
  - f_equal. apply map_ext. intros t. f_equal. lia.
  - f_equal. lia.
Qed.

Lemma is_triangle_sides (m : SurfaceMesh) (f : Face) (N : nat) :
  full_turn (next_halfedge m) (face_halfedge m f) N ->
  is_triangle m f <-> N = 1%nat \/ N = 3%nat.
Proof.
  intros (HN & Hback & Hfirst). unfold is_triangle.
  change (next_halfedge m (next_halfedge m (next_halfedge m (face_halfedge m f))))
    with (Nat.iter 3 (next_halfedge m) (face_halfedge m f)).
  split.
  - intros H3.
    destruct (Nat.eq_dec N 1%nat) as [|H1]; [tauto|].
    destruct (Nat.eq_dec N 3%nat) as [|HN3]; [tauto|]. exfalso.
    destruct (Nat.eq_dec N 2%nat) as [->|H2].
    + apply (Hfirst 1%nat); [lia|].
      rewrite <- H3 at 2.
      exact (eq_sym (iter_period _ _ 2%nat Hback 1%nat 1%nat)).
    + apply (Hfirst 3%nat); [lia | exact H3].
  - intros [-> | ->]; [|exact Hback].
    exact (iter_period _ _ 1%nat Hback 3%nat 0%nat).
Qed.

Section Reversed.
Variables q q' : nat -> Point.
Variable N : nat.
Hypothesis sides : (0 < N)%nat.
Hypothesis periodic : forall j, q (j + N)%nat = q j.
Hypothesis periodic' : forall j, q' (j + N)%nat = q' j.
Hypothesis reversed : forall j, (j <= N)%nat -> q' j = q (N - j)%nat.

Lemma window_reversed (t : nat) :
  (t + 2 <= N)%nat -> window_term q' t = vopp (window_term q (N - 2 - t)).
Proof using sides reversed.
  intros Ht. unfold window_term. rewrite !reversed by lia.
  replace (N - 2 - t + 2)%nat with (N - t)%nat by lia.
  replace (N - 2 - t + 1)%nat with (N - (t + 1))%nat by lia.
  replace (N - 2 - t)%nat with (N - (t + 2))%nat by lia.
  vec_ring.
Qed.

Lemma window_reversed_last :
  window_term q' (N - 1) = vopp (window_term q (N - 1)).
Proof using sides periodic periodic' reversed.
  unfold window_term.
  replace (N - 1 + 2)%nat with (1 + N)%nat by lia.
  replace (N - 1 + 1)%nat with N by lia.
  rewrite periodic, periodic'. rewrite !reversed by lia.
  replace (N - N)%nat with 0%nat by lia.
  replace (N - (N - 1))%nat with 1%nat by lia.
  rewrite <- (periodic 0). simpl. vec_ring.
Qed.

Lemma newell_reversed :
  spec_newell_sum q' N = vopp (spec_newell_sum q N).
Proof using sides periodic periodic' reversed.
  unfold spec_newell_sum.
  assert (Hseq : seq 0 N = seq 0 (N - 1) ++ [(N - 1)%nat]).
  { replace N with (S (N - 1)) at 1 by lia. apply seq_S. }
  rewrite Hseq, !map_app, !vsum_app. simpl.
  rewrite window_reversed_last.
  rewrite (vsum_map_ext_in _ (fun t => vopp (window_term q (N - 1 - 1 - t)))).
  - rewrite vsum_vopp, (vsum_reversed (window_term q) (N - 1)). vec_ring.
  - intros t Ht. apply in_seq in Ht. rewrite window_reversed by lia.
    do 2 f_equal. lia.
Qed.

End Reversed.


(** ** The claims of the specification *)

(** C1.  The claim fails where the corner normal is asked for at a boundary
    halfedge with a crease angle below 0.01.  On the triangle, [H 1] is one of
    the six halfedges of the mesh and a boundary halfedge; its face handle is
    the invalid handle, which is not among the faces of the mesh.  For every
    crease angle below 0.01 the corner normal of [H 1] is nevertheless the
    call of [compute_face_normal] on that handle, with no boundary check
    before it, whereas for a crease angle in [0.01, 179] the check is made and
    the zero vector is returned without a face being looked at. *)
Theorem corner_normal_flat_path_at_boundary :
  in_range 6 (H 1) /\
  is_boundary triangle (H 1) = true /\
  face_is_valid (face triangle (H 1)) = false /\
  ~ In (face triangle (H 1)) (faces triangle) /\
  (forall scalar_min fuel crease_angle, crease_angle < 0.01 ->
     compute_corner_normal scalar_min fuel triangle (H 1) crease_angle
     = compute_face_normal scalar_min fuel triangle (face triangle (H 1))) /\
  (forall scalar_min fuel crease_angle, 0.01 <= crease_angle <= 179 ->
     compute_corner_normal scalar_min fuel triangle (H 1) crease_angle = Ret vzero).
Proof.
  split; [simpl; lia|]. split; [reflexivity|]. split; [reflexivity|].
  split; [|split].
  - simpl. intros [Hf|[]]. discriminate Hf.
  - intros scalar_min fuel a Ha. apply compute_corner_normal_flat. exact Ha.
  - intros scalar_min fuel a Ha. apply compute_corner_normal_boundary; [exact Ha | reflexivity].
Qed.

(** C2.  The claim fails at the crease angle 100.  The threshold of the
    general case is the cosine of the crease angle as it is given, with no
    conversion from degrees: for 100 it is positive, whereas the cosine of
    100 degrees is negative.  So at every corner of the cube the corner normal
    for the crease angle 100 is the flat normal of the face, as it is for 45,
    and not the vertex normal; at the corner of [H 0] it is [(0, 0, -1)] and
    differs from the vertex normal at either end of [H 0].  With the angle
    converted by hand, [100 * PI / 180], the corner normal is the vertex
    normal that the claim names. *)
Theorem cube_crease_100_not_smooth :
  compute_corner_normal FLT_MIN 4 cube (H 0) 100 = Ret (mkPoint 0 0 (-1)) /\
  compute_corner_normal FLT_MIN 4 cube (H 0) 100
  <> compute_vertex_normal FLT_MIN 4 cube (to_vertex cube (H 0)) /\
  compute_corner_normal FLT_MIN 4 cube (H 0) 100
  <> compute_vertex_normal FLT_MIN 4 cube (from_vertex cube (H 0)) /\
  cos 100 <> cos (100 * PI / 180) /\
  0 < cos 100 /\ cos (100 * PI / 180) < 0 /\
  compute_corner_normal FLT_MIN 4 cube (H 0) (100 * PI / 180)
  = compute_vertex_normal FLT_MIN 4 cube (to_vertex cube (H 0)) /\
  (forall h, In h cube_halfedges ->
     compute_corner_normal FLT_MIN 4 cube h 45
     = compute_face_normal FLT_MIN 4 cube (face cube h) /\
     compute_corner_normal FLT_MIN 4 cube h 100
     = compute_face_normal FLT_MIN 4 cube (face cube h) /\
     compute_corner_normal FLT_MIN 4 cube h 100
     <> compute_vertex_normal FLT_MIN 4 cube (to_vertex cube h)).
Proof.
  assert (Hfuel : (4 <= 4)%nat) by lia.
  assert (Hflat : forall h, In h cube_halfedges ->
            compute_corner_normal FLT_MIN 4 cube h 100
            = Ret (cube_face_normal (face cube h))).
  { intros h Hin. apply cube_corner_flat;
      [exact FLT_MIN_bounds | exact Hfuel | lra | apply cos_100_pos | exact Hin]. }
  assert (Hin : In (H 0) cube_halfedges) by (unfold cube_halfedges; simpl; tauto).
  destruct (cube_halfedge_elements (H 0) Hin) as (Hf & Hto & Hfrom & _).
  pose proof PI_bounds as Hpi.
  rewrite (Hflat _ Hin).
  rewrite !(cube_vertex_normals FLT_MIN 4 FLT_MIN_bounds) by (lia || assumption).
  split; [reflexivity|]. split; [|split; [|split; [|split; [|split; [|split]]]]].
  - intros Heq. apply (cube_normals_differ _ _ Hf Hto), Ret_inj, Heq.
  - intros Heq. apply (cube_normals_differ _ _ Hf Hfrom), Ret_inj, Heq.
  - pose proof cos_100_pos. pose proof cos_100_degrees_neg. lra.
  - apply cos_100_pos.
  - apply cos_100_degrees_neg.
  - apply cube_corner_smooth;
      [exact FLT_MIN_bounds | exact Hfuel | lra
      | apply Rlt_le, cos_100_degrees_neg | exact Hin].
  - intros h Hh.
    destruct (cube_halfedge_elements h Hh) as (Hf' & Hto' & _ & _).
    rewrite (Hflat _ Hh).
    rewrite (cube_face_normals FLT_MIN 4 FLT_MIN_bounds Hfuel _ Hf').
    rewrite (cube_vertex_normals FLT_MIN 4 FLT_MIN_bounds Hfuel _ Hto').
    split; [|split; [reflexivity|]].
    + apply cube_corner_flat;
        [exact FLT_MIN_bounds | exact Hfuel | lra | apply cos_45_pos | exact Hh].
    + intros Heq. apply (cube_normals_differ _ _ Hf' Hto'), Ret_inj, Heq.
Qed.

(** C3.  For a halfedge [h] that is not a boundary halfedge (every halfedge of
    a closed mesh): with a crease angle below 0.01 the corner normal is exactly
    the face normal of the face of [h], and with a crease angle above 179 it is
    exactly the vertex normal of the vertex that [h] comes from.  Both are the
    result of the one call; the cosine threshold is not involved. *)
Theorem corner_normal_trivial_cases (scalar_min : Scalar) (fuel : nat)
    (m : SurfaceMesh) (h : Halfedge) (crease_angle : Scalar) :
  is_boundary m h = false ->
  (crease_angle < 0.01 ->
   compute_corner_normal scalar_min fuel m h crease_angle
   = compute_face_normal scalar_min fuel m (face m h)) /\
  (crease_angle > 179 ->
   compute_corner_normal scalar_min fuel m h crease_angle
   = compute_vertex_normal scalar_min fuel m (from_vertex m h)).
Proof.
  intros _. split; intros Ha.
  - apply compute_corner_normal_flat. exact Ha.
  - apply compute_corner_normal_smooth. exact Ha.
Qed.


(** C5.  For a triangular face whose vertex positions, read in halfedge order,
    are [A], [B], [C], the face normal is the normalized cross product
    [(C-B)x(A-B)].  A triangle that reads the same positions in a cyclically
    shifted order has the same normal, and one that reads them in the reversed
    order has the opposite normal. *)
Theorem face_normal_triangle (scalar_min : Scalar) (fuel : nat) (m : SurfaceMesh)
    (f : Face) :
  is_triangle m f ->
  let A := face_point m (face_halfedge m f) 0 in
  let B := face_point m (face_halfedge m f) 1 in
  let C := face_point m (face_halfedge m f) 2 in
  compute_face_normal scalar_min fuel m f
  = Ret (normalize scalar_min (cross (C -v B) (A -v B))) /\
  (forall m' f', is_triangle m' f' ->
     face_point m' (face_halfedge m' f') 0 = B ->
     face_point m' (face_halfedge m' f') 1 = C ->
     face_point m' (face_halfedge m' f') 2 = A ->
     compute_face_normal scalar_min fuel m' f'
     = compute_face_normal scalar_min fuel m f) /\
  (forall m' f', is_triangle m' f' ->
     face_point m' (face_halfedge m' f') 0 = C ->
     face_point m' (face_halfedge m' f') 1 = B ->
     face_point m' (face_halfedge m' f') 2 = A ->
     compute_face_normal scalar_min fuel m' f'
     = Ret (vopp (normalize scalar_min (cross (C -v B) (A -v B))))).
Proof.
  intros Ht A B C.
  pose proof (compute_face_normal_triangle scalar_min fuel m f Ht) as Hm.
  fold A B C in Hm. unfold spec_triangle_normal in Hm.
  split; [exact Hm|]. split.
  - intros m' f' Ht' H0 H1 H2.
    rewrite (compute_face_normal_triangle scalar_min fuel m' f' Ht'), Hm.
    rewrite H0, H1, H2. unfold spec_triangle_normal.
    do 2 f_equal. vec_ring.
  - intros m' f' Ht' H0 H1 H2.
    rewrite (compute_face_normal_triangle scalar_min fuel m' f' Ht').
    rewrite H0, H1, H2. unfold spec_triangle_normal.
    rewrite <- normalize_vopp. do 2 f_equal. vec_ring.
Qed.



(** C8.  When the single-element operation returns for every element, the
    batch driver returns; and the mesh that a driver returns has the geometry
    of the mesh it was given, holds for every vertex (face) of the mesh
    exactly the normal that the single-element operation computes for it on
    the mesh as it was given, and is left as it is by a second run of the
    driver. *)
Theorem batch_drivers_store_single_results (scalar_min : Scalar) (fuel : nat)
    (m : SurfaceMesh) :
  ((forall v, In v (vertices m) ->
      exists n, compute_vertex_normal scalar_min fuel m v = Ret n) ->
   exists m', compute_vertex_normals scalar_min fuel m = Ret m') /\
  (forall m', compute_vertex_normals scalar_min fuel m = Ret m' ->
     same_geometry m' m /\
     (forall v, In v (vertices m) ->
        exists n, compute_vertex_normal scalar_min fuel m v = Ret n /\
                  stored_vertex_normal m' v = Some n) /\
     compute_vertex_normals scalar_min fuel m' = Ret m') /\
  ((forall f, In f (faces m) ->
      exists n, compute_face_normal scalar_min fuel m f = Ret n) ->
   exists m', compute_face_normals scalar_min fuel m = Ret m') /\
  (forall m', compute_face_normals scalar_min fuel m = Ret m' ->
     same_geometry m' m /\
     (forall f, In f (faces m) ->
        exists n, compute_face_normal scalar_min fuel m f = Ret n /\
                  stored_face_normal m' f = Some n) /\
     compute_face_normals scalar_min fuel m' = Ret m').
Proof.
  split; [apply compute_vertex_normals_returns|].
  split; [apply compute_vertex_normals_stores|].
  split; [apply compute_face_normals_returns|].
  apply compute_face_normals_stores.
Qed.

(** C9.  For a boundary halfedge and a crease angle in [0.01, 179] the corner
    normal is the zero vector, whatever the fuel and whatever attributes,
    positions included, the mesh carries. *)
Theorem corner_normal_boundary_zero (scalar_min : Scalar) (fuel : nat)
    (m : SurfaceMesh) (h : Halfedge) (crease_angle : Scalar) :
  is_boundary m h = true ->
  0.01 <= crease_angle <= 179 ->
  compute_corner_normal scalar_min fuel m h crease_angle = Ret vzero /\
  forall vp, compute_corner_normal scalar_min fuel (with_vprops m vp) h crease_angle
             = Ret vzero.
Proof.
  intros Hb Ha. split.
  - apply compute_corner_normal_boundary; assumption.
  - intros vp. apply compute_corner_normal_boundary; assumption.
Qed.

(** C10.  The boundary check sits in the general case only.  Below 0.01 the
    corner normal is the result of [compute_face_normal] on [mesh.face(h)],
    and above 179 it is the result of [compute_vertex_normal] on
    [from_vertex(h)], whether or not [h] is a boundary halfedge.  On the
    triangle, the boundary halfedge [H 1] has no face, its corner normal for
    the crease angle 90 is the zero vector, and for the crease angle 180 it is
    the vertex normal [(0, 0, 1)]. *)
Theorem corner_normal_trivial_paths_skip_boundary_check (scalar_min : Scalar)
    (fuel : nat) (m : SurfaceMesh) (h : Halfedge) (crease_angle : Scalar) :
  (crease_angle < 0.01 ->
   compute_corner_normal scalar_min fuel m h crease_angle
   = compute_face_normal scalar_min fuel m (face m h)) /\
  (crease_angle > 179 ->
   compute_corner_normal scalar_min fuel m h crease_angle
   = compute_vertex_normal scalar_min fuel m (from_vertex m h)) /\
  (0 <= scalar_min < 1 -> (4 <= fuel)%nat ->
   is_boundary triangle (H 1) = true /\
   face triangle (H 1) = NoFace /\
   compute_corner_normal scalar_min fuel triangle (H 1) 90 = Ret vzero /\
   compute_corner_normal scalar_min fuel triangle (H 1) 180 = Ret (mkPoint 0 0 1)).
Proof.
  split; [apply compute_corner_normal_flat|].
  split; [apply compute_corner_normal_smooth|].
  intros Hmin Hfuel. split; [reflexivity|]. split; [reflexivity|]. split.
  - apply compute_corner_normal_boundary; [lra | reflexivity].
  - rewrite compute_corner_normal_smooth by lra.
    apply triangle_vertex_normal; assumption.
Qed.

(** ** Further properties *)

(** X1.  On well-formed connectivity with [n] halfedges, [n] iterations
    suffice for each of the three loops: with [n] units of fuel the vertex
    normal of every vertex, the face normal of every face and, for a crease
    angle in [0.01, 179], the corner normal of every halfedge of the mesh are
    returned. *)
Theorem loops_return_on_well_formed_meshes (scalar_min : Scalar) (fuel : nat)
    (m : SurfaceMesh) (n : nat) :
  0 <= scalar_min -> well_formed m n -> (n <= fuel)%nat ->
  (forall v, In v (vertices m) ->
     exists x, compute_vertex_normal scalar_min fuel m v = Ret x) /\
  (forall f, In f (faces m) ->
     exists x, compute_face_normal scalar_min fuel m f = Ret x) /\
  (forall h a, in_range n h -> 0.01 <= a <= 179 ->
     exists x, compute_corner_normal scalar_min fuel m h a = Ret x).
Proof.
  intros Hmin Hwf Hfuel.
  destruct (well_formed_rings_close m n fuel Hwf Hfuel) as (Hvc & Hfc & Hcc).
  split; [|split].
  - intros v Hin.
    apply (vertex_normal_well_defined scalar_min Hmin fuel m v), Hvc, Hin.
  - intros f Hin.
    apply (face_normal_well_defined scalar_min Hmin fuel m f), Hfc, Hin.
  - intros h a Hh Ha.
    destruct (is_boundary m h) eqn:Hb.
    + rewrite compute_corner_normal_boundary by assumption. eexists. reflexivity.
    + rewrite compute_corner_normal_walk by assumption.
      destruct (Hcc h Hh Hb) as [l Hl]. rewrite Hl. eexists. reflexivity.
Qed.

(** X2.  The general case of [compute_corner_normal] walks the ring of the
    vertex that [h] points to.  Where the connectivity around that vertex is
    that of a halfedge mesh and the loop comes back, a crease angle in
    [0.01, 179] whose test rejects no corner of the ring (as it is for every
    ring when the cosine of the crease angle is -1) gives the vertex normal
    of [to_vertex(h)], whichever outgoing halfedge that vertex refers to;
    the shortcut above 179 returns the vertex normal of [from_vertex(h)]. *)
Theorem corner_normal_smooth_limit (scalar_min : Scalar) (fuel : nat)
    (m : SurfaceMesh) (h : Halfedge) (crease_angle : Scalar) (i : nat) :
  0 <= scalar_min ->
  0.01 <= crease_angle <= 179 ->
  is_boundary m h = false ->
  ring_consistent m h ->
  closes fuel (corner_rotation m) h ->
  halfedge m (to_vertex m h)
  = Nat.iter i (cw_rotated_halfedge m) (next_halfedge m h) ->
  is_valid (halfedge m (to_vertex m h)) = true ->
  cos crease_angle <= -1 \/ ring_within_crease scalar_min m h (cos crease_angle) ->
  compute_corner_normal scalar_min fuel m h crease_angle
  = compute_vertex_normal scalar_min fuel m (to_vertex m h).
Proof.
  intros Hmin Ha Hb Hcons Hc Hstart Hv Hin.
  apply (corner_normal_of_vertex_ring scalar_min fuel m h Hmin Hcons crease_angle i);
    try assumption.
  destruct Hin as [Hcos|Hin]; [|exact Hin].
  apply within_crease_of_cosine; assumption.
Qed.

(** X3.  [compute_vertex_normal] reads the positions of the vertex and of the
    ends of the corners around it, and nothing else of the geometry; when
    these positions are rotated and translated, on the same connectivity,
    the result is the rotated normal (and the same outcome when the call
    does not return).  With the identity as the rotation: positions elsewhere
    in the mesh have no influence on the normal. *)
Theorem vertex_normal_rigid_motion (scalar_min : Scalar) (fuel : nat)
    (L : Point -> Point) (t : Point) (m m' : SurfaceMesh) (v : Vertex) :
  0 <= scalar_min -> rotation L ->
  moved_on (vertex_reads m v) L t m m' ->
  compute_vertex_normal scalar_min fuel m' v
  = map_result L (compute_vertex_normal scalar_min fuel m v).
Proof.
  intros Hmin HL (Hconn & Hpos).
  apply (moved_vertex_normal scalar_min fuel L t m m' HL Hconn v Hmin Hpos).
Qed.

(** X4.  [compute_face_normal] reads the positions of the vertices of the
    face only; when these are rotated and translated, on the same
    connectivity, the result is the rotated normal. *)
Theorem face_normal_rigid_motion (scalar_min : Scalar) (fuel : nat)
    (L : Point -> Point) (t : Point) (m m' : SurfaceMesh) (f : Face) :
  rotation L ->
  moved_on (face_reads m f) L t m m' ->
  compute_face_normal scalar_min fuel m' f
  = map_result L (compute_face_normal scalar_min fuel m f).
Proof.
  intros HL (Hconn & Hpos).
  apply (moved_face_normal scalar_min fuel L t m m' HL Hconn f Hpos).
Qed.

(** X5.  [compute_corner_normal] follows rigid motions in each of its three
    cases: when the positions that the case selected by the crease angle
    reads are rotated and translated, on the same connectivity, the result
    is the rotated normal.  The acceptance test against the anchor is a test
    of an angle between two normals, which a rotation keeps. *)
Theorem corner_normal_rigid_motion (scalar_min : Scalar) (fuel : nat)
    (L : Point -> Point) (t : Point) (m m' : SurfaceMesh) (h : Halfedge)
    (crease_angle : Scalar) :
  0 <= scalar_min -> rotation L ->
  moved_on (corner_normal_reads m h crease_angle) L t m m' ->
  compute_corner_normal scalar_min fuel m' h crease_angle
  = map_result L (compute_corner_normal scalar_min fuel m h crease_angle).
Proof.
  intros Hmin HL (Hconn & Hpos).
  apply (moved_corner_normal scalar_min fuel L t m m' HL Hconn h crease_angle Hmin Hpos).
Qed.

(** X6.  The vertex normal does not depend on the outgoing halfedge that the
    vertex refers to: when the loop around [v] comes back, entering the ring
    at any other valid halfedge of it gives the same result. *)
Theorem vertex_normal_any_start_halfedge (scalar_min : Scalar) (fuel : nat)
    (m : SurfaceMesh) (v : Vertex) (i : nat) :
  0 <= scalar_min ->
  is_valid (halfedge m v) = true ->
  is_valid (Nat.iter i (cw_rotated_halfedge m) (halfedge m v)) = true ->
  closes fuel (cw_rotated_halfedge m) (halfedge m v) ->
  compute_vertex_normal scalar_min fuel
    (with_halfedge m v (Nat.iter i (cw_rotated_halfedge m) (halfedge m v))) v
  = compute_vertex_normal scalar_min fuel m v.
Proof.
  intros Hmin Hv Hv' Hc.
  destruct (closes_full_turn _ _ _ Hc) as (k & Hturn & Hfuel).
  rewrite (compute_vertex_normal_full_turn scalar_min fuel m v k) by assumption.
  set (h' := Nat.iter i (cw_rotated_halfedge m) (halfedge m v)) in *.
  assert (Hh : halfedge (with_halfedge m v h') v = h').
  { simpl. destruct (decide (v = v)); [reflexivity | contradiction]. }
  rewrite compute_vertex_normal_walk by (try rewrite Hh; assumption).
  rewrite Hh. change (cw_rotated_halfedge (with_halfedge m v h')) with (cw_rotated_halfedge m).
  subst h'.
  rewrite (ring_walk_full_turn _ _ k fuel (full_turn_from _ _ k i Hturn) Hfuel).
  do 2 f_equal.
  destruct Hturn as (_ & Hback & _).
  exact (vsum_orbit_from _ _ _ k i Hback).
Qed.

(** X7.  The face normal does not depend on the halfedge that the face
    refers to: for a face with [N] halfedges and at least [N] units of fuel,
    a triangle or not, starting at any other halfedge of the face gives the
    same result. *)
Theorem face_normal_any_start_halfedge (scalar_min : Scalar) (fuel : nat)
    (m : SurfaceMesh) (f : Face) (N i : nat) :
  full_turn (next_halfedge m) (face_halfedge m f) N -> (N <= fuel)%nat ->
  compute_face_normal scalar_min fuel
    (with_face_halfedge m f (Nat.iter i (next_halfedge m) (face_halfedge m f))) f
  = compute_face_normal scalar_min fuel m f.
Proof.
  intros Hturn Hfuel.
  set (h' := Nat.iter i (next_halfedge m) (face_halfedge m f)).
  set (m' := with_face_halfedge m f h').
  assert (Hh : face_halfedge m' f = h').
  { simpl. destruct (decide (f = f)); [reflexivity | contradiction]. }
  pose proof (is_triangle_from m f N i Hturn) as Htri. fold h' in Htri. simpl in Htri.
  destruct (decide (next_halfedge m (next_halfedge m (next_halfedge m (face_halfedge m f)))
                    = face_halfedge m f)) as [Ht|Ht].
  - assert (Ht' : is_triangle m' f).
    { unfold is_triangle. rewrite Hh. apply Htri. exact Ht. }
    rewrite (compute_face_normal_triangle scalar_min fuel m' f Ht').
    rewrite (compute_face_normal_triangle scalar_min fuel m f Ht).
    rewrite Hh. unfold spec_triangle_normal. do 2 f_equal.
    change (window_term (face_point m' h') 0 = window_term (face_point m (face_halfedge m f)) 0).
    unfold m', h'.
    change (face_point (with_face_halfedge m f (Nat.iter i (next_halfedge m) (face_halfedge m f))))
      with (face_point m).
    rewrite window_term_from. apply window_term_period_3.
    intros j. unfold face_point. rewrite Nat.iter_add.
    change (Nat.iter 3 (next_halfedge m) (face_halfedge m f))
      with (next_halfedge m (next_halfedge m (next_halfedge m (face_halfedge m f)))).
    rewrite Ht. reflexivity.
  - assert (Ht' : ~ is_triangle m' f).
    { unfold is_triangle. rewrite Hh. intros H3. apply Ht, Htri, H3. }
    rewrite (compute_face_normal_full_turn scalar_min fuel m f N Hturn Hfuel Ht).
    rewrite compute_face_normal_walk by exact Ht'.
    rewrite Hh. change (next_halfedge m') with (next_halfedge m).
    pose proof (full_turn_from _ _ N 2 (full_turn_from _ _ N i Hturn)) as Hturn2.
    fold h' in Hturn2. simpl in Hturn2.
    rewrite (ring_walk_full_turn _ _ N fuel Hturn2 Hfuel), orbit_length.
    do 2 f_equal. unfold spec_newell_sum.
    change (face_point m' h') with (face_point m h'). unfold h'.
    rewrite (map_ext _ (fun j => window_term (face_point m (face_halfedge m f)) (j + i)))
      by (intros j; apply window_term_from).
    rewrite (map_seq_shift (window_term (face_point m (face_halfedge m f))) i N 0).
    simpl. apply vsum_periodic. intros j. unfold window_term.
    replace (j + N + 2)%nat with (j + 2 + N)%nat by lia.
    replace (j + N + 1)%nat with (j + 1 + N)%nat by lia.
    rewrite !(face_point_periodic m _ N _ Hturn). reflexivity.
Qed.

(** X8.  For a quadrilateral, planar or not, convex or not, the sliding
    window adds up to twice the cross product of the two diagonals: the face
    normal is the normalized cross product of the diagonals (the vector
    area), taken at twice its length against the near-zero threshold. *)
Theorem face_normal_quad (scalar_min : Scalar) (fuel : nat) (m : SurfaceMesh)
    (f : Face) :
  let q := face_point m (face_halfedge m f) in
  full_turn (next_halfedge m) (face_halfedge m f) 4 -> (4 <= fuel)%nat ->
  compute_face_normal scalar_min fuel m f
  = Ret (normalize scalar_min (cross (q 2%nat -v q 0%nat) (q 3%nat -v q 1%nat) *v 2)).
Proof.
  intros q Hturn Hfuel.
  assert (Hnt : ~ is_triangle m f).
  { unfold is_triangle. destruct Hturn as (_ & _ & Hfirst). apply (Hfirst 3%nat). lia. }
  rewrite (compute_face_normal_full_turn scalar_min fuel m f 4 Hturn Hfuel Hnt).
  fold q. do 2 f_equal. unfold spec_newell_sum, window_term. simpl.
  pose proof (face_point_periodic m _ 4 0 Hturn) as H4.
  pose proof (face_point_periodic m _ 4 1 Hturn) as H5.
  simpl in H4, H5. fold q in H4, H5. rewrite H4, H5. vec_ring.
Qed.

(** X9.  For a face with [N >= 3] sides that is a convex polygon in a plane
    with unit normal [nu], counter-clockwise seen from the side that [nu]
    points to, the accumulated vector (the one cross product of a triangle,
    the sum of the sliding window otherwise) points along [nu], and the face
    normal is [nu] itself when that vector is longer than the near-zero
    threshold, and the zero vector when it is not. *)
Theorem face_normal_planar_convex (scalar_min : Scalar) (fuel : nat)
    (m : SurfaceMesh) (f : Face) (N : nat) (nu : Point) :
  let q := face_point m (face_halfedge m f) in
  let area := if decide (N = 3%nat) then window_term q 0 else spec_newell_sum q N in
  0 <= scalar_min ->
  full_turn (next_halfedge m) (face_halfedge m f) N ->
  (3 <= N)%nat -> (N <= fuel)%nat ->
  planar_convex q N nu ->
  compute_face_normal scalar_min fuel m f
  = Ret (if Rgt_dec (dot area nu) scalar_min then nu else vzero).
Proof.
  intros q area Hmin. apply (flat_face_normal scalar_min fuel m nu Hmin f N).
Qed.

(** X10.  Where the faces around a vertex lie in one plane with unit normal
    [nu], counter-clockwise seen from the side that [nu] points to, the
    vertex normal is [nu] or the zero vector, and it is [nu] as soon as one
    corner of the ring is counted with an angle above the near-zero
    threshold.  Boundary halfedges and degenerate corners in the ring do not
    change this. *)
Theorem vertex_normal_flat_ring (scalar_min : Scalar) (fuel : nat)
    (m : SurfaceMesh) (v : Vertex) (nu : Point) :
  0 <= scalar_min ->
  is_valid (halfedge m v) = true ->
  closes fuel (cw_rotated_halfedge m) (halfedge m v) ->
  flat_vertex_ring m v nu ->
  (exists n, compute_vertex_normal scalar_min fuel m v = Ret n /\
             (n = vzero \/ n = nu)) /\
  ((exists j, let g := Nat.iter j (cw_rotated_halfedge m) (halfedge m v) in
              is_boundary m g = false /\
              counted_corner scalar_min (vertex_p1 m (position m v) g)
                                        (vertex_p2 m (position m v) g)) ->
   compute_vertex_normal scalar_min fuel m v = Ret nu).
Proof.
  intros Hmin. apply (flat_vertex_normal scalar_min fuel m nu Hmin v).
Qed.

(** X11.  Where the faces around the vertex that [h] points to lie in one
    plane with unit normal [nu], and the corner of [h] itself is counted, the
    corner normal is [nu] for every crease angle in [0.01, 179]: in a flat
    neighbourhood the crease test rejects nothing. *)
Theorem corner_normal_flat_ring (scalar_min : Scalar) (fuel : nat)
    (m : SurfaceMesh) (h : Halfedge) (crease_angle : Scalar) (nu : Point) :
  0 <= scalar_min ->
  0.01 <= crease_angle <= 179 ->
  is_boundary m h = false ->
  closes fuel (corner_rotation m) h ->
  flat_corner_ring m h nu ->
  counted_corner scalar_min (corner_p1 m (position m (to_vertex m h)) h)
                            (corner_p2 m (position m (to_vertex m h)) h) ->
  compute_corner_normal scalar_min fuel m h crease_angle = Ret nu.
Proof.
  intros Hmin. apply (flat_corner_normal scalar_min fuel m nu Hmin h crease_angle).
Qed.

(** X12.  The batch drivers change nothing but their own attribute, and there
    only the slots of the elements of the mesh.  [compute_vertex_normals]
    leaves the connectivity, every face attribute and every vertex attribute
    other than "v:normal" (the positions among them) as they were, and a
    slot of "v:normal" that belongs to no vertex of the mesh keeps its value;
    likewise [compute_face_normals] with "f:normal". *)
Theorem batch_drivers_frame (scalar_min : Scalar) (fuel : nat) (m m' : SurfaceMesh) :
  (compute_vertex_normals scalar_min fuel m = Ret m' ->
   same_connectivity m m' /\ fprops m' = fprops m /\
   (forall name, name <> "v:normal" -> vprops m' !! name = vprops m !! name) /\
   (forall v, ~ In v (vertices m) ->
      stored_vertex_normal m' v = stored_vertex_normal m v)) /\
  (compute_face_normals scalar_min fuel m = Ret m' ->
   same_connectivity m m' /\ vprops m' = vprops m /\
   (forall name, name <> "f:normal" -> fprops m' !! name = fprops m !! name) /\
   (forall f, ~ In f (faces m) ->
      stored_face_normal m' f = stored_face_normal m f)).
Proof.
  split; intros Hr.
  - rewrite compute_vertex_normals_store in Hr.
    destruct (vertex_normals_of scalar_min fuel m (vertices m)) as [r| |] eqn:Er;
      try discriminate.
    simpl in Hr. apply Ret_inj in Hr. subst m'.
    rewrite <- (vertex_normals_of_keys scalar_min fuel m _ r Er).
    apply store_vertex_normals_frame.
  - rewrite compute_face_normals_store in Hr.
    destruct (face_normals_of scalar_min fuel m (faces m)) as [r| |] eqn:Er;
      try discriminate.
    simpl in Hr. apply Ret_inj in Hr. subst m'.
    rewrite <- (face_normals_of_keys scalar_min fuel m _ r Er).
    apply store_face_normals_frame.
Qed.

(** X13.  The two batch drivers can be run in either order: computing the
    vertex normals and then the face normals yields the same mesh, with the
    same stored normals, as computing the face normals first, and when one
    of the two does not return, neither order returns. *)
Theorem batch_drivers_commute (scalar_min : Scalar) (fuel : nat) (m : SurfaceMesh) :
  0 <= scalar_min ->
  (m1 <~ compute_vertex_normals scalar_min fuel m ;;
   compute_face_normals scalar_min fuel m1)
  = (m2 <~ compute_face_normals scalar_min fuel m ;;
     compute_vertex_normals scalar_min fuel m2).
Proof.
  intros Hmin.
  rewrite (compute_vertex_normals_store scalar_min fuel m),
          (compute_face_normals_store scalar_min fuel m).
  pose proof (vertex_normals_of_number scalar_min fuel m (vertices m) Hmin) as Hv.
  pose proof (face_normals_of_number scalar_min fuel m (faces m) Hmin) as Hf.
  destruct (vertex_normals_of scalar_min fuel m (vertices m)) as [rv| |] eqn:Ev;
    [|contradiction|];
    (destruct (face_normals_of scalar_min fuel m (faces m)) as [rf| |] eqn:Ef;
       [|contradiction|]); simpl.
  - rewrite compute_vertex_normals_store, compute_face_normals_store.
    change (faces (store_vertex_normals m rv)) with (faces m).
    change (vertices (store_face_normals m rf)) with (vertices m).
    rewrite (face_normals_of_geometry scalar_min fuel _ m (faces m)
               (store_vertex_normals_geometry m rv)), Ef.
    rewrite (vertex_normals_of_geometry scalar_min fuel _ m (vertices m)
               (store_face_normals_geometry m rf)), Ev.
    reflexivity.
  - rewrite compute_face_normals_store.
    change (faces (store_vertex_normals m rv)) with (faces m).
    rewrite (face_normals_of_geometry scalar_min fuel _ m (faces m)
               (store_vertex_normals_geometry m rv)), Ef.
    reflexivity.
  - rewrite compute_vertex_normals_store.
    change (vertices (store_face_normals m rf)) with (vertices m).
    rewrite (vertex_normals_of_geometry scalar_min fuel _ m (vertices m)
               (store_face_normals_geometry m rf)), Ev.
    reflexivity.
  - reflexivity.
Qed.

(** X14.  A face whose vertices all lie on one line, coincident vertices
    included, has the zero vector as its normal, through the triangle branch
    as through the polygon branch: every cross product of the window
    vanishes, and the zero sum is normalized to the zero vector. *)
Theorem face_normal_collinear (scalar_min : Scalar) (fuel : nat) (m : SurfaceMesh)
    (f : Face) (N : nat) (a d : Point) :
  let q := face_point m (face_halfedge m f) in
  full_turn (next_halfedge m) (face_halfedge m f) N -> (N <= fuel)%nat ->
  (forall j, exists s, q j = a +v d *v s) ->
  compute_face_normal scalar_min fuel m f = Ret vzero.
Proof.
  intros q Hturn Hfuel Hline.
  pose proof (collinear_window q a d Hline) as Hzero.
  destruct (decide (next_halfedge m (next_halfedge m (next_halfedge m (face_halfedge m f)))
                    = face_halfedge m f)) as [Ht|Ht].
  - rewrite (compute_face_normal_triangle scalar_min fuel m f Ht).
    unfold spec_triangle_normal. fold q.
    change (cross (q 2%nat -v q 1%nat) (q 0%nat -v q 1%nat)) with (window_term q 0).
    rewrite Hzero, normalize_vzero. reflexivity.
  - rewrite (compute_face_normal_full_turn scalar_min fuel m f N Hturn Hfuel Ht).
    fold q. unfold spec_newell_sum.
    rewrite (vsum_zero (window_term q) _ Hzero), normalize_vzero. reflexivity.
Qed.

(** X15.  The other limit of the general case of [compute_corner_normal]:
    when the corner of [h] is counted and the test rejects every other corner
    of the ring that has a normal, the result is the anchor, the unit normal
    of the face of [h] at its corner, whatever the angle of that corner. *)
Theorem corner_normal_sharp_limit (scalar_min : Scalar) (fuel : nat)
    (m : SurfaceMesh) (h : Halfedge) (crease_angle : Scalar) :
  0 <= scalar_min ->
  0.01 <= crease_angle <= 179 ->
  is_boundary m h = false ->
  closes fuel (corner_rotation m) h ->
  counted_corner scalar_min (corner_p1 m (position m (to_vertex m h)) h)
                            (corner_p2 m (position m (to_vertex m h)) h) ->
  ring_outside_crease scalar_min m h (cos crease_angle) ->
  compute_corner_normal scalar_min fuel m h crease_angle
  = Ret (anchor_normal scalar_min m h).
Proof.
  intros Hmin. apply (corner_normal_sharp scalar_min fuel m h Hmin crease_angle).
Qed.

(** X16.  Each do-while loop ends exactly when its rotation leads back to
    the halfedge it started from.  With a cycle of at most [fuel] rotations
    through the start halfedge the operation returns; when no number of
    rotations up to [fuel] leads back, the outcome is [NoReturn], for every
    amount of fuel if the start halfedge is on no cycle at all: the source
    has no other exit from the loop. *)
Theorem loops_return_iff_cycle (scalar_min : Scalar) (fuel : nat) (m : SurfaceMesh) :
  0 <= scalar_min ->
  (forall v, is_valid (halfedge m v) = true ->
     let h := halfedge m v in
     ((exists k, (0 < k <= fuel)%nat /\ Nat.iter k (cw_rotated_halfedge m) h = h) ->
      exists n, compute_vertex_normal scalar_min fuel m v = Ret n) /\
     ((forall k, (0 < k <= fuel)%nat -> Nat.iter k (cw_rotated_halfedge m) h <> h) ->
      compute_vertex_normal scalar_min fuel m v = NoReturn)) /\
  (forall f, ~ is_triangle m f ->
     let h := next_halfedge m (next_halfedge m (face_halfedge m f)) in
     ((exists k, (0 < k <= fuel)%nat /\ Nat.iter k (next_halfedge m) h = h) ->
      exists n, compute_face_normal scalar_min fuel m f = Ret n) /\
     ((forall k, (0 < k <= fuel)%nat -> Nat.iter k (next_halfedge m) h <> h) ->
      compute_face_normal scalar_min fuel m f = NoReturn)) /\
  (forall h a, 0.01 <= a <= 179 -> is_boundary m h = false ->
     ((exists k, (0 < k <= fuel)%nat /\ Nat.iter k (corner_rotation m) h = h) ->
      exists n, compute_corner_normal scalar_min fuel m h a = Ret n) /\
     ((forall k, (0 < k <= fuel)%nat -> Nat.iter k (corner_rotation m) h <> h) ->
      compute_corner_normal scalar_min fuel m h a = NoReturn)).
Proof.
  intros Hmin. split; [|split].
  - intros v Hv h. rewrite compute_vertex_normal_walk by assumption. fold h. split.
    + intros (k & Hk & Hback).
      destruct (ring_walk_cycle _ h fuel k Hk Hback) as [l ->]. eexists. reflexivity.
    + intros Hnever. rewrite (ring_walk_stuck _ h fuel Hnever). reflexivity.
  - intros f Ht h. rewrite compute_face_normal_walk by assumption. fold h. split.
    + intros (k & Hk & Hback).
      destruct (ring_walk_cycle _ h fuel k Hk Hback) as [l ->]. eexists. reflexivity.
    + intros Hnever. rewrite (ring_walk_stuck _ h fuel Hnever). reflexivity.
  - intros h a Ha Hb. rewrite compute_corner_normal_walk by assumption. split.
    + intros (k & Hk & Hback).
      destruct (ring_walk_cycle _ h fuel k Hk Hback) as [l ->]. eexists. reflexivity.
    + intros Hnever. rewrite (ring_walk_stuck _ h fuel Hnever). reflexivity.
Qed.

(** X17.  The order in which the mesh enumerates its elements does not
    matter to the batch drivers: with the vertices enumerated in another
    order, [compute_vertex_normals] stores the same normals and leaves the
    same mesh, up to that order, and it returns from the one exactly when it
    returns from the other; likewise [compute_face_normals] and the order of
    the faces.  No normal depends on a normal written before. *)
Theorem batch_drivers_any_order (scalar_min : Scalar) (fuel : nat) (m : SurfaceMesh)
    (vs : list Vertex) (fs : list Face) :
  0 <= scalar_min ->
  (Permutation vs (vertices m) ->
   compute_vertex_normals scalar_min fuel (with_vertices m vs)
   = (m' <~ compute_vertex_normals scalar_min fuel m ;; Ret (with_vertices m' vs))) /\
  (Permutation fs (faces m) ->
   compute_face_normals scalar_min fuel (with_faces m fs)
   = (m' <~ compute_face_normals scalar_min fuel m ;; Ret (with_faces m' fs))).
Proof.
  intros Hmin. split; intros Hperm.
  - rewrite !compute_vertex_normals_store.
    change (vertices (with_vertices m vs)) with vs.
    rewrite vertex_normals_of_with_vertices by exact Hmin.
    pose proof (vertex_normals_of_perm scalar_min fuel m _ _ Hmin Hperm) as Hsame.
    destruct (vertex_normals_of scalar_min fuel m vs) as [r| |],
             (vertex_normals_of scalar_min fuel m (vertices m)) as [r'| |];
      simpl in *; try contradiction; try reflexivity.
    unfold store_vertex_normals.
    change (get_vertex_property (with_vertices m vs) "v:normal")
      with (get_vertex_property m "v:normal").
    rewrite Hsame. reflexivity.
  - rewrite !compute_face_normals_store.
    change (faces (with_faces m fs)) with fs.
    rewrite face_normals_of_with_faces.
    pose proof (face_normals_of_perm scalar_min fuel m _ _ Hmin Hperm) as Hsame.
    destruct (face_normals_of scalar_min fuel m fs) as [r| |],
             (face_normals_of scalar_min fuel m (faces m)) as [r'| |];
      simpl in *; try contradiction; try reflexivity.
    unfold store_face_normals.
    change (get_face_property (with_faces m fs) "f:normal")
      with (get_face_property m "f:normal").
    rewrite Hsame. reflexivity.
Qed.

(** X18.  Reversing the winding of a face reverses its normal, for every
    number of sides: a face that reads the positions of another face of [N]
    sides in the reversed order (from the same first vertex) has the
    opposite normal, through the triangle branch as through the polygon
    branch. *)
Theorem face_normal_reversed (scalar_min : Scalar) (fuel : nat)
    (m m' : SurfaceMesh) (f f' : Face) (N : nat) :
  full_turn (next_halfedge m) (face_halfedge m f) N ->
  full_turn (next_halfedge m') (face_halfedge m' f') N ->
  (N <= fuel)%nat ->
  (forall j, (j <= N)%nat ->
     face_point m' (face_halfedge m' f') j = face_point m (face_halfedge m f) (N - j)) ->
  compute_face_normal scalar_min fuel m' f'
  = map_result vopp (compute_face_normal scalar_min fuel m f).
Proof.
  intros Hturn Hturn' Hfuel Hrev.
  pose proof Hturn as (HN & _).
  assert (Hper : forall j, face_point m (face_halfedge m f) (j + N)
                           = face_point m (face_halfedge m f) j).
  { intros j. apply face_point_periodic. exact Hturn. }
  assert (Hper' : forall j, face_point m' (face_halfedge m' f') (j + N)
                            = face_point m' (face_halfedge m' f') j).
  { intros j. apply face_point_periodic. exact Hturn'. }
  pose proof (is_triangle_sides m f N Hturn) as Htri.
  pose proof (is_triangle_sides m' f' N Hturn') as Htri'.
  destruct (Nat.eq_dec N 1%nat) as [H1|H1]; [|destruct (Nat.eq_dec N 3%nat) as [H3|H3]].
  - rewrite (compute_face_normal_triangle scalar_min fuel m' f') by (apply Htri'; tauto).
    rewrite (compute_face_normal_triangle scalar_min fuel m f) by (apply Htri; tauto).
    simpl. f_equal. unfold spec_triangle_normal. rewrite <- normalize_vopp. f_equal.
    pose proof (window_reversed_last _ _ N HN Hper Hper' Hrev) as Hw.
    rewrite H1 in Hw. exact Hw.
  - rewrite (compute_face_normal_triangle scalar_min fuel m' f') by (apply Htri'; tauto).
    rewrite (compute_face_normal_triangle scalar_min fuel m f) by (apply Htri; tauto).
    simpl. f_equal. unfold spec_triangle_normal. rewrite <- normalize_vopp. f_equal.
    pose proof (window_reversed _ _ N HN Hrev 0 ltac:(lia)) as Hw.
    rewrite H3 in Hw. simpl in Hw.
    rewrite (window_term_period_3 (face_point m (face_halfedge m f))) in Hw
      by (intros j; rewrite <- H3; apply Hper).
    exact Hw.
  - rewrite (compute_face_normal_full_turn scalar_min fuel m' f' N Hturn' Hfuel)
      by (rewrite Htri'; tauto).
    rewrite (compute_face_normal_full_turn scalar_min fuel m f N Hturn Hfuel)
      by (rewrite Htri; tauto).
    simpl. f_equal. rewrite <- normalize_vopp. f_equal.
    apply newell_reversed; assumption.
Qed.

(** X19.  The shortcut above 179 is not the limit of the general case: there
    is a closed mesh with a halfedge [h] at which the crease angle 179
    rejects no corner and gives the vertex normal of [to_vertex(h)], the
    crease angle 180 gives the vertex normal of [from_vertex(h)], and the
    two results differ. *)
Theorem corner_normal_jumps_at_179 (scalar_min : Scalar) (fuel : nat) :
  0 <= scalar_min < 1 -> (4 <= fuel)%nat ->
  exists (m : SurfaceMesh) (h : Halfedge),
    is_boundary m h = false /\
    compute_corner_normal scalar_min fuel m h 179
    = compute_vertex_normal scalar_min fuel m (to_vertex m h) /\
    compute_corner_normal scalar_min fuel m h 180
    = compute_vertex_normal scalar_min fuel m (from_vertex m h) /\
    compute_corner_normal scalar_min fuel m h 179
    <> compute_corner_normal scalar_min fuel m h 180.
Proof.
  intros Hmin Hfuel. exists cube, (H 0).
  destruct (cube_smooth_corner_vertex scalar_min fuel (H 0) Hmin Hfuel)
    as (H179 & H180 & Hne).
  { unfold cube_halfedges. simpl. tauto. }
  split; [reflexivity|]. split; [exact H179|]. split; [exact H180|].
  rewrite H179, H180. exact Hne.
Qed.


(** ** The claims at concrete meshes *)



Lemma cube_bottom_face_turn :
  full_turn (next_halfedge cube) (face_halfedge cube (F 0)) 4.
Proof.
  destruct (ring_walk_sound (next_halfedge cube) (H 0) 4 [H 0; H 2; H 4; H 6] eq_refl)
    as (Hturn & _).
  exact Hturn.
Qed.

Lemma cube_bottom_face_strictly_convex :
  strictly_convex (face_point cube (face_halfedge cube (F 0))) 4 (mkPoint 0 0 (-1)).
Proof.
  intros i j Hi Hj Hne Hnext Hwrap.
  destruct i as [|[|[|[|i]]]]; try lia;
    destruct j as [|[|[|[|j]]]]; try lia; vec_lra.
Qed.

Lemma cube_bottom_face_convex :
  planar_convex (face_point cube (face_halfedge cube (F 0))) 4 (mkPoint 0 0 (-1)).
Proof.
  split; [vec_simpl; ring|]. split.
  - intros i Hi. destruct i as [|[|[|[|i]]]]; try lia; vec_lra.
  - intros i j Hi Hj Hne Hnext Hwrap.
    apply Rlt_le, cube_bottom_face_strictly_convex; assumption.
Qed.

(** C3 at the halfedge [H 0] of the cube, for the crease angles 0 and 180. *)
Lemma corner_normal_trivial_cases_witness :
  compute_corner_normal FLT_MIN 4 cube (H 0) 0
  = compute_face_normal FLT_MIN 4 cube (face cube (H 0)) /\
  compute_corner_normal FLT_MIN 4 cube (H 0) 180
  = compute_vertex_normal FLT_MIN 4 cube (from_vertex cube (H 0)).
Proof.
  split.
  - destruct (corner_normal_trivial_cases FLT_MIN 4 cube (H 0) 0 eq_refl) as [Hflat _].
    apply Hflat. lra.
  - destruct (corner_normal_trivial_cases FLT_MIN 4 cube (H 0) 180 eq_refl) as [_ Hsmooth].
    apply Hsmooth. lra.
Defined.



(** C5 at the face of the triangle. *)
Lemma face_normal_triangle_witness :
  compute_face_normal FLT_MIN 0 triangle (F 0)
  = Ret (normalize FLT_MIN
           (cross (face_point triangle (H 0) 2 -v face_point triangle (H 0) 1)
                  (face_point triangle (H 0) 0 -v face_point triangle (H 0) 1))).
Proof.
  destruct (face_normal_triangle FLT_MIN 0 triangle (F 0) eq_refl) as (Hn & _).
  exact Hn.
Defined.



Lemma triangle_vertex_normals_return (v : Vertex) :
  In v (vertices triangle) ->
  exists n, compute_vertex_normal FLT_MIN 4 triangle v = Ret n.
Proof.
  intros Hin.
  apply (vertex_normal_well_defined FLT_MIN (proj1 FLT_MIN_bounds) 4 triangle v).
  each_of Hin; intros Hv; try discriminate.
  - exists [H 5; H 0]. reflexivity.
  - exists [H 1; H 2]. reflexivity.
  - exists [H 3; H 4]. reflexivity.
Qed.

(** C8 on the triangle: the vertex driver returns, stores the normals of [V 1]
    and of the isolated [V 3], and a second run changes nothing. *)
Lemma batch_drivers_store_single_results_witness :
  exists m', compute_vertex_normals FLT_MIN 4 triangle = Ret m' /\
             stored_vertex_normal m' (V 1) = Some (mkPoint 0 0 1) /\
             stored_vertex_normal m' (V 3) = Some vzero /\
             compute_vertex_normals FLT_MIN 4 m' = Ret m'.
Proof.
  destruct (batch_drivers_store_single_results FLT_MIN 4 triangle)
    as (Hret & Hstore & _).
  destruct (Hret triangle_vertex_normals_return) as [m' Hm'].
  exists m'. split; [exact Hm'|].
  destruct (Hstore m' Hm') as (_ & Hin & Hagain).
  split; [|split; [|exact Hagain]].
  - destruct (Hin (V 1)) as (n & Hn & Hs); [simpl; tauto|].
    rewrite (triangle_vertex_normal FLT_MIN 4 FLT_MIN_bounds) in Hn by lia.
    injection Hn as <-. exact Hs.
  - destruct (Hin (V 3)) as (n & Hn & Hs); [simpl; tauto|].
    rewrite (compute_vertex_normal_isolated FLT_MIN 4 triangle (V 3) eq_refl) in Hn.
    injection Hn as <-. exact Hs.
Defined.

(** C9 at the boundary halfedge [H 1] of the triangle. *)
Lemma corner_normal_boundary_zero_witness :
  compute_corner_normal FLT_MIN 0 triangle (H 1) 90 = Ret vzero.
Proof.
  destruct (corner_normal_boundary_zero FLT_MIN 0 triangle (H 1) 90 eq_refl ltac:(lra))
    as (Hz & _).
  exact Hz.
Defined.

(** C10 at the boundary halfedge [H 1] of the triangle. *)
Lemma corner_normal_trivial_paths_skip_boundary_check_witness :
  is_boundary triangle (H 1) = true /\
  compute_corner_normal FLT_MIN 4 triangle (H 1) 0
  = compute_face_normal FLT_MIN 4 triangle (face triangle (H 1)) /\
  compute_corner_normal FLT_MIN 4 triangle (H 1) 180 = Ret (mkPoint 0 0 1).
Proof.
  split; [reflexivity|]. split.
  - destruct (corner_normal_trivial_paths_skip_boundary_check FLT_MIN 4 triangle (H 1) 0)
      as (Hflat & _).
    apply Hflat. lra.
  - destruct (corner_normal_trivial_paths_skip_boundary_check FLT_MIN 4 triangle (H 1) 180)
      as (_ & _ & Hex).
    destruct (Hex FLT_MIN_bounds ltac:(lia)) as (_ & _ & _ & Hn).
    exact Hn.
Defined.

(** X1 on the cube. *)
Lemma loops_return_on_well_formed_meshes_witness :
  (exists x, compute_vertex_normal FLT_MIN 24 cube (V 7) = Ret x) /\
  (exists x, compute_face_normal FLT_MIN 24 cube (F 5) = Ret x) /\
  (exists x, compute_corner_normal FLT_MIN 24 cube (H 23) 60 = Ret x).
Proof.
  destruct (loops_return_on_well_formed_meshes FLT_MIN 24 cube 24
              (proj1 FLT_MIN_bounds) cube_well_formed ltac:(lia)) as (Hv & Hf & Hc).
  split; [|split].
  - apply Hv. simpl. tauto.
  - apply Hf. simpl. tauto.
  - apply Hc; [simpl; lia | lra].
Defined.

(** ** The further properties at concrete meshes *)

(** What holds at every halfedge that a closed walk visits holds at every
    halfedge that the rotation reaches. *)
Lemma ring_walk_all (fuel : nat) (rot : Halfedge -> Halfedge) (h : Halfedge)
    (l : list Halfedge) (P : Halfedge -> Prop) :
  ring_walk fuel rot h h = Some l -> Forall P l ->
  forall j, P (Nat.iter j rot h).
Proof.
  intros Hw Hall j.
  destruct (ring_walk_sound rot h fuel l Hw) as (Hturn & Hl & _).
  pose proof Hturn as (Hk & Hback & _).
  rewrite (iter_mod rot h _ j Hk Hback).
  rewrite Stdlib.Lists.List.Forall_forall in Hall. apply Hall. rewrite Hl at 2.
  unfold orbit. apply in_map_iff. exists (j mod length l)%nat. split; [reflexivity|].
  apply in_seq. pose proof (Nat.mod_upper_bound j (length l)). lia.
Qed.

Lemma quarter_turn_rotation : rotation quarter_turn.
Proof.
  split; intros; unfold quarter_turn.
  - apply Point_eq; vec_simpl; ring.
  - apply Point_eq; vec_simpl; ring.
  - vec_simpl; ring.
  - apply Point_eq; vec_simpl; ring.
Qed.

Lemma moved_cube_connectivity : same_connectivity cube moved_cube.
Proof. repeat split. Qed.

Lemma moved_cube_position (v : Vertex) :
  In v (vertices cube) ->
  position moved_cube v = quarter_turn (position cube v) +v mkPoint 1 2 3.
Proof.
  intros Hin. each_of Hin.
  all: unfold position; read_points; unfold quarter_turn; apply Point_eq; simpl; lra.
Qed.

Lemma moved_cube_vertex_reads :
  moved_on (vertex_reads cube (V 0)) quarter_turn (mkPoint 1 2 3) cube moved_cube.
Proof.
  split; [exact moved_cube_connectivity|].
  intros u [->|(j & Hj)]; [apply moved_cube_position; simpl; tauto|].
  revert u Hj.
  apply (ring_walk_all 4 (cw_rotated_halfedge cube) (halfedge cube (V 0))
           [H 0; H 19; H 7]
           (fun g => forall u,
              u = to_vertex cube g \/ u = from_vertex cube (prev_halfedge cube g) ->
              position moved_cube u
              = quarter_turn (position cube u) +v mkPoint 1 2 3));
    [reflexivity|].
  repeat constructor; intros u [-> | ->]; apply moved_cube_position; simpl; tauto.
Qed.

Lemma moved_cube_face_reads :
  moved_on (face_reads cube (F 0)) quarter_turn (mkPoint 1 2 3) cube moved_cube.
Proof.
  split; [exact moved_cube_connectivity|].
  intros u (j & ->).
  apply (ring_walk_all 4 (next_halfedge cube) (face_halfedge cube (F 0))
           [H 0; H 2; H 4; H 6]
           (fun g => position moved_cube (to_vertex cube g)
                     = quarter_turn (position cube (to_vertex cube g)) +v mkPoint 1 2 3));
    [reflexivity|].
  repeat constructor; apply moved_cube_position; simpl; tauto.
Qed.

Lemma moved_cube_corner_reads :
  moved_on (corner_normal_reads cube (H 0) 1) quarter_turn (mkPoint 1 2 3)
           cube moved_cube.
Proof.
  split; [exact moved_cube_connectivity|].
  unfold corner_normal_reads.
  destruct (Rlt_dec 1 0.01); [lra|]. destruct (Rgt_dec 1 179); [lra|].
  intros u [->|(j & Hj)]; [apply moved_cube_position; simpl; tauto|].
  revert u Hj.
  apply (ring_walk_all 4 (corner_rotation cube) (H 0) [H 0; H 3; H 21]
           (fun g => forall u,
              u = to_vertex cube (next_halfedge cube g) \/ u = from_vertex cube g ->
              position moved_cube u
              = quarter_turn (position cube u) +v mkPoint 1 2 3));
    [reflexivity|].
  repeat constructor; intros u [-> | ->]; apply moved_cube_position; simpl; tauto.
Qed.

(** X3 at the vertex [V 0] of the cube, turned by a quarter about the z axis
    and moved by (1, 2, 3). *)
Lemma vertex_normal_rigid_motion_witness :
  compute_vertex_normal FLT_MIN 4 moved_cube (V 0)
  = map_result quarter_turn (compute_vertex_normal FLT_MIN 4 cube (V 0)).
Proof.
  apply (vertex_normal_rigid_motion FLT_MIN 4 quarter_turn (mkPoint 1 2 3)
           cube moved_cube (V 0) (proj1 FLT_MIN_bounds) quarter_turn_rotation
           moved_cube_vertex_reads).
Defined.

(** X4 at the bottom face of the cube. *)
Lemma face_normal_rigid_motion_witness :
  compute_face_normal FLT_MIN 4 moved_cube (F 0)
  = map_result quarter_turn (compute_face_normal FLT_MIN 4 cube (F 0)).
Proof.
  apply (face_normal_rigid_motion FLT_MIN 4 quarter_turn (mkPoint 1 2 3)
           cube moved_cube (F 0) quarter_turn_rotation moved_cube_face_reads).
Defined.

(** X5 at the halfedge [H 0] of the cube, for the crease angle 1. *)
Lemma corner_normal_rigid_motion_witness :
  compute_corner_normal FLT_MIN 4 moved_cube (H 0) 1
  = map_result quarter_turn (compute_corner_normal FLT_MIN 4 cube (H 0) 1).
Proof.
  apply (corner_normal_rigid_motion FLT_MIN 4 quarter_turn (mkPoint 1 2 3)
           cube moved_cube (H 0) 1 (proj1 FLT_MIN_bounds) quarter_turn_rotation
           moved_cube_corner_reads).
Defined.

Lemma cube_ring_consistent_at_H0 : ring_consistent cube (H 0).
Proof.
  unfold ring_consistent. cbv zeta.
  apply (ring_walk_all 4 (corner_rotation cube) (H 0) [H 0; H 3; H 21]
           (fun g =>
              prev_halfedge cube (next_halfedge cube g) = g /\
              is_boundary cube (next_halfedge cube g) = is_boundary cube g /\
              cw_rotated_halfedge cube (next_halfedge cube g)
              = next_halfedge cube (opposite_halfedge cube (next_halfedge cube g))));
    [reflexivity|].
  repeat constructor.
Qed.

(** X2 at the halfedge [H 0] of the cube, for the crease angle [PI], whose
    cosine is -1. *)
Lemma corner_normal_smooth_limit_witness :
  compute_corner_normal FLT_MIN 4 cube (H 0) PI
  = compute_vertex_normal FLT_MIN 4 cube (to_vertex cube (H 0)).
Proof.
  apply (corner_normal_smooth_limit FLT_MIN 4 cube (H 0) PI 2 (proj1 FLT_MIN_bounds)).
  - pose proof PI_bounds. lra.
  - reflexivity.
  - exact cube_ring_consistent_at_H0.
  - eexists. reflexivity.
  - reflexivity.
  - reflexivity.
  - left. rewrite cos_PI. lra.
Defined.

(** X6 at the vertex [V 0] of the cube, entered at its second halfedge. *)
Lemma vertex_normal_any_start_halfedge_witness :
  compute_vertex_normal FLT_MIN 4 (with_halfedge cube (V 0) (H 19)) (V 0)
  = compute_vertex_normal FLT_MIN 4 cube (V 0).
Proof.
  apply (vertex_normal_any_start_halfedge FLT_MIN 4 cube (V 0) 1 (proj1 FLT_MIN_bounds)).
  - reflexivity.
  - reflexivity.
  - eexists. reflexivity.
Defined.

(** X7 at the bottom face of the cube, entered at its second halfedge. *)
Lemma face_normal_any_start_halfedge_witness :
  compute_face_normal FLT_MIN 4 (with_face_halfedge cube (F 0) (H 2)) (F 0)
  = compute_face_normal FLT_MIN 4 cube (F 0).
Proof.
  apply (face_normal_any_start_halfedge FLT_MIN 4 cube (F 0) 4 1 cube_bottom_face_turn).
  lia.
Defined.

(** X8 at the bottom face of the cube. *)
Lemma face_normal_quad_witness :
  compute_face_normal FLT_MIN 4 cube (F 0)
  = Ret (normalize FLT_MIN
           (cross (face_point cube (H 0) 2 -v face_point cube (H 0) 0)
                  (face_point cube (H 0) 3 -v face_point cube (H 0) 1) *v 2)).
Proof.
  apply (face_normal_quad FLT_MIN 4 cube (F 0) cube_bottom_face_turn). lia.
Defined.

(** X9 at the bottom face of the cube, whose outward normal points down. *)
Lemma face_normal_planar_convex_witness :
  compute_face_normal FLT_MIN 4 cube (F 0)
  = Ret (if Rgt_dec (dot (spec_newell_sum (face_point cube (H 0)) 4) (mkPoint 0 0 (-1)))
                    FLT_MIN
         then mkPoint 0 0 (-1) else vzero).
Proof.
  apply (face_normal_planar_convex FLT_MIN 4 cube (F 0) 4 (mkPoint 0 0 (-1))
           (proj1 FLT_MIN_bounds) cube_bottom_face_turn ltac:(lia) ltac:(lia)
           cube_bottom_face_convex).
Defined.

Lemma right_counted_corner (scalar_min : Scalar) (p1 p2 : Point) :
  0 <= scalar_min < 1 ->
  dot p1 p1 = 1 -> dot p2 p2 = 1 -> dot p1 p2 = 0 ->
  counted_corner scalar_min p1 p2.
Proof.
  intros Hmin H1 H2 H12. pose proof PI_bounds as Hpi.
  destruct (right_corner_contribution scalar_min p1 p2 Hmin H1 H2 H12) as (Hn & _).
  unfold counted_corner, spec_angle.
  rewrite H1, H2, H12, Rmult_1_r, sqrt_1, Hn.
  replace (0 / 1) with 0 by field.
  rewrite spec_clamp_id, acos_0 by lra. lra.
Qed.

Lemma triangle_flat_at_V1 : flat_vertex_ring triangle (V 1) (mkPoint 0 0 1).
Proof.
  split; [vec_simpl; ring|]. cbv zeta.
  apply (ring_walk_all 2 (cw_rotated_halfedge triangle) (halfedge triangle (V 1))
           [H 1; H 2]
           (fun g => is_boundary triangle g = false ->
                     flat_corner (mkPoint 0 0 1)
                       (vertex_p1 triangle (position triangle (V 1)) g)
                       (vertex_p2 triangle (position triangle (V 1)) g)));
    [reflexivity|].
  repeat constructor; try discriminate.
  all: unfold position; vec_lra.
Qed.

(** X10 at the vertex [V 1] of the triangle, whose ring has one corner and
    one boundary halfedge. *)
Lemma vertex_normal_flat_ring_witness :
  compute_vertex_normal FLT_MIN 2 triangle (V 1) = Ret (mkPoint 0 0 1).
Proof.
  apply (vertex_normal_flat_ring FLT_MIN 2 triangle (V 1) (mkPoint 0 0 1)
           (proj1 FLT_MIN_bounds)).
  - reflexivity.
  - eexists. reflexivity.
  - exact triangle_flat_at_V1.
  - exists 1%nat. split; [reflexivity|].
    apply right_counted_corner; [exact FLT_MIN_bounds | | |]; unfold position; vec_lra.
Defined.

Lemma triangle_flat_at_H0 : flat_corner_ring triangle (H 0) (mkPoint 0 0 1).
Proof.
  split; [vec_simpl; ring|]. cbv zeta.
  apply (ring_walk_all 2 (corner_rotation triangle) (H 0) [H 0; H 3]
           (fun g => is_boundary triangle g = false ->
                     flat_corner (mkPoint 0 0 1)
                       (corner_p1 triangle (position triangle (to_vertex triangle (H 0))) g)
                       (corner_p2 triangle (position triangle (to_vertex triangle (H 0))) g)));
    [reflexivity|].
  repeat constructor; try discriminate.
  all: unfold position; vec_lra.
Qed.

(** X11 at the halfedge [H 0] of the triangle, for the crease angle 1. *)
Lemma corner_normal_flat_ring_witness :
  compute_corner_normal FLT_MIN 2 triangle (H 0) 1 = Ret (mkPoint 0 0 1).
Proof.
  apply (corner_normal_flat_ring FLT_MIN 2 triangle (H 0) 1 (mkPoint 0 0 1)
           (proj1 FLT_MIN_bounds)).
  - lra.
  - reflexivity.
  - eexists. reflexivity.
  - exact triangle_flat_at_H0.
  - apply right_counted_corner; [exact FLT_MIN_bounds | | |]; unfold position; vec_lra.
Defined.

(** X12 on the triangle: the drivers return there. *)
Lemma batch_drivers_frame_witness :
  exists m', compute_vertex_normals FLT_MIN 4 triangle = Ret m' /\
             vprops m' !! "v:point" = vprops triangle !! "v:point" /\
             fprops m' = fprops triangle.
Proof.
  destruct (compute_vertex_normals_returns FLT_MIN 4 triangle) as [m' Hm'].
  { exact triangle_vertex_normals_return. }
  exists m'. split; [exact Hm'|].
  destruct (proj1 (batch_drivers_frame FLT_MIN 4 triangle m') Hm')
    as (_ & Hf & Hv & _).
  split; [apply Hv; discriminate | exact Hf].
Defined.

(** X13 on the triangle. *)
Lemma batch_drivers_commute_witness :
  (m1 <~ compute_vertex_normals FLT_MIN 4 triangle ;; compute_face_normals FLT_MIN 4 m1)
  = (m2 <~ compute_face_normals FLT_MIN 4 triangle ;; compute_vertex_normals FLT_MIN 4 m2).
Proof.
  apply (batch_drivers_commute FLT_MIN 4 triangle (proj1 FLT_MIN_bounds)).
Defined.

Lemma collinear_triangle_turn :
  full_turn (next_halfedge collinear_triangle) (face_halfedge collinear_triangle (F 0)) 3.
Proof.
  destruct (ring_walk_sound (next_halfedge collinear_triangle) (H 0) 3
              [H 0; H 2; H 4] eq_refl) as (Hturn & _).
  exact Hturn.
Qed.

Lemma collinear_triangle_line (j : nat) :
  exists s, face_point collinear_triangle (face_halfedge collinear_triangle (F 0)) j
            = mkPoint 0 0 0 +v mkPoint 1 0 0 *v s.
Proof.
  unfold face_point.
  apply (ring_walk_all 3 (next_halfedge collinear_triangle)
           (face_halfedge collinear_triangle (F 0)) [H 0; H 2; H 4]
           (fun g => exists s,
              vread (get_vertex_property collinear_triangle "v:point")
                    (to_vertex collinear_triangle g)
              = mkPoint 0 0 0 +v mkPoint 1 0 0 *v s));
    [reflexivity|].
  repeat constructor.
  - exists 1. read_points. apply Point_eq; vec_simpl; lra.
  - exists 3. read_points. apply Point_eq; vec_simpl; lra.
  - exists 0. read_points. apply Point_eq; vec_simpl; lra.
Qed.

(** X14 at the face of the triangle with its vertices on the x axis. *)
Lemma face_normal_collinear_witness :
  compute_face_normal FLT_MIN 3 collinear_triangle (F 0) = Ret vzero.
Proof.
  apply (face_normal_collinear FLT_MIN 3 collinear_triangle (F 0) 3
           (mkPoint 0 0 0) (mkPoint 1 0 0) collinear_triangle_turn ltac:(lia)
           collinear_triangle_line).
Defined.

Lemma cos_1_pos : 0 < cos 1.
Proof. pose proof PI_bounds as [Hlo Hhi]. apply cos_gt_0; lra. Qed.

Lemma cube_outside_crease_at_H0 : ring_outside_crease FLT_MIN cube (H 0) (cos 1).
Proof.
  pose proof FLT_MIN_bounds as Hmin. pose proof cos_1_pos as Hcos.
  unfold ring_outside_crease. cbv zeta.
  apply (ring_walk_all 4 (corner_rotation cube) (H 0) [H 0; H 3; H 21]
           (fun g =>
              g <> H 0 -> is_boundary cube g = false ->
              norm (cross (corner_p1 cube (position cube (to_vertex cube (H 0))) g)
                          (corner_p2 cube (position cube (to_vertex cube (H 0))) g))
              > FLT_MIN ->
              dot (cross (corner_p1 cube (position cube (to_vertex cube (H 0))) g)
                         (corner_p2 cube (position cube (to_vertex cube (H 0))) g)
                   *v (/ norm (cross (corner_p1 cube (position cube (to_vertex cube (H 0))) g)
                                     (corner_p2 cube (position cube (to_vertex cube (H 0))) g))))
                  (anchor_normal FLT_MIN cube (H 0)) < cos 1));
    [reflexivity|].
  rewrite (anchor_normal_unit FLT_MIN cube (H 0) (mkPoint 0 0 (-1)) Hmin)
    by (read_points; vec_ring || (vec_simpl; ring)).
  repeat constructor; intros Hne _ _; [contradiction | |].
  all: match goal with |- context [norm (cross ?p1 ?p2)] =>
         destruct (right_corner_contribution FLT_MIN p1 p2 Hmin) as (Hn & _);
           [unfold position; vec_lra | unfold position; vec_lra
           | unfold position; vec_lra |];
         rewrite Hn, Rinv_1, vscale_one end.
  all: unfold position; read_points; vec_simpl; lra.
Qed.

(** X15 at the halfedge [H 0] of the cube, for the crease angle 1. *)
Lemma corner_normal_sharp_limit_witness :
  compute_corner_normal FLT_MIN 4 cube (H 0) 1 = Ret (anchor_normal FLT_MIN cube (H 0)).
Proof.
  apply (corner_normal_sharp_limit FLT_MIN 4 cube (H 0) 1 (proj1 FLT_MIN_bounds)).
  - lra.
  - reflexivity.
  - eexists. reflexivity.
  - apply right_counted_corner; [exact FLT_MIN_bounds | | |]; unfold position; vec_lra.
  - exact cube_outside_crease_at_H0.
Defined.

Lemma stuck_rotation (k : nat) :
  (0 < k)%nat -> Nat.iter k (cw_rotated_halfedge stuck) (H 0) = H 2.
Proof.
  induction k as [|k IH]; [lia|]. intros _.
  destruct k as [|k]; [reflexivity|].
  simpl in IH |- *. rewrite IH by lia. reflexivity.
Qed.

(** X16 at the vertex [V 0] of the corrupt connectivity, and at the vertex
    [V 1] of the triangle. *)
Lemma loops_return_iff_cycle_witness :
  compute_vertex_normal FLT_MIN 1000 stuck (V 0) = NoReturn /\
  exists n, compute_vertex_normal FLT_MIN 2 triangle (V 1) = Ret n.
Proof.
  split.
  - apply (loops_return_iff_cycle FLT_MIN 1000 stuck (proj1 FLT_MIN_bounds)).
    + reflexivity.
    + intros k Hk. change (halfedge stuck (V 0)) with (H 0).
      rewrite stuck_rotation by lia. discriminate.
  - apply (loops_return_iff_cycle FLT_MIN 2 triangle (proj1 FLT_MIN_bounds)).
    + reflexivity.
    + exists 2%nat. split; [lia | reflexivity].
Defined.

(** X17 on the triangle, with its four vertices enumerated backwards. *)
Lemma batch_drivers_any_order_witness :
  compute_vertex_normals FLT_MIN 4 (with_vertices triangle [V 3; V 2; V 1; V 0])
  = (m' <~ compute_vertex_normals FLT_MIN 4 triangle ;;
     Ret (with_vertices m' [V 3; V 2; V 1; V 0])).
Proof.
  apply (batch_drivers_any_order FLT_MIN 4 triangle [V 3; V 2; V 1; V 0] []
           (proj1 FLT_MIN_bounds)).
  change (vertices triangle) with (rev [V 3; V 2; V 1; V 0]).
  apply Permutation_rev.
Defined.

Lemma mirrored_cube_bottom_face_turn :
  full_turn (next_halfedge mirrored_cube) (face_halfedge mirrored_cube (F 0)) 4.
Proof. exact cube_bottom_face_turn. Qed.

(** X18 at the bottom faces of the cube and of the cube with two of its
    vertices exchanged. *)
Lemma face_normal_reversed_witness :
  compute_face_normal FLT_MIN 4 mirrored_cube (F 0)
  = map_result vopp (compute_face_normal FLT_MIN 4 cube (F 0)).
Proof.
  apply (face_normal_reversed FLT_MIN 4 cube mirrored_cube (F 0) (F 0) 4
           cube_bottom_face_turn mirrored_cube_bottom_face_turn ltac:(lia)).
  intros j Hj. destruct j as [|[|[|[|[|j]]]]]; try lia.
  all: unfold face_point; simpl; read_points; reflexivity.
Defined.

(** X19 with the single-precision threshold. *)
Lemma corner_normal_jumps_at_179_witness :
  exists (m : SurfaceMesh) (h : Halfedge),
    is_boundary m h = false /\
    compute_corner_normal FLT_MIN 4 m h 179
    = compute_vertex_normal FLT_MIN 4 m (to_vertex m h) /\
    compute_corner_normal FLT_MIN 4 m h 180
    = compute_vertex_normal FLT_MIN 4 m (from_vertex m h) /\
    compute_corner_normal FLT_MIN 4 m h 179
    <> compute_corner_normal FLT_MIN 4 m h 180.
Proof.
  apply (corner_normal_jumps_at_179 FLT_MIN 4 FLT_MIN_bounds). lia.
Defined.

